(** * Sandbox lifecycle controller and self-healing loop

    A shallow embedding of [src/hooks/useWebContainer.ts] (the
    [useWebContainer] hook: output buffer, boot, preWarm, mountFiles,
    startDevServer, updateFile, reset), of [src/utils/zipUtils.ts]
    ([extractZip], [toWebContainerFS], [findRootPrefix], [flattenFiles])
    and of the [App] component (its handlers and its auto-fix part:
    [parseError], [fixCodeError] and the two effects that trigger it),
    followed by the properties that the specification states about them
    and by further properties of the code. *)

From Stdlib Require Import List Bool Arith NArith ZArith Lia Sorted.
From Stdlib Require String Ascii.
Import ListNotations.
Import String.StringSyntax.
Delimit Scope string_scope with string.

Set Implicit Arguments.

(* ===================================================================== *)
(** ** JavaScript strings *)
(* ===================================================================== *)

(** A JavaScript string is a sequence of UTF-16 code units; [length],
    [slice], [includes], [trim] and the regular expressions without the [u]
    flag all work on code units. *)
Module JS.

Definition char := N.
Definition jsstring := list char.

(** ASCII literals of the source, written as Rocq strings. *)
Definition lit (s : String.string) : jsstring :=
  map Ascii.N_of_ascii (String.list_ascii_of_string s).
Arguments lit s%_string.

Fixpoint eqb (a b : jsstring) : bool :=
  match a, b with
  | [], [] => true
  | x :: a', y :: b' => N.eqb x y && eqb a' b'
  | _, _ => false
  end.

(** [s.startsWith(p)] *)
Fixpoint startsWith (s p : jsstring) : bool :=
  match p, s with
  | [], _ => true
  | _ :: _, [] => false
  | y :: p', x :: s' => N.eqb x y && startsWith s' p'
  end.

(** [s.includes(p)] *)
Fixpoint includes (s p : jsstring) : bool :=
  startsWith s p ||
  match s with
  | [] => false
  | _ :: s' => includes s' p
  end.

(** [s.slice(0, n)] for a non-negative [n] *)
Definition slice_to (A : Type) (n : nat) (s : list A) : list A := firstn n s.

(** [s.slice(-n)] for a positive [n]: the last [n] elements, all of them
    when there are fewer.  The same method exists on arrays. *)
Definition slice_last (A : Type) (n : nat) (s : list A) : list A :=
  skipn (length s - n) s.

(** [s.endsWith(p)] *)
Definition endsWith (s p : jsstring) : bool :=
  (length p <=? length s) && eqb (skipn (length s - length p) s) p.

(** [s.replace(p, r)] with a string pattern: the first occurrence of [p]
    is replaced.  (The replacement strings in the source hold no [$].) *)
Fixpoint replace (s p r : jsstring) : jsstring :=
  if startsWith s p then r ++ skipn (length p) s
  else match s with
       | [] => []
       | x :: s' => x :: replace s' p r
       end.

(** [s.split(c)] for a one-character separator. *)
Fixpoint split (c : char) (s : jsstring) : list jsstring :=
  match s with
  | [] => [[]]
  | x :: s' =>
      if N.eqb x c then [] :: split c s'
      else match split c s' with
           | [] => [[x]]
           | seg :: segs => (x :: seg) :: segs
           end
  end.

(** [a.pop()]: the last element, [undefined] on the empty array. *)
Definition pop (A : Type) (a : list A) : option A :=
  match rev a with
  | [] => None
  | x :: _ => Some x
  end.

(** [lines.join(sep)] *)
Fixpoint join (sep : jsstring) (lines : list jsstring) : jsstring :=
  match lines with
  | [] => []
  | [l] => l
  | l :: rest => l ++ sep ++ join sep rest
  end.

(** White space and line terminators, as [trim] and [\s] see them. *)
Definition isWhiteSpace (c : char) : bool :=
  ((9 <=? c) && (c <=? 13) || (c =? 32) || (c =? 160) || (c =? 5760)
   || (8192 <=? c) && (c <=? 8202) || (c =? 8232) || (c =? 8233)
   || (c =? 8239) || (c =? 8287) || (c =? 12288) || (c =? 65279))%N.

Fixpoint trimStart (s : jsstring) : jsstring :=
  match s with
  | [] => []
  | x :: s' => if isWhiteSpace x then trimStart s' else s
  end.

(** [s.trim()] *)
Definition trim (s : jsstring) : jsstring :=
  rev (trimStart (rev (trimStart s))).

(** Truthiness of a string: the empty string is falsy. *)
Definition truthy (s : jsstring) : bool :=
  match s with [] => false | _ :: _ => true end.

Definition newline : char := 10%N.

End JS.

Import JS.

(* ===================================================================== *)
(** ** Regular expressions *)
(* ===================================================================== *)

(** The fragment of JavaScript regular expressions that the patterns of
    [parseError] use: literals, character classes, ordered alternation,
    greedy and lazy repetition of a class, an optional character and the
    end-of-input assertion.  Matching is the backtracking search of the
    language: [exec_at] is a match attempt at one position, [search] tries
    the positions from left to right. *)
Module Regex.

Inductive regex : Type :=
| Lit (s : jsstring)
| Class (p : char -> bool)
| Seq (r1 r2 : regex)
| Alt (r1 r2 : regex)
| Plus (p : char -> bool)          (* [p+]  greedy *)
| Star (p : char -> bool)          (* [p*]  greedy *)
| PlusLazy (p : char -> bool)      (* [p+?] *)
| Opt (r : regex)                  (* [r?]  greedy *)
| EndOfInput.                      (* [$] without the [m] flag *)

(** Length of the longest prefix of [s] whose characters satisfy [p]. *)
Fixpoint run (p : char -> bool) (s : jsstring) : nat :=
  match s with
  | x :: s' => if p x then S (run p s') else 0
  | [] => 0
  end.

(** Greedy choice: [k] repetitions first, then fewer, down to [lo]. *)
Fixpoint longest_first (A : Type) (lo k : nat) (f : nat -> option A)
  : option A :=
  if k <? lo then None
  else match f k with
       | Some a => Some a
       | None => match k with
                 | O => None
                 | S k' => longest_first lo k' f
                 end
       end.

(** Lazy choice: [lo] repetitions first, then more, [n] further tries. *)
Fixpoint shortest_first (A : Type) (lo n : nat) (f : nat -> option A)
  : option A :=
  match f lo with
  | Some a => Some a
  | None => match n with
            | O => None
            | S n' => shortest_first (S lo) n' f
            end
  end.

(** [m r s k]: match [r] at the head of [s] and hand the rest to the
    continuation [k]; the result is what is left after the whole match. *)
Fixpoint m (r : regex) (s : jsstring)
           (k : jsstring -> option jsstring) : option jsstring :=
  match r with
  | Lit l => if startsWith s l then k (skipn (length l) s) else None
  | Class p => match s with
               | x :: s' => if p x then k s' else None
               | [] => None
               end
  | Seq r1 r2 => m r1 s (fun s' => m r2 s' k)
  | Alt r1 r2 => match m r1 s k with
                 | Some rest => Some rest
                 | None => m r2 s k
                 end
  | Plus p => longest_first 1 (run p s) (fun n => k (skipn n s))
  | Star p => longest_first 0 (run p s) (fun n => k (skipn n s))
  | PlusLazy p =>
      match run p s with
      | O => None
      | S n => shortest_first 1 n (fun i => k (skipn i s))
      end
  | Opt r' => match m r' s k with
              | Some rest => Some rest
              | None => k s
              end
  | EndOfInput => match s with [] => k [] | _ :: _ => None end
  end.

(** The text matched at the head of [s], if any. *)
Definition exec_at (r : regex) (s : jsstring) : option jsstring :=
  match m r s (fun rest => Some rest) with
  | Some rest => Some (firstn (length s - length rest) s)
  | None => None
  end.

(** [s.match(r)[0]]: the leftmost match. *)
Fixpoint search (r : regex) (s : jsstring) : option jsstring :=
  match exec_at r s with
  | Some t => Some t
  | None => match s with
            | [] => None
            | _ :: s' => search r s'
            end
  end.

(** [r.test(s)] *)
Definition test (r : regex) (s : jsstring) : bool :=
  match search r s with Some _ => true | None => false end.

(** Character classes of the patterns. *)
Definition isWord (c : char) : bool :=                 (* [\w] *)
  ((48 <=? c) && (c <=? 57) || (65 <=? c) && (c <=? 90)
   || (97 <=? c) && (c <=? 122) || (c =? 95))%N.
Definition isQuote (c : char) : bool :=                (* either quote *)
  ((c =? 34) || (c =? 39))%N.
Definition notQuote (c : char) : bool := negb (isQuote c).   (* any but a quote *)
Definition isPathChar (c : char) : bool :=             (* [\w\-\/] *)
  (isWord c || (c =? 45) || (c =? 47))%N.
Definition isDot (c : char) : bool :=                  (* [.] *)
  negb ((c =? 10) || (c =? 13) || (c =? 8232) || (c =? 8233))%N.
Definition isNewline (c : char) : bool := (c =? 10)%N.

End Regex.

(* ===================================================================== *)
(** ** The [useWebContainer] hook *)
(* ===================================================================== *)

Module Hook.

(** Handles that the engine gives out; only their identity matters. *)
Definition Instance := nat.
Definition Process := nat.
Definition PromiseId := nat.

(** A thrown value: an [Error] object with its name and message, or
    anything else, of which only the string conversion is used. *)
Inductive jserror : Type :=
| ErrorObj (name message : jsstring)
| Thrown (text : jsstring).

(** [err instanceof Error ? err.message : dflt] *)
Definition message_or (dflt : jsstring) (err : jserror) : jsstring :=
  match err with
  | ErrorObj _ msg => msg
  | Thrown _ => dflt
  end.

(** The string conversion of a thrown value inside a template literal. *)
Definition err_text (err : jserror) : jsstring :=
  match err with
  | ErrorObj name msg =>
      if truthy name
      then (if truthy msg then name ++ lit ": " ++ msg else name)
      else msg
  | Thrown t => t
  end.

(** Calls that reach the execution engine, in the order they are made. *)
Inductive call : Type :=
| CBoot                                                   (* WebContainer.boot() *)
| COnServerReady (i : Instance)                           (* instance.on('server-ready', ..) *)
| CSpawn (i : Instance) (cmd : jsstring) (args : list jsstring)
| CKill (p : Process)                                     (* process.kill() *)
| CWriteFile (i : Instance) (path content : jsstring).    (* instance.fs.writeFile *)

Inductive outcome : Type :=
| Pending
| Fulfilled (i : Instance)
| Rejected (err : jserror).

(** The module-level variables, shared by the whole page. *)
Record Globals : Type := mkGlobals {
  webcontainerInstance : option Instance;
  bootPromise : option PromiseId;
  preWarmPromise : option PromiseId;
  isPreWarmedFlag : bool
}.

(** The React state of the hook and its [processRef].  React tells two
    values of [terminalOutput] apart by the identity of the array, which
    the last field stands for: the number of arrays stored so far. *)
Record State : Type := mkState {
  isBooting : bool;
  isInstalling : bool;
  isRunning : bool;
  previewUrl : option jsstring;
  error : option jsstring;
  terminalOutput : list jsstring;
  isPreWarmed : bool;
  isPreWarming : bool;
  processRef : option Process;
  outputVersion : nat
}.

(** Everything the hook reads or writes: the globals, the state, the
    promises made by [boot] (a promise is its index in [promises]) and
    the engine calls issued so far. *)
Record World : Type := mkWorld {
  globals : Globals;
  state : State;
  promises : list outcome;
  calls : list call
}.

Definition initial_globals : Globals := mkGlobals None None None false.
Definition initial_state : State :=
  mkState false false false None None [] false false None 0.
Definition initial : World := mkWorld initial_globals initial_state [] [].

(** *** Field updates *)

Definition set_state (f : State -> State) (w : World) : World :=
  mkWorld (globals w) (f (state w)) (promises w) (calls w).
Definition set_globals (f : Globals -> Globals) (w : World) : World :=
  mkWorld (f (globals w)) (state w) (promises w) (calls w).
Definition issue (c : call) (w : World) : World :=
  mkWorld (globals w) (state w) (promises w) (calls w ++ [c]).

Definition setIsBooting (b : bool) : World -> World :=
  set_state (fun s => mkState b (isInstalling s) (isRunning s) (previewUrl
    s) (error s) (terminalOutput s) (isPreWarmed s) (isPreWarming s)
    (processRef s) (outputVersion s)).
Definition setIsInstalling (b : bool) : World -> World :=
  set_state (fun s => mkState (isBooting s) b (isRunning s) (previewUrl s)
    (error s) (terminalOutput s) (isPreWarmed s) (isPreWarming s)
    (processRef s) (outputVersion s)).
Definition setIsRunning (b : bool) : World -> World :=
  set_state (fun s => mkState (isBooting s) (isInstalling s) b (previewUrl
    s) (error s) (terminalOutput s) (isPreWarmed s) (isPreWarming s)
    (processRef s) (outputVersion s)).
Definition setPreviewUrl (u : option jsstring) : World -> World :=
  set_state (fun s => mkState (isBooting s) (isInstalling s) (isRunning s) u
    (error s) (terminalOutput s) (isPreWarmed s) (isPreWarming s)
    (processRef s) (outputVersion s)).
Definition setError (e : option jsstring) : World -> World :=
  set_state (fun s => mkState (isBooting s) (isInstalling s) (isRunning s)
    (previewUrl s) e (terminalOutput s) (isPreWarmed s) (isPreWarming s)
    (processRef s) (outputVersion s)).
(** Every call stores a new array: [outputVersion] counts them. *)
Definition setTerminalOutput (f : list jsstring -> list jsstring) : World -> World :=
  set_state (fun s => mkState (isBooting s) (isInstalling s) (isRunning s)
    (previewUrl s) (error s) (f (terminalOutput s)) (isPreWarmed s)
    (isPreWarming s) (processRef s) (S (outputVersion s))).
Definition setProcessRef (p : option Process) : World -> World :=
  set_state (fun s => mkState (isBooting s) (isInstalling s) (isRunning s)
    (previewUrl s) (error s) (terminalOutput s) (isPreWarmed s)
    (isPreWarming s) p (outputVersion s)).

Definition setWebcontainerInstance (i : option Instance) : World -> World :=
  set_globals (fun g => mkGlobals i (bootPromise g) (preWarmPromise g)
    (isPreWarmedFlag g)).
Definition setBootPromise (p : option PromiseId) : World -> World :=
  set_globals (fun g => mkGlobals (webcontainerInstance g) p
    (preWarmPromise g) (isPreWarmedFlag g)).

(** *** The output buffer *)

(** The test that opens [appendOutput]. *)
Definition dropped (line : jsstring) : bool :=
  includes line (lit "[0K") || includes line (lit "[1G")
  || (length (trim line) <? 2).

(** [setTerminalOutput(prev => [...prev.slice(-100), line])] *)
Definition push_line (line : jsstring) (prev : list jsstring)
  : list jsstring :=
  slice_last 100 prev ++ [line].

Definition appendOutput (line : jsstring) (w : World) : World :=
  if dropped line then w else setTerminalOutput (push_line line) w.

(** The sink of a process's output stream:
    [data.split('\n').filter(Boolean).forEach(line => appendOutput(line))] *)
Definition pipe_chunk (data : jsstring) (w : World) : World :=
  fold_left (fun w' line => appendOutput line w')
            (filter truthy (split newline data)) w.

Definition pipe_output (chunks : list jsstring) (w : World) : World :=
  fold_left (fun w' data => pipe_chunk data w') chunks w.

(** The pictographs that open the messages of the hook, as code units. *)
Definition zap : jsstring := [9889%N].                  (* U+26A1 *)
Definition check_mark : jsstring := [9989%N].           (* U+2705 *)
Definition rocket : jsstring := [55357%N; 56960%N].     (* U+1F680 *)
Definition cross_mark : jsstring := [10060%N].          (* U+274C *)
Definition pencil : jsstring := [9999%N; 65039%N].      (* U+270F U+FE0F *)

(** *** boot *)

(** What a call of [boot] hands back: a promise already fulfilled with
    the existing instance, or the shared promise of the boot in flight. *)
Inductive BootRet : Type :=
| Now (i : Instance)
| Later (p : PromiseId).

Fixpoint settle (p : PromiseId) (o : outcome) (ps : list outcome)
  : list outcome :=
  match ps, p with
  | [], _ => []
  | _ :: ps', O => o :: ps'
  | x :: ps', S p' => x :: settle p' o ps'
  end.

Definition set_promises (f : list outcome -> list outcome) (w : World)
  : World :=
  mkWorld (globals w) (state w) (f (promises w)) (calls w).

Definition lookup (p : PromiseId) (w : World) : outcome :=
  nth p (promises w) Pending.

(** The part of [boot] that runs before it returns: the two early
    returns, else the body of the inner async function up to its
    [await WebContainer.boot()], and the assignment to [bootPromise]. *)
Definition boot (w : World) : BootRet * World :=
  match webcontainerInstance (globals w) with
  | Some i => (Now i, w)
  | None =>
      match bootPromise (globals w) with
      | Some p => (Later p, w)
      | None =>
          let p := length (promises w) in
          let w := setIsBooting true w in
          let w := setError None w in
          let w := appendOutput (zap ++ lit " Booting WebContainer...") w in
          let w := issue CBoot w in
          let w := set_promises (fun ps => ps ++ [Pending]) w in
          let w := setBootPromise (Some p) w in
          (Later p, w)
      end
  end.

(** The rest of the inner async function, run when the engine settles
    the boot in flight: [inr instance] when it succeeds, [inl err] when
    it throws.  Without a boot in flight there is nothing to resume. *)
Definition boot_settled (r : jserror + Instance) (w : World) : World :=
  match bootPromise (globals w) with
  | None => w
  | Some p =>
      match lookup p w with
      | Pending =>
          match r with
          | inr instance =>
              let w := setWebcontainerInstance (Some instance) w in
              let w := issue (COnServerReady instance) w in
              let w := appendOutput (check_mark ++ lit " WebContainer booted") w in
              let w := setIsBooting false w in
              set_promises (settle p (Fulfilled instance)) w
          | inl err =>
              let message := message_or (lit "Failed to boot") err in
              let w := setError (Some message) w in
              let w := appendOutput (cross_mark ++ lit " Error: " ++ message) w in
              let w := setIsBooting false w in
              let w := setBootPromise None w in
              set_promises (settle p (Rejected err)) w
          end
      | _ => w
      end
  end.

(** The listener registered on the instance for ['server-ready']. *)
Definition server_ready (url : jsstring) (w : World) : World :=
  let w := appendOutput (rocket ++ lit " Server ready at " ++ url) w in
  let w := setPreviewUrl (Some url) w in
  let w := setIsRunning true w in
  setIsInstalling false w.

(** *** Sequential code with exceptions

    The bodies of [startDevServer] and [updateFile] thread the world
    through their steps and stop at the first exception. *)
Definition M (A : Type) : Type := World -> (jserror + A) * World.

Definition ret (A : Type) (a : A) : M A := fun w => (inr a, w).
Definition bind (A B : Type) (c : M A) (k : A -> M B) : M B :=
  fun w => match c w with
           | (inr a, w') => k a w'
           | (inl e, w') => (inl e, w')
           end.
Definition throw (A : Type) (e : jserror) : M A := fun w => (inl e, w).
Definition act (f : World -> World) : M unit := fun w => (inr tt, f w).
Definition get : M World := fun w => (inr w, w).
(** [try { c } catch (err) { h err }] for a block whose value is unused. *)
Definition try_catch (c : M unit) (h : jserror -> World -> World)
  : World -> World :=
  fun w => match c w with
           | (inr _, w') => w'
           | (inl e, w') => h e w'
           end.

Notation "x <- c ;; k" := (bind c (fun x => k))
  (at level 61, c at next level, right associativity).
Notation "c ;;; k" := (bind c (fun _ => k))
  (at level 61, right associativity).

(** [await boot()], where [answer] is how the engine settles the boot
    if this call has to wait for one. *)
Definition await_boot (answer : jserror + Instance) : M Instance :=
  fun w =>
    match boot w with
    | (Now i, w1) => (inr i, w1)
    | (Later p, w1) =>
        match lookup p w1 with
        | Fulfilled i => (inr i, w1)
        | Rejected e => (inl e, w1)
        | Pending => (answer, boot_settled answer w1)
        end
    end.

(** [await instance.spawn(cmd, args)] with the engine's answer. *)
Definition await_spawn (i : Instance) (cmd : jsstring)
    (args : list jsstring) (answer : jserror + Process) : M Process :=
  fun w => (answer, issue (CSpawn i cmd args) w).

Definition npm : jsstring := lit "npm".
Definition install_args : list jsstring :=
  [lit "install"; lit "--prefer-offline"; lit "--no-audit";
   lit "--no-fund"; lit "--legacy-peer-deps"].
Definition dev_args : list jsstring := [lit "run"; lit "dev"].

(** *** startDevServer *)

(** What the engine does during one run of [startDevServer]. *)
Record DevServerRun : Type := mkRun {
  boot_answer : jserror + Instance;
  install_spawn : jserror + Process;
  install_output : list jsstring;     (* chunks written before the exit *)
  install_exit : Z;                   (* the value of [installProcess.exit] *)
  dev_spawn : jserror + Process
}.

Definition kill_current : M unit :=
  fun w => match processRef (state w) with
           | Some p => (inr tt, issue (CKill p) w)
           | None => (inr tt, w)
           end.

Definition startDevServer (e : DevServerRun) : World -> World :=
  try_catch
    (instance <- await_boot (boot_answer e) ;;
     kill_current ;;;
     act (setPreviewUrl None) ;;;
     act (setIsInstalling true) ;;;
     act (appendOutput (zap ++ lit " Installing project dependencies...")) ;;;
     _installProcess <- await_spawn instance npm install_args (install_spawn e) ;;
     act (pipe_output (install_output e)) ;;;
     (* [await installProcess.exit;] the exit code is not looked at *)
     _exitCode <- ret (install_exit e) ;;
     act (appendOutput (check_mark ++ lit " Dependencies ready")) ;;;
     act (appendOutput (rocket ++ lit " Starting dev server...")) ;;;
     devProcess <- await_spawn instance npm dev_args (dev_spawn e) ;;
     act (setProcessRef (Some devProcess)))
    (fun err w =>
       let message := message_or (lit "Failed to start") err in
       let w := setError (Some message) w in
       setIsInstalling false w).

(** *** updateFile *)

Record WriteRun : Type := mkWrite {
  write_boot_answer : jserror + Instance;
  write_answer : option jserror        (* [None]: the write succeeds *)
}.

Definition await_writeFile (i : Instance) (path content : jsstring)
    (answer : option jserror) : M unit :=
  fun w => (match answer with Some e => inl e | None => inr tt end,
            issue (CWriteFile i path content) w).

Definition updateFile (path content : jsstring) (e : WriteRun)
  : World -> World :=
  try_catch
    (instance <- await_boot (write_boot_answer e) ;;
     await_writeFile instance path content (write_answer e) ;;;
     act (appendOutput (pencil ++ lit " Updated: " ++ path)))
    (fun err w =>
       appendOutput (cross_mark ++ lit " Failed to update " ++ path
                     ++ lit ": " ++ err_text err) w).

(** *** reset *)

Definition reset (w : World) : World :=
  let w := match processRef (state w) with
           | Some p => setProcessRef None (issue (CKill p) w)
           | None => w
           end in
  let w := setPreviewUrl None w in
  let w := setIsRunning false w in
  let w := setIsInstalling false w in
  let w := setError None w in
  setTerminalOutput (fun _ => []) w.

(** *** The hook as a machine

    The operations that act on the world of the hook: the calls of its
    functions and the events of the engine that it listens to. *)
Inductive op : Type :=
| OpAppend (line : jsstring)                 (* appendOutput(line) *)
| OpBoot                                     (* boot(), up to its return *)
| OpBootSettled (r : jserror + Instance)     (* the engine settles the boot *)
| OpServerReady (url : jsstring)             (* the 'server-ready' listener *)
| OpOutput (data : jsstring)                 (* a chunk on an output stream *)
| OpStartDevServer (e : DevServerRun)
| OpUpdateFile (path content : jsstring) (e : WriteRun)
| OpReset.

Definition exec (o : op) (w : World) : World :=
  match o with
  | OpAppend line => appendOutput line w
  | OpBoot => snd (boot w)
  | OpBootSettled r => boot_settled r w
  | OpServerReady url =>
      match webcontainerInstance (globals w) with
      | Some _ => server_ready url w
      | None => w                            (* no listener registered yet *)
      end
  | OpOutput data => pipe_chunk data w
  | OpStartDevServer e => startDevServer e w
  | OpUpdateFile path content e => updateFile path content e w
  | OpReset => reset w
  end.

Definition exec_all (ops : list op) (w : World) : World :=
  fold_left (fun w' o => exec o w') ops w.



Definition is_boot_call (c : call) : bool :=
  match c with CBoot => true | _ => false end.

(** The number of engine boots issued. *)
Definition boots_issued (w : World) : nat :=
  length (filter is_boot_call (calls w)).



End Hook.

(* ===================================================================== *)
(** ** The file tree *)
(* ===================================================================== *)

Module Files.

Inductive NodeType : Type := file | directory.

(** [FileNode] of [fileUtils.ts]; [content] and [children] are optional. *)
#[local] Unset Elimination Schemes.
Inductive FileNode : Type :=
| mkNode (name path : jsstring) (type : NodeType)
         (content : option jsstring) (children : option (list FileNode)).

#[local] Set Elimination Schemes.

Definition name (n : FileNode) : jsstring :=
  match n with mkNode x _ _ _ _ => x end.
Definition path (n : FileNode) : jsstring :=
  match n with mkNode _ x _ _ _ => x end.
Definition type (n : FileNode) : NodeType :=
  match n with mkNode _ _ x _ _ => x end.
Definition content (n : FileNode) : option jsstring :=
  match n with mkNode _ _ _ x _ => x end.
Definition children (n : FileNode) : option (list FileNode) :=
  match n with mkNode _ _ _ _ x => x end.

Definition is_file (t : NodeType) : bool :=
  match t with file => true | directory => false end.

(** [flattenFiles] of [zipUtils.ts]: the nodes of type ['file'] in the
    order of a pre-order walk. *)
Fixpoint traverse_node (n : FileNode) : list FileNode :=
  match n with
  | mkNode _ _ t _ ch =>
      (if is_file t then [n] else []) ++
      match ch with
      | Some nodes =>
          (fix traverse (l : list FileNode) : list FileNode :=
             match l with
             | [] => []
             | x :: l' => traverse_node x ++ traverse l'
             end) nodes
      | None => []
      end
  end.

Definition flattenFiles (files : list FileNode) : list FileNode :=
  flat_map traverse_node files.

(** [updateFileInTree], the local function of [fixCodeError]: the node
    at [target] gets the new content, other nodes with children are
    rebuilt around their updated children. *)
Fixpoint update_node (target fixedCode : jsstring) (n : FileNode)
  : FileNode :=
  match n with
  | mkNode nm p t c ch =>
      if JS.eqb p target then mkNode nm p t (Some fixedCode) ch
      else match ch with
           | Some nodes =>
               mkNode nm p t c
                 (Some ((fix update (l : list FileNode) : list FileNode :=
                           match l with
                           | [] => []
                           | x :: l' =>
                               update_node target fixedCode x :: update l'
                           end) nodes))
           | None => n
           end
  end.

Definition updateFileInTree (target fixedCode : jsstring)
    (nodes : list FileNode) : list FileNode :=
  map (update_node target fixedCode) nodes.

(** [!node?.content] is false exactly for a node with a non-empty
    content. *)
Definition has_content (n : option FileNode) : bool :=
  match n with
  | Some f => match content f with
              | Some c => truthy c
              | None => false
              end
  | None => false
  end.

End Files.

(* ===================================================================== *)
(** ** The auto-fix loop of the [App] component *)
(* ===================================================================== *)

Module App.

Import Files.

Definition MAX_FIX_ATTEMPTS : nat := 15.

(** *** parseError *)

Import Regex.

(** [Failed to resolve import <q>..<q> from <q>..<q>] *)
Definition resolve_import : regex :=
  Seq (Lit (lit "Failed to resolve import "))
 (Seq (Class isQuote) (Seq (Plus notQuote) (Seq (Class isQuote)
 (Seq (Lit (lit " from "))
 (Seq (Class isQuote) (Seq (Plus notQuote) (Class isQuote))))))).

(** [Cannot find module <q>..<q>] *)
Definition module_not_found : regex :=
  Seq (Lit (lit "Cannot find module "))
 (Seq (Class isQuote) (Seq (Plus notQuote) (Class isQuote))).

(** [(\w+) is not defined] *)
Definition not_defined : regex :=
  Seq (Plus isWord) (Lit (lit " is not defined")).

(** [(SyntaxError|TypeError|ReferenceError):\s*(.+?)(?:\n|$)] *)
Definition error_class : regex :=
  Seq (Alt (Lit (lit "SyntaxError"))
      (Alt (Lit (lit "TypeError")) (Lit (lit "ReferenceError"))))
 (Seq (Lit (lit ":")) (Seq (Star isWhiteSpace) (Seq (PlusLazy isDot)
      (Alt (Class isNewline) EndOfInput)))).

Definition patterns : list regex :=
  [resolve_import; module_not_found; not_defined; error_class].

(** [(?:src\/[\w\-\/]+\.tsx?)] *)
Definition source_file : regex :=
  Seq (Lit (lit "src/")) (Seq (Plus isPathChar)
 (Seq (Lit (lit ".ts")) (Opt (Lit (lit "x"))))).

Record ErrorInfo : Type := mkErrorInfo {
  ei_file : jsstring;
  ei_error : jsstring
}.

(** The text that [parseError] looks at. *)
Definition recent_text (output : list jsstring) : jsstring :=
  join [newline] (slice_last 60 output).

(** The loop over the patterns: the first pattern that matches while a
    file path is found gives the result. *)
Fixpoint scan (ps : list regex) (text : jsstring) : option ErrorInfo :=
  match ps with
  | [] => None
  | pattern :: ps' =>
      if test pattern text then
        match search source_file text with
        | Some fileMatch => Some (mkErrorInfo fileMatch (slice_last 500 text))
        | None => scan ps' text
        end
      else scan ps' text
  end.

Definition parseError (output : list jsstring) : option ErrorInfo :=
  scan patterns (recent_text output).

(** *** Target-file resolution *)

Definition slash : char := 47%N.

(** The predicate of the first [find]. *)
Definition path_match (errorFile : jsstring) (f : FileNode) : bool :=
  JS.eqb (path f) errorFile
  || endsWith (path f) errorFile
  || includes (path f) (replace errorFile (lit "src/") []).

Definition name_match (fileName : jsstring) (f : FileNode) : bool :=
  JS.eqb (name f) fileName.

(** The two lookups of [fixCodeError]: [targetFile] after the second
    [if]. *)
Definition resolve (allFiles : list FileNode) (errorFile : jsstring)
  : option FileNode :=
  let targetFile := find (path_match errorFile) allFiles in
  if has_content targetFile then targetFile
  else match pop (split slash errorFile) with
       | Some fileName =>
           if truthy fileName then find (name_match fileName) allFiles
           else targetFile
       | None => targetFile
       end.

(** *** State *)

(** The entries of the fix log.  In the source they are strings made
    from a pictograph, a fixed label and the value shown here. *)
Inductive LogEntry : Type :=
| LogFileNotFound (errorFile : jsstring)     (* File not found: .. *)
| LogFixing (path : jsstring)                (* Fixing: ..         *)
| LogFixed (path : jsstring)                 (* Fixed: ..          *)
| LogError (err : Hook.jserror)              (* Error: ..          *)
| LogRuntimeError (filePath : jsstring)      (* Runtime Error in ..*)
| LogNoFilePath.         (* Runtime error detected but file path not found *)

(** The body of the POST to [/api/fix-error]. *)
Record Request : Type := mkRequest {
  rq_error : jsstring;
  rq_filePath : jsstring;
  rq_fileContent : option jsstring
}.

(** The component: its React state, its refs, the hook it uses, and what
    is pending on its behalf (timeouts and the fetch awaited) together
    with the requests already sent to the fixer. *)
Record App : Type := mkApp {
  files : list FileNode;
  filesRef : list FileNode;
  fixCount : nat;
  fixLog : list LogEntry;
  isFixing : bool;
  currentAction : option jsstring;
  fixingRef : bool;
  fixAttempts : nat;
  lastErrorRef : jsstring;
  world : Hook.World;
  terminalTimer : option ErrorInfo;    (* timeout of the terminal effect *)
  runtimeTimers : list ErrorInfo;      (* timeouts of the message handler *)
  inflight : option FileNode;          (* target of the fetch awaited *)
  fetches : list Request               (* requests sent to the fixer *)
}.

Definition initial : App :=
  mkApp [] [] 0 [] false None false 0 [] Hook.initial None [] None [].

Definition upd_files (f : list FileNode -> list FileNode) (a : App) : App :=
  mkApp (f (files a)) (filesRef a) (fixCount a) (fixLog a) (isFixing a)
    (currentAction a) (fixingRef a) (fixAttempts a) (lastErrorRef a)
    (world a) (terminalTimer a) (runtimeTimers a) (inflight a) (fetches
    a).
Definition upd_filesRef (f : list FileNode -> list FileNode) (a : App) : App :=
  mkApp (files a) (f (filesRef a)) (fixCount a) (fixLog a) (isFixing a)
    (currentAction a) (fixingRef a) (fixAttempts a) (lastErrorRef a)
    (world a) (terminalTimer a) (runtimeTimers a) (inflight a) (fetches
    a).
Definition upd_fixCount (f : nat -> nat) (a : App) : App :=
  mkApp (files a) (filesRef a) (f (fixCount a)) (fixLog a) (isFixing a)
    (currentAction a) (fixingRef a) (fixAttempts a) (lastErrorRef a)
    (world a) (terminalTimer a) (runtimeTimers a) (inflight a) (fetches
    a).
Definition upd_fixLog (f : list LogEntry -> list LogEntry) (a : App) : App :=
  mkApp (files a) (filesRef a) (fixCount a) (f (fixLog a)) (isFixing a)
    (currentAction a) (fixingRef a) (fixAttempts a) (lastErrorRef a)
    (world a) (terminalTimer a) (runtimeTimers a) (inflight a) (fetches
    a).
Definition upd_isFixing (f : bool -> bool) (a : App) : App :=
  mkApp (files a) (filesRef a) (fixCount a) (fixLog a) (f (isFixing a))
    (currentAction a) (fixingRef a) (fixAttempts a) (lastErrorRef a)
    (world a) (terminalTimer a) (runtimeTimers a) (inflight a) (fetches
    a).
Definition upd_currentAction (f : option jsstring -> option jsstring) (a : App) : App :=
  mkApp (files a) (filesRef a) (fixCount a) (fixLog a) (isFixing a) (f
    (currentAction a)) (fixingRef a) (fixAttempts a) (lastErrorRef a)
    (world a) (terminalTimer a) (runtimeTimers a) (inflight a) (fetches
    a).
Definition upd_fixingRef (f : bool -> bool) (a : App) : App :=
  mkApp (files a) (filesRef a) (fixCount a) (fixLog a) (isFixing a)
    (currentAction a) (f (fixingRef a)) (fixAttempts a) (lastErrorRef a)
    (world a) (terminalTimer a) (runtimeTimers a) (inflight a) (fetches
    a).
Definition upd_fixAttempts (f : nat -> nat) (a : App) : App :=
  mkApp (files a) (filesRef a) (fixCount a) (fixLog a) (isFixing a)
    (currentAction a) (fixingRef a) (f (fixAttempts a)) (lastErrorRef a)
    (world a) (terminalTimer a) (runtimeTimers a) (inflight a) (fetches
    a).
Definition upd_lastErrorRef (f : jsstring -> jsstring) (a : App) : App :=
  mkApp (files a) (filesRef a) (fixCount a) (fixLog a) (isFixing a)
    (currentAction a) (fixingRef a) (fixAttempts a) (f (lastErrorRef a))
    (world a) (terminalTimer a) (runtimeTimers a) (inflight a) (fetches
    a).
Definition upd_world (f : Hook.World -> Hook.World) (a : App) : App :=
  mkApp (files a) (filesRef a) (fixCount a) (fixLog a) (isFixing a)
    (currentAction a) (fixingRef a) (fixAttempts a) (lastErrorRef a) (f
    (world a)) (terminalTimer a) (runtimeTimers a) (inflight a) (fetches
    a).
Definition upd_terminalTimer (f : option ErrorInfo -> option ErrorInfo) (a : App) : App :=
  mkApp (files a) (filesRef a) (fixCount a) (fixLog a) (isFixing a)
    (currentAction a) (fixingRef a) (fixAttempts a) (lastErrorRef a)
    (world a) (f (terminalTimer a)) (runtimeTimers a) (inflight a)
    (fetches a).
Definition upd_runtimeTimers (f : list ErrorInfo -> list ErrorInfo) (a : App) : App :=
  mkApp (files a) (filesRef a) (fixCount a) (fixLog a) (isFixing a)
    (currentAction a) (fixingRef a) (fixAttempts a) (lastErrorRef a)
    (world a) (terminalTimer a) (f (runtimeTimers a)) (inflight a)
    (fetches a).
Definition upd_inflight (f : option FileNode -> option FileNode) (a : App) : App :=
  mkApp (files a) (filesRef a) (fixCount a) (fixLog a) (isFixing a)
    (currentAction a) (fixingRef a) (fixAttempts a) (lastErrorRef a)
    (world a) (terminalTimer a) (runtimeTimers a) (f (inflight a))
    (fetches a).
Definition upd_fetches (f : list Request -> list Request) (a : App) : App :=
  mkApp (files a) (filesRef a) (fixCount a) (fixLog a) (isFixing a)
    (currentAction a) (fixingRef a) (fixAttempts a) (lastErrorRef a)
    (world a) (terminalTimer a) (runtimeTimers a) (inflight a) (f
    (fetches a)).

Definition set_world (f : Hook.World -> Hook.World) : App -> App :=
  upd_world f.
Definition setFixLog (e : LogEntry) : App -> App :=
  upd_fixLog (fun prev => prev ++ [e]).
(** [setFiles], with the effect that copies [files] into [filesRef]. *)
Definition setFiles (fs : list FileNode) (a : App) : App :=
  upd_filesRef (fun _ => fs) (upd_files (fun _ => fs) a).

(** *** fixCodeError *)

(** How far a call of [fixCodeError] gets before it gives control back:
    it returns [false] at a guard, it runs to its end, or it is suspended
    at the [fetch] with its [targetFile]. *)
Inductive FixStart : Type :=
| Dropped
| Finished (result : bool)
| Awaiting (targetFile : FileNode).

(** The [finally] block. *)
Definition finally (a : App) : App :=
  let a := upd_fixingRef (fun _ => false) a in
  let a := upd_isFixing (fun _ => false) a in
  upd_currentAction (fun _ => None) a.

Definition errorKey (errorFile errorText : jsstring) : jsstring :=
  errorFile ++ lit ":" ++ slice_to 50 errorText.

Definition fixCodeError (errorFile errorText : jsstring) (a : App)
  : FixStart * App :=
  if fixingRef a then (Dropped, a)
  else if JS.eqb (errorKey errorFile errorText) (lastErrorRef a)
  then (Dropped, a)
  else
    let a := upd_lastErrorRef (fun _ => errorKey errorFile errorText) a in
    let a := upd_fixingRef (fun _ => true) a in
    let a := upd_isFixing (fun _ => true) a in
    let a := upd_currentAction (fun _ => Some (lit "Fixing: " ++ errorFile)) a in
    let a := upd_fixAttempts S a in
    let allFiles := flattenFiles (filesRef a) in
    let targetFile := resolve allFiles errorFile in
    match targetFile with
    | Some target =>
        if has_content targetFile then
          let a := setFixLog (LogFixing (path target)) a in
          let a := upd_fetches (fun sent => sent ++
                     [mkRequest errorText (path target) (content target)]) a in
          (Awaiting target, upd_inflight (fun _ => Some target) a)
        else (Finished false, finally (setFixLog (LogFileNotFound errorFile) a))
    | None => (Finished false, finally (setFixLog (LogFileNotFound errorFile) a))
    end.

(** How the fetch ends: it throws (no connection, or a body that is not
    JSON), the status is not ok, or the body is read and its [fixedCode]
    field is a string or is missing. *)
Inductive Response : Type :=
| FetchFails (err : Hook.jserror)
| NotOk
| Ok (fixedCode : option jsstring).

Definition content_differs (fixedCode : jsstring) (target : FileNode) : bool :=
  match content target with
  | Some c => negb (JS.eqb fixedCode c)
  | None => true
  end.

(** The rest of [fixCodeError], from the point where the fetch settles;
    [e] says how the engine answers the write of [updateFile]. *)
Definition fixCodeError_settled (target : FileNode) (r : Response)
    (e : Hook.WriteRun) (a : App) : bool * App :=
  let a := upd_inflight (fun _ => None) a in
  match r with
  | FetchFails err => (false, finally (setFixLog (LogError err) a))
  | NotOk =>
      let err := Hook.ErrorObj (lit "Error") (lit "Backend failed") in
      (false, finally (setFixLog (LogError err) a))
  | Ok None => (false, finally a)
  | Ok (Some fixedCode) =>
      if truthy fixedCode && content_differs fixedCode target then
        let a := set_world (Hook.updateFile (path target) fixedCode e) a in
        let a := setFiles (updateFileInTree (path target) fixedCode
                             (filesRef a)) a in
        let a := upd_fixCount S a in
        let a := setFixLog (LogFixed (path target)) a in
        (true, finally a)
      else (false, finally a)
  end.

(** *** The two triggers *)

Definition hook_state (a : App) : Hook.State := Hook.state (world a).

(** The guards shared by the terminal effect and the message handler. *)
Definition idle_and_running (a : App) : bool :=
  negb (negb (Hook.isRunning (hook_state a)) || fixingRef a || isFixing a).
Definition budget_left (a : App) : bool :=
  negb (MAX_FIX_ATTEMPTS <=? fixAttempts a).

(** The effect that watches the terminal: its clean-up clears the timeout
    of the previous run, then the body may set a new one. *)
Definition terminal_effect (a : App) : App :=
  let a := upd_terminalTimer (fun _ => None) a in
  if negb (idle_and_running a) then a
  else if negb (budget_left a) then a
  else match parseError (Hook.terminalOutput (hook_state a)) with
       | Some errorInfo =>
           if truthy (ei_file errorInfo)
           then upd_terminalTimer (fun _ => Some errorInfo) a
           else a
       | None => a
       end.

(** The [data] of a message event from the preview frame. *)
Record MessageData : Type := mkMessage {
  md_type : jsstring;
  md_message : jsstring;
  md_stack : jsstring;
  md_errorType : jsstring
}.

Definition errorContext (d : MessageData) : jsstring :=
  lit "Runtime Error (" ++ md_errorType d ++ lit ")" ++ [newline]
  ++ md_message d ++ [newline; newline] ++ lit "Stack trace:" ++ [newline]
  ++ md_stack d.

Section WithErrorReporter.

(** [parseStackTrace] of [utils/errorReporter], reduced to the [filePath]
    of its result. *)
Variable parseStackTrace : jsstring -> option jsstring.

Definition handleRuntimeError (d : MessageData) (a : App) : App :=
  if negb (JS.eqb (md_type d) (lit "RUNTIME_ERROR")) then a
  else if negb (idle_and_running a) then a
  else if negb (budget_left a) then a
  else match parseStackTrace (md_stack d) with
       | Some filePath =>
           if truthy filePath then
             let a := setFixLog (LogRuntimeError filePath) a in
             upd_runtimeTimers
               (fun ts => ts ++ [mkErrorInfo filePath (errorContext d)]) a
           else setFixLog LogNoFilePath a
       | None => setFixLog LogNoFilePath a
       end.

(** *** The component as a machine

    One event is one task of the event loop; React renders after it, and
    the terminal effect runs again when one of [terminalOutput],
    [isRunning] and [isFixing] has changed. *)
Inductive event : Type :=
| ProcessOutput (data : jsstring)         (* a chunk of the process's output *)
| ServerReady (url : jsstring)            (* the engine's 'server-ready' *)
| Message (d : MessageData)               (* a message event on the window *)
| TerminalTimeout                         (* the 2000 ms timeout fires *)
| RuntimeTimeout                          (* the oldest 1500 ms timeout fires *)
| FixerSettles (r : Response) (e : Hook.WriteRun).

Definition run_timer (t : ErrorInfo) (a : App) : App :=
  snd (fixCodeError (ei_file t) (ei_error t) a).

Definition handle (ev : event) (a : App) : App :=
  match ev with
  | ProcessOutput data => set_world (Hook.pipe_chunk data) a
  | ServerReady url => set_world (Hook.server_ready url) a
  | Message d => handleRuntimeError d a
  | TerminalTimeout =>
      match terminalTimer a with
      | Some t => run_timer t (upd_terminalTimer (fun _ => None) a)
      | None => a
      end
  | RuntimeTimeout =>
      match runtimeTimers a with
      | t :: ts => run_timer t (upd_runtimeTimers (fun _ => ts) a)
      | [] => a
      end
  | FixerSettles r e =>
      match inflight a with
      | Some target => snd (fixCodeError_settled target r e a)
      | None => a
      end
  end.

(** Whether a dependency of the terminal effect has changed. *)
Definition deps_changed (before after : App) : bool :=
  negb (Hook.outputVersion (hook_state before)
        =? Hook.outputVersion (hook_state after))
  || negb (Bool.eqb (Hook.isRunning (hook_state before))
                    (Hook.isRunning (hook_state after)))
  || negb (Bool.eqb (isFixing before) (isFixing after)).

Definition step (ev : event) (a : App) : App :=
  let a' := handle ev a in
  if deps_changed a a' then terminal_effect a' else a'.

Definition run (evs : list event) (a : App) : App :=
  fold_left (fun a' ev => step ev a') evs a.

End WithErrorReporter.

(** Modelled from the spec: [parseStackTrace], whose module
    [utils/errorReporter] is not among the sources.  From a stack trace
    it takes the first path fragment that matches the project-source-file
    pattern of [parseError], and nothing when there is none. *)
Definition parseStackTrace (stack : jsstring) : option jsstring :=
  search source_file stack.

End App.

(* ===================================================================== *)
(** ** Invariants *)
(* ===================================================================== *)

Module Invariants.

Import Hook.

(** A transformer of the world, or a monadic step, that keeps [P]. *)
Definition keeps (P : World -> Prop) (f : World -> World) : Prop :=
  forall w, P w -> P (f w).
Definition keepsM (P : World -> Prop) (A : Type) (c : M A) : Prop :=
  forall w, P w -> P (snd (c w)).

(** A line that the test of [appendOutput] lets through. *)
Definition passes (line : jsstring) : Prop :=
  includes line (lit "[0K") = false
  /\ includes line (lit "[1G") = false
  /\ 2 <= length (trim line).

(** Every line of the buffer passes the filter. *)
Definition clean (w : World) : Prop :=
  Forall passes (terminalOutput (state w)).

(** The lines of [offered] that the filter lets through. *)
Definition kept (offered : list jsstring) : list jsstring :=
  filter (fun line => negb (dropped line)) offered.



End Invariants.

(* ===================================================================== *)
(** ** Inputs used in the examples *)
(* ===================================================================== *)

Module Examples.

Import Hook.

(** One line more than the buffer is meant to hold. *)
Definition many_lines : list jsstring := repeat (lit "ok") 101.

(** A boot that fails, and the call that follows it. *)
Definition boot_error : jserror := ErrorObj (lit "Error") (lit "no memory").

(** A run of [startDevServer] in which the install exits with code 1. *)
Definition failed_install : DevServerRun :=
  mkRun (inr 0) (inr 1) [lit "npm ERR! code E404"] 1%Z (inr 2).

(** A world in which a dev server is running. *)
Definition running_world : World :=
  exec_all [OpBoot; OpBootSettled (inr 0);
            OpStartDevServer (mkRun (inr 0) (inr 1) [] 0%Z (inr 2));
            OpServerReady (lit "http://localhost:5173")] initial.

Import Files App.

(** The message of the specification's example. *)
Definition import_error : jsstring :=
  lit "Failed to resolve import './Foo' from 'src/App.tsx'".

(** The part of the message before the path, and the path. *)
Definition import_error_head : jsstring :=
  lit "Failed to resolve import './Foo' from '".
Definition import_error_path : jsstring := lit "src/App.tsx".

(** The same message after a line that names another source file, and
    after a line that names none. *)
Definition update_then_error : list jsstring :=
  [lit "[vite] hmr update /src/main.tsx"; import_error].
Definition ready_then_error : list jsstring :=
  [lit "ready in 300 ms"; import_error].

(** A project with two files named [App.tsx]. *)
Definition lib_app : FileNode :=
  mkNode (lit "App.tsx") (lit "lib/App.tsx") file
         (Some (lit "export const version = 1")) None.
Definition src_app : FileNode :=
  mkNode (lit "App.tsx") (lit "src/App.tsx") file
         (Some (lit "export default function App() {}")) None.
Definition two_apps : list FileNode :=
  [mkNode (lit "lib") (lit "lib") directory None (Some [lib_app]);
   mkNode (lit "src") (lit "src") directory None (Some [src_app])].

(** A session in which the project [src/App.tsx] is being served. *)
Definition project : list FileNode :=
  [mkNode (lit "src") (lit "src") directory None (Some [src_app])].
Definition session : App :=
  mkApp project project 0 [] false None false 0 [] running_world
        None [] None [].

(** Runtime errors reported by the preview: the [n]-th one comes from a
    file that is not part of the project, the last from [src/App.tsx]. *)
Definition stray_error (n : nat) : MessageData :=
  mkMessage (lit "RUNTIME_ERROR") (lit "x is undefined")
            (lit "at render (src/m" ++ [N.of_nat (97 + n)] ++ lit ".tsx:1:1)")
            (lit "TypeError").
Definition app_error : MessageData :=
  mkMessage (lit "RUNTIME_ERROR") (lit "y is undefined")
            (lit "at App (src/App.tsx:3:9)") (lit "TypeError").

(** Fourteen errors, each handled before the next arrives; then two
    errors in quick succession, and their two timeouts. *)
Definition one_by_one : list event :=
  flat_map (fun n => [Message (stray_error n); RuntimeTimeout]) (seq 0 14).
Definition burst : list event :=
  [Message (stray_error 14); Message app_error;
   RuntimeTimeout; RuntimeTimeout].

(** A fix under way for [src/App.tsx], and an engine that accepts writes. *)
Definition fixing : App := snd (fixCodeError (lit "src/App.tsx")
                                  (lit "ReferenceError: y is not defined")
                                  session).
Definition writable : WriteRun := mkWrite (inr 0) None.

End Examples.

(* ===================================================================== *)
(** ** What a pattern matches *)
(* ===================================================================== *)

Module Semantics.

Import Regex.

(** [Matches r text rest]: the pattern [r] matches [text] when [rest] is
    what follows it in the input.  The rest matters only for the
    end-of-input assertion. *)
Inductive Matches : regex -> jsstring -> jsstring -> Prop :=
| MLit l rest : Matches (Lit l) l rest
| MClass p x rest : p x = true -> Matches (Class p) [x] rest
| MSeq r1 r2 t1 t2 rest :
    Matches r1 t1 (t2 ++ rest) -> Matches r2 t2 rest ->
    Matches (Seq r1 r2) (t1 ++ t2) rest
| MAltL r1 r2 t rest : Matches r1 t rest -> Matches (Alt r1 r2) t rest
| MAltR r1 r2 t rest : Matches r2 t rest -> Matches (Alt r1 r2) t rest
| MPlus p t rest :
    t <> [] -> forallb p t = true -> Matches (Plus p) t rest
| MStar p t rest : forallb p t = true -> Matches (Star p) t rest
| MPlusLazy p t rest :
    t <> [] -> forallb p t = true -> Matches (PlusLazy p) t rest
| MOptSome r t rest : Matches r t rest -> Matches (Opt r) t rest
| MOptNone r rest : Matches (Opt r) [] rest
| MEnd : Matches EndOfInput [] [].

(** An occurrence of the pattern somewhere in [s]. *)
Definition Occurs (r : regex) (s : jsstring) : Prop :=
  exists before text after,
    s = before ++ text ++ after /\ Matches r text after.

(** The shape of a project source path: [src/], one or more characters
    among letters, digits, underscore, hyphen and slash, then [.ts] or
    [.tsx]. *)
Definition SourcePath (t : jsstring) : Prop :=
  exists stem ext,
    t = lit "src/" ++ stem ++ lit ".ts" ++ ext
    /\ stem <> []
    /\ forallb isPathChar stem = true
    /\ (ext = [] \/ ext = lit "x").

End Semantics.

(* ===================================================================== *)
(** ** Induction over file trees *)
(* ===================================================================== *)

Section FileNodeInduction.

Import Files.

Variable P : FileNode -> Prop.

Hypothesis P_leaf : forall nm p t c, P (mkNode nm p t c None).
Hypothesis P_inner :
  forall nm p t c nodes, Forall P nodes -> P (mkNode nm p t c (Some nodes)).

Fixpoint FileNode_induction (n : FileNode) : P n :=
  match n with
  | mkNode nm p t c None => P_leaf nm p t c
  | mkNode nm p t c (Some nodes) =>
      P_inner nm p t c
        ((fix all (l : list FileNode) : Forall P l :=
            match l with
            | [] => Forall_nil P
            | x :: l' => Forall_cons x (FileNode_induction x) (all l')
            end) nodes)
  end.

End FileNodeInduction.

(* ===================================================================== *)
(** ** Invariants of the fix loop *)
(* ===================================================================== *)

Module LoopInvariants.

Import Files App.

(** The busy flag, its copy in the React state and the fetch awaited go
    together. *)
Definition consistent (a : App) : Prop :=
  isFixing a = fixingRef a
  /\ (fixingRef a = true <-> inflight a <> None).

(** No timeout is pending while the budget is used up, and no timeout of
    the message handler is pending at all. *)
Definition terminal_only (a : App) : Prop :=
  runtimeTimers a = []
  /\ fixAttempts a <= MAX_FIX_ATTEMPTS
  /\ (terminalTimer a <> None -> fixAttempts a < MAX_FIX_ATTEMPTS).

Definition is_message (ev : event) : bool :=
  match ev with Message _ => true | _ => false end.
Definition is_settle (ev : event) : bool :=
  match ev with FixerSettles _ _ => true | _ => false end.



(** The requests sent since [before]. *)
Definition sent_since (before after : App) : list Request :=
  skipn (length (fetches before)) (fetches after).

End LoopInvariants.

(* ===================================================================== *)
(** ** Further inputs for the examples *)
(* ===================================================================== *)

Module Samples.

Import Hook Files App.

(** Sixty recent lines that end with the example message, after an older
    line that names another source file. *)
Definition scrolled_out : list jsstring := [lit "at src/old.ts:1:1"].
Definition sixty_lines : list jsstring :=
  repeat (lit "ok") 59 ++ [Examples.import_error].

(** A build error on the terminal, its timeout, and the answer of the
    fixer. *)
Definition build_error : jsstring :=
  lit "[vite] Internal server error: Failed to resolve import './Foo' from 'src/App.tsx'".
Definition terminal_run : list event :=
  [ProcessOutput build_error; TerminalTimeout;
   FixerSettles (Ok (Some (lit "export default 2"))) Examples.writable].

End Samples.

(* ===================================================================== *)
(** ** The effect of a fix on the file tree *)
(* ===================================================================== *)

Module FixEffect.

Import Files.

(** [after] is [before] except, at most, for its content, which may have
    become [fixedCode] if its path is [target]. *)
Definition same_but_content (target fixedCode : jsstring)
    (before after : FileNode) : Prop :=
  name after = name before
  /\ path after = path before
  /\ type after = type before
  /\ (content after = content before
      \/ (path before = target /\ content after = Some fixedCode)).

End FixEffect.

(* ===================================================================== *)
(** ** Writing to the buffer only *)
(* ===================================================================== *)

Module Frames.

Import Hook.

(** [w'] differs from [w] in the output buffer at most. *)
Definition same_but_buffer (w w' : World) : Prop :=
  globals w' = globals w
  /\ promises w' = promises w
  /\ calls w' = calls w
  /\ isBooting (state w') = isBooting (state w)
  /\ isInstalling (state w') = isInstalling (state w)
  /\ isRunning (state w') = isRunning (state w)
  /\ previewUrl (state w') = previewUrl (state w)
  /\ error (state w') = error (state w)
  /\ isPreWarmed (state w') = isPreWarmed (state w)
  /\ isPreWarming (state w') = isPreWarming (state w)
  /\ processRef (state w') = processRef (state w).

(** The calls that [startDevServer] makes to stop the previous process. *)
Definition kill_calls (w : World) : list call :=
  match processRef (state w) with
  | Some p => [CKill p]
  | None => []
  end.

End Frames.

(* ===================================================================== *)
(** ** The tree handed to the sandbox *)
(* ===================================================================== *)

(** [FileSystemTree] of the engine, as [toWebContainerFS] builds it and
    [mountFiles] reads it: plain JavaScript objects, whose keys are file
    names.  A plain object also answers to the names that it inherits
    from [Object.prototype], and assigning to the key [__proto__] does
    not add a key but replaces the prototype; both are part of what the
    code does with a project that uses such names. *)
Module FS.

Import Files.

Inductive Contents : Type :=
| Text (s : jsstring)
| Bytes (b : list N).

(** An entry: [{file: {contents}}], [{file: {symlink}}] or
    [{directory: tree}].  A tree is its own keys, in the order of their
    insertion, and the contents of the file entry that has become its
    prototype, if any. *)
#[local] Unset Elimination Schemes.
Inductive Node : Type :=
| File (contents : Contents)
| Symlink (target : jsstring)
| Directory (own : list (jsstring * Node)) (proto : option jsstring).
#[local] Set Elimination Schemes.

Record Tree : Type := mkTree {
  own : list (jsstring * Node);
  proto : option jsstring
}.

Definition empty : Tree := mkTree [] None.
Definition directory_of (t : Tree) : Node := Directory (own t) (proto t).

Fixpoint assoc (key : jsstring) (l : list (jsstring * Node)) : option Node :=
  match l with
  | [] => None
  | (k, v) :: l' => if JS.eqb k key then Some v else assoc key l'
  end.

(** [obj[key] = v] for a key that is not [__proto__]. *)
Fixpoint assoc_set (key : jsstring) (v : Node) (l : list (jsstring * Node))
  : list (jsstring * Node) :=
  match l with
  | [] => [(key, v)]
  | (k, v') :: l' =>
      if JS.eqb k key then (k, v) :: l' else (k, v') :: assoc_set key v l'
  end.

Definition set_own (key : jsstring) (v : Node) (t : Tree) : Tree :=
  mkTree (assoc_set key v (own t)) (proto t).

(** The names that every plain object inherits. *)
Definition inherited_names : list jsstring :=
  [lit "__proto__"; lit "constructor"; lit "hasOwnProperty";
   lit "isPrototypeOf"; lit "propertyIsEnumerable"; lit "toLocaleString";
   lit "toString"; lit "valueOf"; lit "__defineGetter__";
   lit "__defineSetter__"; lit "__lookupGetter__"; lit "__lookupSetter__"].

Definition is_inherited (key : jsstring) : bool :=
  existsb (JS.eqb key) inherited_names.

(** The value of [obj[key]]: nothing, an entry of the object itself, or a
    member of its prototype chain, which is truthy and has no
    [directory] in it. *)
Inductive Value : Type :=
| Undefined
| Own (n : Node)
| Inherited.

Definition get (t : Tree) (key : jsstring) : Value :=
  match assoc key (own t) with
  | Some n => Own n
  | None =>
      if is_inherited key then Inherited
      else match proto t with
           | Some _ => if JS.eqb key (lit "file") then Inherited else Undefined
           | None => Undefined
           end
  end.

(** What [processNode] puts at the end of a path. *)
Inductive Leaf : Type :=
| LDirectory
| LFile (contents : jsstring).

(** The last statement of [processNode]. *)
Definition put_leaf (name : jsstring) (leaf : Leaf) (t : Tree) : Tree :=
  match leaf with
  | LDirectory =>
      match get t name with
      | Undefined => set_own name (directory_of empty) t
      | _ => t
      end
  | LFile contents =>
      if JS.eqb name (lit "__proto__")
      then mkTree (own t) (Some contents)
      else set_own name (File (Text contents)) t
  end.

(** The walk of [processNode] along the parts of a path, with the tree
    that [current] points to; the result is that tree after the leaf has
    been put in place. *)
Fixpoint place (parts : list jsstring) (leaf : Leaf) (t : Tree) : Tree :=
  match parts with
  | [] => t
  | part :: rest =>
      match rest with
      | [] => put_leaf part leaf t
      | _ :: _ =>
          match get t part with
          | Undefined =>
              set_own part (directory_of (place rest leaf empty)) t
          | Own (Directory o p) =>
              set_own part (directory_of (place rest leaf (mkTree o p))) t
          | Own _ | Inherited => place rest leaf t
          end
      end
  end.

(** The path of a node with the prefix taken off. *)
Definition stripped (stripPrefix : option jsstring) (path : jsstring)
  : jsstring :=
  match stripPrefix with
  | Some pre =>
      if truthy pre && startsWith path pre
      then skipn (length pre) path
      else path
  | None => path
  end.

Definition leaf_of (node : FileNode) : Leaf :=
  match type node with
  | directory => LDirectory
  | file => LFile (match content node with Some c => c | None => [] end)
  end.

Definition processNode (stripPrefix : option jsstring) (node : FileNode)
    (t : Tree) : Tree :=
  let path := stripped stripPrefix (path node) in
  if truthy path then place (split App.slash path) (leaf_of node) t else t.

(** The nodes in the order in which [traverse] visits them. *)
Fixpoint visit (n : FileNode) : list FileNode :=
  match n with
  | mkNode _ _ _ _ ch =>
      n :: match ch with
           | Some nodes =>
               (fix visit_all (l : list FileNode) : list FileNode :=
                  match l with
                  | [] => []
                  | x :: l' => visit x ++ visit_all l'
                  end) nodes
           | None => []
           end
  end.

Definition toWebContainerFS (files : list FileNode)
    (stripPrefix : option jsstring) : Tree :=
  fold_left (fun t node => processNode stripPrefix node t)
            (flat_map visit files) empty.

(** [findRootPrefix] *)
Definition findRootPrefix (files : list FileNode) : option jsstring :=
  match files with
  | [root] =>
      match type root with
      | directory => Some (path root ++ lit "/")
      | file => None
      end
  | _ => None
  end.

(** The entry at a path, reading own keys only. *)
Fixpoint lookup_path (parts : list jsstring) (t : Tree) : option Node :=
  match parts with
  | [] => None
  | part :: rest =>
      match rest with
      | [] => assoc part (own t)
      | _ :: _ =>
          match assoc part (own t) with
          | Some (Directory o p) => lookup_path rest (mkTree o p)
          | _ => None
          end
      end
  end.

End FS.

(* ===================================================================== *)
(** ** Projects that toWebContainerFS places faithfully *)
(* ===================================================================== *)

Module FSSpec.

Import Files FS.

(** A part of a path that no plain object inherits. *)
Definition plain (parts : list jsstring) : Prop :=
  forallb (fun part => negb (is_inherited part)) parts = true.

(** No prototype has been replaced anywhere in the tree. *)
Fixpoint proto_free_node (n : Node) : bool :=
  match n with
  | File _ | Symlink _ => true
  | Directory o p =>
      match p with
      | Some _ => false
      | None =>
          (fix all (l : list (jsstring * Node)) : bool :=
             match l with
             | [] => true
             | (_, v) :: l' => proto_free_node v && all l'
             end) o
      end
  end.

Definition proto_free (t : Tree) : Prop :=
  proto_free_node (directory_of t) = true.

(** The walk along [parts] goes through directories only: no part but
    the last names an entry that is not a directory. *)
Fixpoint passable (parts : list jsstring) (t : Tree) : bool :=
  match parts with
  | [] => true
  | part :: rest =>
      match rest with
      | [] => true
      | _ :: _ =>
          match assoc part (own t) with
          | None => true
          | Some (Directory o p) => passable rest (mkTree o p)
          | Some _ => false
          end
      end
  end.

(** [p] is a beginning of [q], and not all of it. *)
Definition proper_prefix (p q : list jsstring) : Prop :=
  exists rest, rest <> [] /\ q = p ++ rest.

(** What [toWebContainerFS] places, in order: the parts of each path
    that is not empty once the prefix is off, and the leaf for it. *)
Definition placement (stripPrefix : option jsstring) (node : FileNode)
  : list (list jsstring * Leaf) :=
  let path := stripped stripPrefix (path node) in
  if truthy path then [(split App.slash path, leaf_of node)] else [].

Definition placements (files : list FileNode)
    (stripPrefix : option jsstring) : list (list jsstring * Leaf) :=
  flat_map (placement stripPrefix) (flat_map visit files).

(** A project in which no part of a path is an inherited name, no file
    lies on the way to another path, and no two files with the same path
    differ in content. *)
Definition well_formed (ops : list (list jsstring * Leaf)) : Prop :=
  (forall p leaf, In (p, leaf) ops -> plain p)
  /\ (forall p c q leaf,
        In (p, LFile c) ops -> In (q, leaf) ops -> ~ proper_prefix p q)
  /\ (forall p c c',
        In (p, LFile c) ops -> In (p, LFile c') ops -> c = c').

(** What holds of the tree after the placements [done]. *)
Definition faithful (done : list (list jsstring * Leaf)) (t : Tree) : Prop :=
  proto_free t
  /\ (forall p c, In (p, LFile c) done ->
                  lookup_path p t = Some (File (Text c)))
  /\ (forall r x, lookup_path r t = Some x ->
                  match x with
                  | Directory _ _ => True
                  | File (Text c) => In (r, LFile c) done
                  | _ => False
                  end).

End FSSpec.

(* ===================================================================== *)
(** ** preWarm and mountFiles *)
(* ===================================================================== *)

Module Sandbox.

Import Hook.

(** What [instance.mount] is called with: the constant [BASE_FILES] of
    the hook, whose content plays no part here, or the tree of a
    project. *)
Inductive MountArg : Type :=
| BaseFiles
| ProjectFiles (files : FS.Tree).

(** The world of the hook together with the mounts issued so far, and,
    for each of them in the same order, the number of engine calls that
    had been issued when it was: a mount comes after that many of the
    [calls] of the hook and before the others. *)
Record Sandbox : Type := mkSandbox {
  hook : World;
  mounts : list (Instance * MountArg);
  mountedAfter : list nat
}.

Definition initial : Sandbox := mkSandbox Hook.initial [] [].

Definition setIsPreWarmed (b : bool) : World -> World :=
  set_state (fun s => mkState (isBooting s) (isInstalling s) (isRunning s)
    (previewUrl s) (error s) (terminalOutput s) b (isPreWarming s)
    (processRef s) (outputVersion s)).
Definition setIsPreWarming (b : bool) : World -> World :=
  set_state (fun s => mkState (isBooting s) (isInstalling s) (isRunning s)
    (previewUrl s) (error s) (terminalOutput s) (isPreWarmed s) b
    (processRef s) (outputVersion s)).
Definition setIsPreWarmedFlag (b : bool) : World -> World :=
  set_globals (fun g => mkGlobals (webcontainerInstance g) (bootPromise g)
    (preWarmPromise g) b).
Definition setPreWarmPromise (p : option PromiseId) : World -> World :=
  set_globals (fun g => mkGlobals (webcontainerInstance g) (bootPromise g)
    p (isPreWarmedFlag g)).

Definition package : jsstring := [55357%N; 56550%N].       (* U+1F4E6 *)
Definition hourglass : jsstring := [9203%N].               (* U+23F3 *)
Definition warning : jsstring := [9888%N; 65039%N].        (* U+26A0 U+FE0F *)
Definition folder : jsstring := [55357%N; 56513%N].        (* U+1F4C1 *)
Definition magnifier : jsstring := [55357%N; 56589%N].     (* U+1F50D *)

(** *** preWarm *)

(** What the engine does during the one run of the body of [preWarm]. *)
Record PreWarmRun : Type := mkPreWarm {
  pw_boot : jserror + Instance;
  pw_mount : option jserror;            (* [None]: the mount succeeds *)
  pw_spawn : jserror + Process;
  pw_output : list jsstring;
  pw_exit : Z
}.

(** The [catch] block. *)
Definition warn (err : jserror) : World -> World :=
  appendOutput (warning ++ lit " Pre-warm error: " ++ err_text err).

(** The [try] block: the world and the mounts when it is left, by its
    end or by an exception, which the [catch] block has then handled. *)
Definition preWarm_try (e : PreWarmRun) (w : World)
    (ms : list (Instance * MountArg)) (ts : list nat)
  : World * list (Instance * MountArg) * list nat :=
  match await_boot (pw_boot e) w with
  | (inl err, w) => (warn err w, ms, ts)
  | (inr instance, w) =>
      let w := appendOutput (package ++ lit " Installing 16 base packages...") w in
      let w := appendOutput
                 (hourglass ++ lit " This runs once on page load (~2-3 min)...") w in
      let ms := ms ++ [(instance, BaseFiles)] in
      let ts := ts ++ [length (calls w)] in
      match pw_mount e with
      | Some err => (warn err w, ms, ts)
      | None =>
          let w := issue (CSpawn instance npm install_args) w in
          match pw_spawn e with
          | inl err => (warn err w, ms, ts)
          | inr _installProcess =>
              let w := pipe_output (pw_output e) w in
              if Z.eqb (pw_exit e) 0 then
                let w := setIsPreWarmedFlag true w in
                let w := setIsPreWarmed true w in
                (appendOutput (check_mark ++
                   lit " Base packages installed! Ready for projects.") w,
                 ms, ts)
              else
                (warn (ErrorObj (lit "Error") (lit "npm install failed")) w,
                 ms, ts)
          end
      end
  end.

(** [preWarm]: nothing when the flag or the promise is set; else the
    body runs, and [preWarmPromise] holds its promise from then on. *)
Definition preWarm (e : PreWarmRun) (s : Sandbox) : Sandbox :=
  let g := globals (hook s) in
  if isPreWarmedFlag g
     || match preWarmPromise g with Some _ => true | None => false end
  then s
  else
    let w := setIsPreWarming true (hook s) in
    let '(w, ms, ts) := preWarm_try e w (mounts s) (mountedAfter s) in
    let w := setIsPreWarming false w in
    mkSandbox (setPreWarmPromise (Some 0) w) ms ts.

(** *** mountFiles *)

(** The replacement text of [replace] for a string pattern: [$$] is a
    dollar sign, [$&] the text matched, [$`] what is before it and [$']
    what is after it; any other character stands for itself. *)
Fixpoint expand (repl matched before after : jsstring) : jsstring :=
  match repl with
  | [] => []
  | x :: r =>
      if N.eqb x 36 then
        match r with
        | [] => [x]
        | y :: r' =>
            if N.eqb y 36 then 36%N :: expand r' matched before after
            else if N.eqb y 38 then matched ++ expand r' matched before after
            else if N.eqb y 96 then before ++ expand r' matched before after
            else if N.eqb y 39 then after ++ expand r' matched before after
            else x :: expand r matched before after
        end
      else x :: expand r matched before after
  end.

(** The text before and the text after the first occurrence of [pat]. *)
Fixpoint find_split (s pat : jsstring) : option (jsstring * jsstring) :=
  if startsWith s pat then Some ([], skipn (length pat) s)
  else match s with
       | [] => None
       | x :: s' =>
           match find_split s' pat with
           | Some (before, after) => Some (x :: before, after)
           | None => None
           end
       end.

(** [s.replace(pat, repl)] for a string pattern and a replacement text. *)
Definition replace_text (s pat repl : jsstring) : jsstring :=
  match find_split s pat with
  | Some (before, after) => before ++ expand repl pat before after ++ after
  | None => s
  end.

Definition head_end : jsstring := lit "</head>".

Section WithErrorReporter.

(** [getErrorReporterScript()] of [utils/errorReporter]. *)
Variable errorReporter : jsstring.

Definition injection : jsstring :=
  lit "  " ++ errorReporter ++ [newline] ++ lit "  </head>".

(** The part of [mountFiles] that changes [files]: the tree after it,
    and whether the message of the injection is written. *)
Definition inject (files : FS.Tree) : FS.Tree * bool :=
  match FS.get files (lit "index.html") with
  | FS.Own (FS.File contents) =>
      let modifiedHtml :=
        match contents with
        | FS.Text originalHtml =>
            FS.Text (replace_text originalHtml head_end injection)
        | FS.Bytes b => FS.Bytes b
        end in
      (FS.set_own (lit "index.html") (FS.File modifiedHtml) files, true)
  | _ => (files, false)
  end.

Record MountRun : Type := mkMount {
  mount_boot : jserror + Instance;
  mount_answer : option jserror         (* [None]: the mount succeeds *)
}.

(** [mountFiles]: how it ends ([inl err] when it throws), the tree that
    the caller's [files] has become, and the sandbox. *)
Definition mountFiles (files : FS.Tree) (e : MountRun) (s : Sandbox)
  : (jserror + unit) * FS.Tree * Sandbox :=
  let failed err w ms ts :=
    mkSandbox (setError (Some (message_or (lit "Mount failed") err)) w) ms ts in
  match await_boot (mount_boot e) (hook s) with
  | (inl err, w) => (inl err, files, failed err w (mounts s) (mountedAfter s))
  | (inr instance, w) =>
      let g := globals w in
      let w :=
        match preWarmPromise g with
        | Some _ =>
            if negb (isPreWarmedFlag g)
            then appendOutput (hourglass ++ lit " Waiting for base setup...") w
            else w
        | None => w
        end in
      let w := appendOutput (folder ++ lit " Mounting project files...") w in
      let (files', injected) := inject files in
      let w := if injected
               then appendOutput (magnifier ++ lit " Error reporter injected") w
               else w in
      let ms := mounts s ++ [(instance, ProjectFiles files')] in
      let ts := mountedAfter s ++ [length (calls w)] in
      match mount_answer e with
      | Some err => (inl err, files', failed err w ms ts)
      | None =>
          (inr tt, files',
           mkSandbox (appendOutput (check_mark ++ lit " Files mounted") w)
                     ms ts)
      end
  end.

End WithErrorReporter.

End Sandbox.

(* ===================================================================== *)
(** ** The handlers of the page *)
(* ===================================================================== *)

Module Page.

Import Files App.

(** The component with the state that its handlers use besides the fix
    loop, and the mounts issued on its behalf, with the number of engine
    calls issued before each. *)
Record Page : Type := mkPage {
  app : App;
  mounts : list (Hook.Instance * Sandbox.MountArg);
  mountedAfter : list nat;
  selectedFile : option FileNode;
  zipName : jsstring;
  isExtracting : bool
}.

Definition initial : Page := mkPage App.initial [] [] None [] false.

Definition upd_app (f : App -> App) (p : Page) : Page :=
  mkPage (f (app p)) (mounts p) (mountedAfter p) (selectedFile p) (zipName p)
         (isExtracting p).
Definition setSelectedFile (f : option FileNode) (p : Page) : Page :=
  mkPage (app p) (mounts p) (mountedAfter p) f (zipName p) (isExtracting p).
Definition setZipName (n : jsstring) (p : Page) : Page :=
  mkPage (app p) (mounts p) (mountedAfter p) (selectedFile p) n
         (isExtracting p).
Definition setIsExtracting (b : bool) (p : Page) : Page :=
  mkPage (app p) (mounts p) (mountedAfter p) (selectedFile p) (zipName p) b.

(** The statements shared by the three handlers that start afresh:
    [setFixCount(0)], [setFixLog([])], the two refs, and [reset()]. *)
Definition clear_loop (a : App) : App :=
  let a := upd_fixCount (fun _ => 0) a in
  let a := upd_fixLog (fun _ => []) a in
  let a := upd_fixAttempts (fun _ => 0) a in
  let a := upd_lastErrorRef (fun _ => []) a in
  set_world Hook.reset a.

(** After a handler, React renders, and the terminal effect runs again
    if one of its dependencies has changed. *)
Definition rendered (before : Page) (after : Page) : Page :=
  if deps_changed (app before) (app after)
  then upd_app terminal_effect after
  else after.

Definition handleReset (p : Page) : Page :=
  let q := upd_app (setFiles []) p in
  let q := setSelectedFile None q in
  let q := setZipName [] q in
  let q := upd_app clear_loop q in
  rendered p q.

Definition is_main (f : FileNode) : bool :=
  JS.eqb (name f) (lit "App.tsx") || JS.eqb (name f) (lit "App.jsx").

(** [handleFileUpload], with the name of the file and the outcome of
    [extractZip]. *)
Definition handleFileUpload (fileName : jsstring)
    (extraction : Hook.jserror + list FileNode) (p : Page) : Page :=
  let q := setIsExtracting true p in
  let q := setZipName fileName q in
  let q := upd_app clear_loop q in
  let q :=
    match extraction with
    | inr extracted =>
        let q := upd_app (setFiles extracted) q in
        match flattenFiles extracted with
        | [] => q
        | (first :: _) as allFiles =>
            let mainFile := match find is_main allFiles with
                            | Some f => f
                            | None => first
                            end in
            setSelectedFile (Some mainFile) q
        end
    | inl _ => q
    end in
  rendered p (setIsExtracting false q).

Definition handleSelectFile (f : FileNode) (p : Page) : Page :=
  match type f with
  | file => setSelectedFile (Some f) p
  | directory => p
  end.

Definition sandbox_of (p : Page) : Sandbox.Sandbox :=
  Sandbox.mkSandbox (world (app p)) (mounts p) (mountedAfter p).
Definition with_sandbox (s : Sandbox.Sandbox) (p : Page) : Page :=
  mkPage (set_world (fun _ => Sandbox.hook s) (app p)) (Sandbox.mounts s)
         (Sandbox.mountedAfter s)
         (selectedFile p) (zipName p) (isExtracting p).

Record PreviewRun : Type := mkPreview {
  preview_mount : Sandbox.MountRun;
  preview_dev : Hook.DevServerRun
}.

Section WithErrorReporter.

Variable errorReporter : jsstring.

(** [handleStartPreview]: when [mountFiles] throws, the handler ends
    there, with its promise rejected. *)
Definition handleStartPreview (e : PreviewRun) (p : Page) : Page :=
  match files (app p) with
  | [] => p
  | _ :: _ =>
      let q := upd_app (upd_fixAttempts (fun _ => 0)) p in
      let q := upd_app (upd_lastErrorRef (fun _ => [])) q in
      let q := upd_app (upd_fixLog (fun _ => [])) q in
      let prefix := FS.findRootPrefix (files (app p)) in
      let fsTree := FS.toWebContainerFS (files (app p)) prefix in
      match Sandbox.mountFiles errorReporter fsTree (preview_mount e)
                               (sandbox_of q) with
      | (inl _, _, s) => rendered p (with_sandbox s q)
      | (inr _, _, s) =>
          let q := with_sandbox s q in
          rendered p (upd_app (set_world (Hook.startDevServer (preview_dev e))) q)
      end
  end.

End WithErrorReporter.

(** The answer of the fixer and the firing of a timeout, as events of
    the page. *)
Definition page_step (parse : jsstring -> option jsstring) (ev : event)
    (p : Page) : Page :=
  upd_app (step parse ev) p.

End Page.

(* ===================================================================== *)
(** ** A page with a project, and engines that refuse *)
(* ===================================================================== *)

Module PageSamples.

Import Hook Files App.

Definition reporter : jsstring := lit "<script>report()</script>".

(** A tree with an [index.html], and the parts of its text around the
    end of the head. *)
Definition html_before : jsstring := lit "<html><head><title>t</title>".
Definition html_after : jsstring := lit "<body></body></html>".
Definition html_tree : FS.Tree :=
  FS.set_own (lit "index.html")
    (FS.File (FS.Text (html_before ++ Sandbox.head_end ++ html_after)))
    (FS.set_own (lit "main.js") (FS.File (FS.Text (lit "run()"))) FS.empty).

(** A tree without an [index.html]. *)
Definition script_tree : FS.Tree :=
  FS.set_own (lit "main.js") (FS.File (FS.Text (lit "run()"))) FS.empty.

(** A sandbox whose instance exists. *)
Definition booted : Sandbox.Sandbox :=
  Sandbox.mkSandbox Examples.running_world [] [].

Definition mount_ok : Sandbox.MountRun := Sandbox.mkMount (inr 0) None.
Definition disk_full : jserror := ErrorObj (lit "Error") (lit "disk full").
Definition mount_refused : Sandbox.MountRun :=
  Sandbox.mkMount (inr 0) (Some disk_full).

(** A base install that exits with code 1. *)
Definition failed_base_install : Sandbox.PreWarmRun :=
  Sandbox.mkPreWarm (inr 0) None (inr 1) [lit "npm ERR! code E404"] 1%Z.
Definition base_install : Sandbox.PreWarmRun :=
  Sandbox.mkPreWarm (inr 0) None (inr 1) [] 0%Z.

(** The page of the session of the examples, with a fix under way. *)
Definition served : Page.Page :=
  Page.mkPage Examples.session [] [] None (lit "app.zip") false.
Definition being_fixed : Page.Page :=
  Page.mkPage Examples.fixing [] [] None (lit "app.zip") false.

Definition refused_preview : Page.PreviewRun :=
  Page.mkPreview mount_refused (mkRun (inr 0) (inr 1) [] 0%Z (inr 2)).
Definition started_preview : Page.PreviewRun :=
  Page.mkPreview mount_ok (mkRun (inr 0) (inr 1) [] 0%Z (inr 2)).

(** An archive with an [App.jsx] after another file. *)
Definition main_jsx : FileNode :=
  mkNode (lit "App.jsx") (lit "src/App.jsx") file
         (Some (lit "export default () => null")) None.
Definition readme : FileNode :=
  mkNode (lit "README.md") (lit "README.md") file (Some (lit "# app")) None.
Definition archive : list FileNode :=
  [readme; mkNode (lit "src") (lit "src") directory None (Some [main_jsx])].

Definition bad_archive : jserror :=
  ErrorObj (lit "Error") (lit "not a zip file").

End PageSamples.

(* ===================================================================== *)
(** ** extractZip *)
(* ===================================================================== *)

Module Zip.

Import Files.

(** An entry of [zip.files]: its key, [zipEntry.dir], and what
    [zipEntry.async('string')] resolves to or throws. *)
Record ZipEntry : Type := mkEntry {
  entry_name : jsstring;
  dir : bool;
  text : Hook.jserror + jsstring
}.

(** [a <= b] in the order of [sort()] without a comparator: strings are
    compared by their code units. *)
Fixpoint precedes (a b : jsstring) : bool :=
  match a, b with
  | [], _ => true
  | _ :: _, [] => false
  | x :: a', y :: b' =>
      if N.ltb x y then true
      else if N.ltb y x then false
      else precedes a' b'
  end.

Fixpoint insert (e : ZipEntry) (l : list ZipEntry) : list ZipEntry :=
  match l with
  | [] => [e]
  | h :: t =>
      if precedes (entry_name e) (entry_name h) then e :: h :: t
      else h :: insert e t
  end.

(** The entries in the order of [Object.keys(zip.files).sort()]. *)
Definition sorted (files : list ZipEntry) : list ZipEntry :=
  fold_right insert [] files.

(** The entries that are skipped. *)
Definition hidden (path : jsstring) : bool :=
  startsWith path (lit "__MACOSX") || includes path (lit "/.").

Definition cleanPath (path : jsstring) : jsstring :=
  if endsWith path (lit "/") then removelast path else path.

Definition parentPath (parts : list jsstring) : jsstring :=
  join (lit "/") (removelast parts).

(** Where a node has been pushed: on [fileTree], on the [children] of
    the node with a given number, or nowhere. *)
Inductive Place : Type :=
| AtRoot
| Under (parent : nat)
| Nowhere.

(** The nodes created so far, each as it was created and with the place
    it was pushed to, in the order in which they were pushed (a node
    that is pushed nowhere stands where it was created); and [pathMap],
    whose values are nodes of the store, by their numbers in that order.
    The latest binding of a key comes first.  The arrays of children,
    which the source fills by pushing on nodes that [pathMap] shares
    with the tree, are read off the places by [assemble] below. *)
Record Cell : Type := mkCell {
  node : FileNode;
  place : Place
}.

Record Store : Type := mkStore {
  cells : list Cell;
  pathMap : list (jsstring * nat)
}.

Definition empty : Store := mkStore [] [].

Definition has (key : jsstring) (m : list (jsstring * nat)) : bool :=
  existsb (fun kv => JS.eqb (fst kv) key) m.
Definition get (key : jsstring) (m : list (jsstring * nat)) : option nat :=
  match find (fun kv => JS.eqb (fst kv) key) m with
  | Some kv => Some (snd kv)
  | None => None
  end.

(** [pathMap.get(key)!.children!.push(node)] *)
Definition pushed_under (key : jsstring) (m : list (jsstring * nat)) : Place :=
  match get key m with
  | Some parent => Under parent
  | None => Nowhere
  end.

Definition dirNode (name path : jsstring) : FileNode :=
  mkNode name path directory None (Some []).
Definition fileNode (name path content : jsstring) : FileNode :=
  mkNode name path file (Some content) None.

(** A directory node is created and entered in [pathMap], then pushed
    on the children of the node at [parent], on [fileTree] when [parent]
    is empty, nowhere when [pathMap] has no such key. *)
Definition add_directory (name path parent : jsstring) (st : Store) : Store :=
  let id := length (cells st) in
  let m := (path, id) :: pathMap st in
  let place :=
    if truthy parent && has parent m then pushed_under parent m
    else if negb (truthy parent) then AtRoot
    else Nowhere in
  mkStore (cells st ++ [mkCell (dirNode name path) place]) m.

(** The loop that creates the missing parent directories: [parts] is
    what is left of the parts from index [i] on, the last of them being
    the name of the file. *)
Fixpoint make_parents (parts : list jsstring) (currentPath : jsstring)
    (st : Store) : Store :=
  match parts with
  | [] => st
  | part :: rest =>
      match rest with
      | [] => st
      | _ :: _ =>
          let newPath :=
            if truthy currentPath then currentPath ++ lit "/" ++ part
            else part in
          let st :=
            if negb (has newPath (pathMap st))
            then add_directory part newPath currentPath st
            else st in
          make_parents rest newPath st
      end
  end.

(** A file node is pushed like a directory node, but that its missing
    parents are created first. *)
Definition add_file (name path parent content : jsstring)
    (parts : list jsstring) (st : Store) : Store :=
  let created := mkNode name path file (Some content) None in
  if truthy parent && has parent (pathMap st) then
    mkStore (cells st ++ [mkCell created (pushed_under parent (pathMap st))])
            (pathMap st)
  else if negb (truthy parent) then
    mkStore (cells st ++ [mkCell created AtRoot]) (pathMap st)
  else
    let st := make_parents parts [] st in
    let place := if has parent (pathMap st)
                 then pushed_under parent (pathMap st)
                 else Nowhere in
    mkStore (cells st ++ [mkCell created place]) (pathMap st).

(** The body of the loop over the sorted paths; [inl] when reading the
    content of the entry throws. *)
Definition process (e : ZipEntry) (st : Store) : Hook.jserror + Store :=
  let path := entry_name e in
  if hidden path then inr st
  else
    let cleanPath := cleanPath path in
    if negb (truthy cleanPath) then inr st
    else
      let parts := split App.slash cleanPath in
      let name := last parts [] in
      let parentPath := parentPath parts in
      if dir e then inr (add_directory name cleanPath parentPath st)
      else
        match text e with
        | inl err => inl err
        | inr content =>
            inr (add_file name cleanPath parentPath content parts st)
        end.

Definition process_all (entries : list ZipEntry) (st : Store)
  : Hook.jserror + Store :=
  fold_left (fun acc e => match acc with
                          | inl err => inl err
                          | inr st => process e st
                          end)
            entries (inr st).

(** The trees that the store stands for: the node of each cell, from
    number [n] on, with the nodes pushed on its children, in the order
    in which they were pushed. *)
Definition is_under (n : nat) (p : Place) : bool :=
  match p with Under parent => Nat.eqb parent n | _ => false end.
Definition at_root (p : Place) : bool :=
  match p with AtRoot => true | _ => false end.

Definition with_children (n : FileNode) (kids : list FileNode) : FileNode :=
  match children n with
  | Some pushed => mkNode (name n) (path n) (type n) (content n)
                          (Some (pushed ++ kids))
  | None => n
  end.

Fixpoint assemble (n : nat) (cs : list Cell) : list (Place * FileNode) :=
  match cs with
  | [] => []
  | c :: cs' =>
      let later := assemble (S n) cs' in
      let kids := map snd (filter (fun pn => is_under n (fst pn)) later) in
      (place c, with_children (node c) kids) :: later
  end.

Definition fileTree (st : Store) : list FileNode :=
  map snd (filter (fun pn => at_root (fst pn)) (assemble 0 (cells st))).

(** [extractZip], from the entries of the archive that has been loaded. *)
Definition extractZip (files : list ZipEntry) : Hook.jserror + list FileNode :=
  match process_all (sorted files) empty with
  | inl err => inl err
  | inr st => inr (fileTree st)
  end.

End Zip.

(* ===================================================================== *)
(** ** Archives that extractZip shows in full *)
(* ===================================================================== *)

Module ZipSpec.

Import Files Zip.

(** A node of the store that can be reached from [fileTree]. *)
Inductive reach (cs : list Cell) : nat -> Prop :=
| reach_root id c :
    nth_error cs id = Some c -> place c = AtRoot -> reach cs id
| reach_under id c parent :
    nth_error cs id = Some c -> place c = Under parent ->
    reach cs parent -> reach cs id.

(** Nodes are created without children of their own; the values of
    [pathMap] are directories of the store; and a node is pushed on the
    children of a directory that was created before it. *)
Definition is_directory (cs : list Cell) (id : nat) : Prop :=
  exists c, nth_error cs id = Some c /\ children (node c) = Some [].

Definition well_formed (st : Store) : Prop :=
  Forall (fun c => children (node c) = None \/ children (node c) = Some [])
         (cells st)
  /\ (forall key id, In (key, id) (pathMap st) -> is_directory (cells st) id)
  /\ (forall id c parent,
        nth_error (cells st) id = Some c -> place c = Under parent ->
        parent < id /\ is_directory (cells st) parent).

(** Every directory of [pathMap] can be reached from [fileTree]. *)
Definition linked (st : Store) : Prop :=
  forall key id, In (key, id) (pathMap st) -> reach (cells st) id.

Definition is_dir_cell (c : Cell) : Prop := type (node c) = directory.

(** The entry of a file that is not skipped. *)
Definition shown (e : ZipEntry) : bool :=
  negb (dir e) && negb (hidden (entry_name e))
  && truthy (cleanPath (entry_name e)).

(** The node of such an entry. *)
Definition node_of (e : ZipEntry) (content : jsstring) : FileNode :=
  fileNode (last (split App.slash (cleanPath (entry_name e))) [])
           (cleanPath (entry_name e)) content.

(** Every directory entry that is not skipped and lies in a directory
    has an entry for that directory beside it. *)
Definition parents_listed (files : list ZipEntry) : Prop :=
  forall d,
    In d files -> dir d = true -> hidden (entry_name d) = false ->
    truthy (cleanPath (entry_name d)) = true ->
    let parent := parentPath (split App.slash (cleanPath (entry_name d))) in
    truthy parent = true ->
    exists d', In d' files /\ dir d' = true
               /\ cleanPath (entry_name d') = parent.

(** What holds of the store after the entries [done]: every file of it
    is the node of an entry that is not skipped. *)
Definition extracted (done : list ZipEntry) (st : Store) : Prop :=
  well_formed st
  /\ (forall c, In c (cells st) -> type (node c) = file ->
                exists e content,
                  In e done /\ shown e = true /\ text e = inr content
                  /\ node c = node_of e content).

(** What holds of it besides when the parents of the directory entries
    came before them: the directories of [pathMap] can be reached, those
    of the entries are among them, and so can the files whose key does
    not begin with a slash. *)
Definition complete (done : list ZipEntry) (st : Store) : Prop :=
  linked st
  /\ (forall d, In d done -> dir d = true ->
                hidden (entry_name d) = false ->
                truthy (cleanPath (entry_name d)) = true ->
                has (cleanPath (entry_name d)) (pathMap st) = true)
  /\ (forall e content,
        In e done -> shown e = true -> text e = inr content ->
        startsWith (entry_name e) (lit "/") = false ->
        exists id c, nth_error (cells st) id = Some c
                     /\ node c = node_of e content
                     /\ reach (cells st) id).

(** The parent of a directory entry came before it. *)
Definition parent_before (done : list ZipEntry) (d : ZipEntry) : Prop :=
  dir d = true -> hidden (entry_name d) = false ->
  truthy (cleanPath (entry_name d)) = true ->
  truthy (parentPath (split App.slash (cleanPath (entry_name d)))) = true ->
  exists d', In d' done /\ dir d' = true
             /\ cleanPath (entry_name d')
                = parentPath (split App.slash (cleanPath (entry_name d))).

(** The order of [sorted]. *)
Definition in_order (a b : ZipEntry) : Prop :=
  precedes (entry_name a) (entry_name b) = true.

(** The path that the loop of [make_parents] ends with. *)
Fixpoint last_parent (parts : list jsstring) (currentPath : jsstring)
  : jsstring :=
  match parts with
  | [] => currentPath
  | part :: rest =>
      match rest with
      | [] => currentPath
      | _ :: _ =>
          last_parent rest
            (if truthy currentPath then currentPath ++ lit "/" ++ part
             else part)
      end
  end.

End ZipSpec.

(* ===================================================================== *)
(** ** An archive *)
(* ===================================================================== *)

Module ZipSamples.

Import Hook Files Zip.

(** An archive with a nested directory, whose entries are not in the
    order of their keys, and with a resource fork that cannot be read. *)
Definition button : ZipEntry :=
  mkEntry (lit "src/components/Button.tsx") false
          (inr (lit "export const Button = 1")).
Definition components : ZipEntry :=
  mkEntry (lit "src/components/") true (inr []).
Definition src : ZipEntry := mkEntry (lit "src/") true (inr []).
Definition readme : ZipEntry :=
  mkEntry (lit "README.md") false (inr (lit "# app")).
Definition fork : ZipEntry :=
  mkEntry (lit "__MACOSX/._README.md") false
          (inl (ErrorObj (lit "Error") (lit "Corrupted zip"))).
Definition archive : list ZipEntry :=
  [button; fork; components; readme; src].

Definition archive_tree : list FileNode :=
  match extractZip archive with
  | inr tree => tree
  | inl _ => []
  end.

Definition button_node : FileNode :=
  fileNode (lit "Button.tsx") (lit "src/components/Button.tsx")
           (lit "export const Button = 1").

End ZipSamples.

(* ===================================================================== *)
(** ** The first file that passes a test *)
(* ===================================================================== *)

Module ResolveSpec.

Import Files.

(** [r] is the first element of [l], in its order, that passes [test],
    and nothing when no element passes. *)
Definition First (test : FileNode -> bool) (l : list FileNode)
    (r : option FileNode) : Prop :=
  match r with
  | Some f =>
      exists before after,
        l = before ++ f :: after
        /\ test f = true
        /\ Forall (fun g => test g = false) before
  | None => Forall (fun g => test g = false) l
  end.

(** A file that only its name relates to [src/components/Button.tsx]. *)
Definition button : FileNode :=
  mkNode (lit "Button.tsx") (lit "app/Button.tsx") file
         (Some (lit "export const Button = 1")) None.

End ResolveSpec.

(* ===================================================================== *)
(** ** What a fix does to the tree *)
(* ===================================================================== *)

Module TreeSpec.

Import Files.

(** The nodes below a node. *)
Definition below (n : FileNode) : list FileNode :=
  match children n with
  | Some nodes => flat_map FS.visit nodes
  | None => []
  end.

(** No node at [target] lies below another node at [target]: so it is
    in every tree whose nodes have paths of their own. *)
Definition unshadowed (target : jsstring) (nodes : list FileNode) : Prop :=
  forall n m,
    In n (flat_map FS.visit nodes) -> path n = target ->
    In m (below n) -> path m <> target.

(** [after] is [before] with the content [fixedCode] if its path is
    [target], and [before] itself if not. *)
Definition updated (target fixedCode : jsstring)
    (before after : FileNode) : Prop :=
  name after = name before
  /\ path after = path before
  /\ type after = type before
  /\ content after = (if JS.eqb (path before) target
                      then Some fixedCode
                      else content before).

(** A tree with a stale copy of [src/App.tsx]. *)
Definition stale_app : FileNode :=
  mkNode (lit "App.tsx") (lit "src/App.tsx") file
         (Some (lit "export default 1")) None.
Definition fixed_app : FileNode :=
  mkNode (lit "App.tsx") (lit "src/App.tsx") file
         (Some (lit "export default 2")) None.
Definition stale_project : list FileNode :=
  [mkNode (lit "src") (lit "src") directory None (Some [stale_app])].

End TreeSpec.

(* ===================================================================== *)
(** ** Lists and strings *)
(* ===================================================================== *)

Section ListFacts.

Variable A : Type.

Lemma slice_last_length (n : nat) (l : list A) :
  length (slice_last n l) = Nat.min n (length l).
Proof. unfold slice_last. rewrite length_skipn. lia. Qed.

Lemma slice_last_short (n : nat) (l : list A) :
  length l <= n -> slice_last n l = l.
Proof.
  intros H. unfold slice_last.
  replace (length l - n) with 0 by lia. reflexivity.
Qed.

Lemma slice_last_snoc (n : nat) (l : list A) (x : A) :
  slice_last (S n) (l ++ [x]) = slice_last n l ++ [x].
Proof.
  unfold slice_last. rewrite length_app, skipn_app. cbn [length].
  replace (length l + 1 - S n) with (length l - n) by lia.
  replace (length l - n - length l) with 0 by lia. reflexivity.
Qed.

Lemma slice_last_slice_last (n k : nat) (l : list A) :
  n <= k -> slice_last n (slice_last k l) = slice_last n l.
Proof.
  intros H. unfold slice_last. rewrite length_skipn, skipn_skipn.
  f_equal. lia.
Qed.

Lemma slice_last_incl (n : nat) (l : list A) (x : A) :
  In x (slice_last n l) -> In x l.
Proof.
  unfold slice_last. intros H.
  rewrite <- (firstn_skipn (length l - n) l). apply in_or_app. now right.
Qed.

(** The elements kept are the end of the list: what is cut off is a
    prefix. *)
Lemma slice_last_suffix (n : nat) (l : list A) :
  exists evicted, l = evicted ++ slice_last n l.
Proof.
  exists (firstn (length l - n) l). unfold slice_last.
  now rewrite firstn_skipn.
Qed.

End ListFacts.

Lemma JS_eqb_refl (s : jsstring) : JS.eqb s s = true.
Proof.
  induction s as [|x s IH]; cbn; [reflexivity|].
  now rewrite N.eqb_refl, IH.
Qed.

Lemma JS_eqb_eq (s t : jsstring) : JS.eqb s t = true <-> s = t.
Proof.
  split; [|intros ->; apply JS_eqb_refl].
  revert t. induction s as [|x s IH]; intros [|y t]; cbn; try congruence.
  rewrite andb_true_iff, N.eqb_eq. intros [-> H]. f_equal. now apply IH.
Qed.

(* ===================================================================== *)
(** ** Reasoning about sequential code *)
(* ===================================================================== *)

Section Keeping.

Import Hook Invariants.

Variable P : World -> Prop.

Lemma keeps_id : keeps P (fun w => w).
Proof. intros w H. exact H. Qed.

Lemma keeps_compose (f g : World -> World) :
  keeps P f -> keeps P g -> keeps P (fun w => g (f w)).
Proof. intros Hf Hg w H. apply Hg, Hf, H. Qed.

Lemma keepsM_ret (A : Type) (a : A) : keepsM P (ret a).
Proof. intros w H. exact H. Qed.

Lemma keepsM_throw (A : Type) (e : jserror) : keepsM P (@throw A e).
Proof. intros w H. exact H. Qed.

Lemma keepsM_act (f : World -> World) : keeps P f -> keepsM P (act f).
Proof. intros Hf w H. apply Hf, H. Qed.

Lemma keepsM_bind (A B : Type) (c : M A) (k : A -> M B) :
  keepsM P c -> (forall a, keepsM P (k a)) -> keepsM P (bind c k).
Proof.
  intros Hc Hk w H. unfold bind.
  specialize (Hc w H). destruct (c w) as [[e|a] w']; cbn in *.
  - exact Hc.
  - apply Hk, Hc.
Qed.

Lemma keeps_try_catch (c : M unit) (h : jserror -> World -> World) :
  keepsM P c -> (forall e, keeps P (h e)) -> keeps P (try_catch c h).
Proof.
  intros Hc Hh w H. unfold try_catch.
  specialize (Hc w H). destruct (c w) as [[e|[]] w']; cbn in *.
  - apply Hh, Hc.
  - exact Hc.
Qed.

Lemma keeps_fold (X : Type) (f : X -> World -> World) (xs : list X) :
  (forall x, keeps P (f x)) ->
  keeps P (fun w => fold_left (fun w' x => f x w') xs w).
Proof.
  intros Hf. induction xs as [|x xs IH]; intros w H; cbn.
  - exact H.
  - apply IH, Hf, H.
Qed.

End Keeping.

(** The sequential code of the hook keeps whatever its primitive steps
    keep: the setters of the state, [appendOutput], the engine calls and
    the two halves of [boot]. *)
Section HookKeeps.

Import Hook Invariants.

Variable P : World -> Prop.

Hypothesis P_state :
  forall (f : State -> State) w,
    (forall s, terminalOutput (f s) = terminalOutput s) ->
    P w -> P (set_state f w).
Hypothesis P_append : forall line, keeps P (appendOutput line).
Hypothesis P_issue : forall c, c <> CBoot -> keeps P (issue c).
Hypothesis P_boot : keeps P (fun w => snd (boot w)).
Hypothesis P_settled : forall r, keeps P (boot_settled r).
Hypothesis P_clear : keeps P (setTerminalOutput (fun _ => [])).

Lemma keeps_pipe_chunk (data : jsstring) : keeps P (pipe_chunk data).
Proof. unfold pipe_chunk. apply keeps_fold. exact P_append. Qed.

Lemma keeps_pipe_output (chunks : list jsstring) :
  keeps P (pipe_output chunks).
Proof. unfold pipe_output. apply keeps_fold. exact keeps_pipe_chunk. Qed.

Lemma keepsM_await_boot (answer : jserror + Instance) :
  keepsM P (await_boot answer).
Proof.
  intros w H. unfold await_boot.
  pose proof (P_boot H) as Hb. cbv beta in Hb. destruct (boot w) as [[i|p] w1]; cbn in *.
  - exact Hb.
  - destruct (lookup p w1); cbn; try exact Hb. apply P_settled, Hb.
Qed.

Lemma keepsM_await_spawn i cmd args answer :
  keepsM P (await_spawn i cmd args answer).
Proof. intros w H. cbn. apply P_issue; [discriminate | exact H]. Qed.

Lemma keepsM_kill_current : keepsM P kill_current.
Proof.
  intros w H. unfold kill_current. destruct (processRef (state w)); cbn.
  - apply P_issue; [discriminate | exact H].
  - exact H.
Qed.

Ltac keep_state := intros ? ?; apply P_state; [reflexivity | assumption].

Lemma keeps_server_ready (url : jsstring) : keeps P (server_ready url).
Proof.
  intros w H. unfold server_ready.
  apply P_state; [reflexivity|]. apply P_state; [reflexivity|].
  apply P_state; [reflexivity|]. apply P_append, H.
Qed.

Lemma keeps_startDevServer (e : DevServerRun) : keeps P (startDevServer e).
Proof.
  unfold startDevServer. apply keeps_try_catch.
  - apply keepsM_bind; [apply keepsM_await_boot | intros instance].
    apply keepsM_bind; [apply keepsM_kill_current | intros _].
    apply keepsM_bind; [apply keepsM_act; keep_state | intros _].
    apply keepsM_bind; [apply keepsM_act; keep_state | intros _].
    apply keepsM_bind; [apply keepsM_act, P_append | intros _].
    apply keepsM_bind; [apply keepsM_await_spawn | intros _].
    apply keepsM_bind; [apply keepsM_act, keeps_pipe_output | intros _].
    apply keepsM_bind; [apply keepsM_ret | intros _].
    apply keepsM_bind; [apply keepsM_act, P_append | intros _].
    apply keepsM_bind; [apply keepsM_act, P_append | intros _].
    apply keepsM_bind; [apply keepsM_await_spawn | intros devProcess].
    apply keepsM_act. keep_state.
  - intros err w H. apply P_state; [reflexivity|].
    apply P_state; [reflexivity | exact H].
Qed.

Lemma keeps_updateFile path content (e : WriteRun) :
  keeps P (updateFile path content e).
Proof.
  unfold updateFile. apply keeps_try_catch.
  - apply keepsM_bind; [apply keepsM_await_boot | intros instance].
    apply keepsM_bind; [|intros _; apply keepsM_act, P_append].
    intros w H. cbn. apply P_issue; [discriminate | exact H].
  - intros err. apply P_append.
Qed.

Lemma keeps_reset : keeps P reset.
Proof.
  intros w H. unfold reset.
  apply P_clear.
  apply P_state; [reflexivity|]. apply P_state; [reflexivity|].
  apply P_state; [reflexivity|]. apply P_state; [reflexivity|].
  destruct (processRef (state w)).
  - apply P_state; [reflexivity|]. apply P_issue; [discriminate | exact H].
  - exact H.
Qed.

Lemma keeps_exec (o : op) : keeps P (exec o).
Proof.
  intros w H. destruct o; cbn [exec].
  - now apply P_append.
  - now apply P_boot.
  - now apply P_settled.
  - destruct (webcontainerInstance (globals w)).
    + now apply keeps_server_ready.
    + exact H.
  - now apply keeps_pipe_chunk.
  - now apply keeps_startDevServer.
  - now apply keeps_updateFile.
  - now apply keeps_reset.
Qed.

Lemma keeps_exec_all (ops : list op) : keeps P (exec_all ops).
Proof. unfold exec_all. apply keeps_fold. exact keeps_exec. Qed.

End HookKeeps.

(* ===================================================================== *)
(** ** The output buffer *)
(* ===================================================================== *)

Section OutputBuffer.

Import Hook Invariants.

Lemma not_dropped_passes (line : jsstring) :
  dropped line = false -> passes line.
Proof.
  unfold dropped, passes. intros H.
  apply orb_false_iff in H as [H H2]. apply orb_false_iff in H as [H0 H1].
  apply Nat.ltb_ge in H2. auto.
Qed.

Lemma passes_or_ignored (line : jsstring) (w : World) :
  passes line \/ appendOutput line w = w.
Proof.
  unfold appendOutput. destruct (dropped line) eqn:E.
  - now right.
  - left. now apply not_dropped_passes.
Qed.

Lemma buffer_appendOutput (line : jsstring) (w : World) :
  terminalOutput (state (appendOutput line w)) =
  if dropped line then terminalOutput (state w)
  else slice_last 100 (terminalOutput (state w)) ++ [line].
Proof. unfold appendOutput. now destruct (dropped line). Qed.

Lemma clean_appendOutput (line : jsstring) : keeps clean (appendOutput line).
Proof.
  intros w H. unfold clean in *. rewrite buffer_appendOutput.
  destruct (dropped line) eqn:E; [exact H|].
  apply Forall_app. split.
  - rewrite Forall_forall in *. intros x Hx.
    apply H. eapply slice_last_incl, Hx.
  - constructor; [now apply not_dropped_passes | constructor].
Qed.

Lemma clean_state (f : State -> State) (w : World) :
  (forall s, terminalOutput (f s) = terminalOutput s) ->
  clean w -> clean (set_state f w).
Proof. intros Hf H. unfold clean in *. cbn. now rewrite Hf. Qed.

Lemma clean_boot : keeps clean (fun w => snd (boot w)).
Proof.
  intros w H. unfold boot.
  destruct (webcontainerInstance (globals w)); [exact H|].
  destruct (bootPromise (globals w)); [exact H|].
  cbn [snd]. unfold clean. cbn -[appendOutput].
  apply (@clean_appendOutput _ (setError None (setIsBooting true w))).
  do 2 (apply clean_state; [reflexivity|]). exact H.
Qed.

Lemma clean_boot_settled r : keeps clean (boot_settled r).
Proof.
  intros w H. unfold boot_settled.
  destruct (bootPromise (globals w)); [|exact H].
  destruct (lookup p w); try exact H.
  destruct r as [err|instance]; unfold clean; cbn -[appendOutput].
  - apply (@clean_appendOutput _
             (setError (Some (message_or (lit "Failed to boot") err)) w)).
    apply clean_state; [reflexivity | exact H].
  - apply (@clean_appendOutput _
             (issue (COnServerReady instance)
                (setWebcontainerInstance (Some instance) w))).
    exact H.
Qed.

Lemma clean_exec_all (ops : list op) : keeps clean (exec_all ops).
Proof.
  apply keeps_exec_all.
  - intros f w. apply clean_state.
  - exact clean_appendOutput.
  - intros c _ w H. exact H.
  - exact clean_boot.
  - exact clean_boot_settled.
  - intros w _. constructor.
Qed.

(** The buffer after a series of appends: the last 101 of the lines that
    passed the filter, in the order of their arrival. *)
Lemma buffer_after_appends (offered : list jsstring) :
  terminalOutput (state (exec_all (map OpAppend offered) initial)) =
  slice_last 101 (kept offered).
Proof.
  induction offered as [|line offered IH] using rev_ind; [reflexivity|].
  unfold exec_all in *. rewrite map_app, fold_left_app. cbn [map fold_left exec].
  rewrite buffer_appendOutput, IH. unfold kept. rewrite filter_app. cbn [filter].
  destruct (dropped line); cbn [negb].
  - now rewrite app_nil_r.
  - rewrite slice_last_snoc. f_equal. apply slice_last_slice_last. lia.
Qed.

Lemma buffer_bound (offered : list jsstring) :
  length (terminalOutput (state (exec_all (map OpAppend offered) initial)))
  <= 101.
Proof. rewrite buffer_after_appends, slice_last_length. lia. Qed.

(** C10.  A line that contains [[0K] or [[1G], or whose trimmed length is
    below 2, is not stored by [appendOutput], and after any sequence of
    operations of the hook the buffer holds no such line. *)
Theorem filtered_lines_never_stored :
  (forall line w, passes line \/ appendOutput line w = w)
  /\ (forall ops, Forall passes (terminalOutput (state (exec_all ops initial)))).
Proof.
  split.
  - exact passes_or_ignored.
  - intros ops. apply (@clean_exec_all ops initial). constructor.
Qed.

(** C9, at the input that shows the off-by-one: after 101 lines that pass
    the filter, the buffer holds 101 lines, one more than the cap of 100. *)
Theorem buffer_holds_101_lines :
  length (terminalOutput
            (state (exec_all (map OpAppend Examples.many_lines) initial)))
  = 101.
Proof. vm_compute. reflexivity. Qed.

End OutputBuffer.

(* ===================================================================== *)
(** ** reset and startDevServer *)
(* ===================================================================== *)

Section Lifecycle.

Import Hook.

(** C8.  After [reset], from any world: the active process, if any, has
    been killed and forgotten, [previewUrl] and [error] are null,
    [isRunning] and [isInstalling] are false and the buffer is empty,
    while the module-level variables (the instance, the boot promise and
    the pre-warm promise and flag), the promises and the pre-warm flags
    of the state are as before. *)
Theorem reset_clears_session (w : World) :
  calls (reset w) =
    match processRef (state w) with
    | Some p => calls w ++ [CKill p]
    | None => calls w
    end
  /\ processRef (state (reset w)) = None
  /\ previewUrl (state (reset w)) = None
  /\ isRunning (state (reset w)) = false
  /\ isInstalling (state (reset w)) = false
  /\ error (state (reset w)) = None
  /\ terminalOutput (state (reset w)) = []
  /\ globals (reset w) = globals w
  /\ promises (reset w) = promises w
  /\ isPreWarmed (state (reset w)) = isPreWarmed (state w)
  /\ isPreWarming (state (reset w)) = isPreWarming (state w).
Proof.
  unfold reset. destruct (processRef (state w)) eqn:E; cbn; rewrite ?E; tauto.
Qed.

(** The exit code of the install has no influence on [startDevServer]. *)
Lemma startDevServer_exit_code_unused b s o (c1 c2 : Z) d (w : World) :
  startDevServer (mkRun b s o c1 d) w = startDevServer (mkRun b s o c2 d) w.
Proof. reflexivity. Qed.

(** C4, at an install that exits with code 1: no failure is reported and
    the dev server is spawned all the same. *)
Theorem dev_server_spawned_after_failed_install :
  let w := startDevServer Examples.failed_install initial in
  install_exit Examples.failed_install = 1%Z
  /\ calls w = [CBoot; COnServerReady 0;
                CSpawn 0 npm install_args; CSpawn 0 npm dev_args]
  /\ error (state w) = None
  /\ processRef (state w) = Some 2.
Proof. vm_compute. auto. Qed.

End Lifecycle.

(* ===================================================================== *)
(** ** boot *)
(* ===================================================================== *)

Section Boot.

Import Hook Invariants.

Lemma appendOutput_frame (line : jsstring) (w : World) :
  globals (appendOutput line w) = globals w
  /\ promises (appendOutput line w) = promises w
  /\ calls (appendOutput line w) = calls w.
Proof. unfold appendOutput. destruct (dropped line); cbn; auto. Qed.







Lemma nth_last (failed : list outcome) (o : outcome) :
  nth (length failed) (failed ++ [o]) Pending = o.
Proof. rewrite app_nth2, Nat.sub_diag; [reflexivity | lia]. Qed.






(** The world after the first branch of [boot] has run: used to read the
    fields of the result without unfolding [appendOutput]. *)
Lemma boot_fresh (w : World) :
  webcontainerInstance (globals w) = None ->
  bootPromise (globals w) = None ->
  fst (boot w) = Later (length (promises w))
  /\ webcontainerInstance (globals (snd (boot w))) = None
  /\ bootPromise (globals (snd (boot w))) = Some (length (promises w))
  /\ promises (snd (boot w)) = promises w ++ [Pending]
  /\ boots_issued (snd (boot w)) = S (boots_issued w).
Proof.
  intros Hi Hp. unfold boot. rewrite Hi, Hp.
  generalize (zap ++ lit " Booting WebContainer..."). intros line.
  set (w1 := setError None (setIsBooting true w)).
  destruct (appendOutput_frame line w1) as (Hg & Hpr & Hc).
  cbn -[appendOutput]. rewrite Hg, Hpr. cbn. rewrite Hi. repeat split.
  unfold boots_issued. cbn -[appendOutput]. rewrite Hc. cbn.
  rewrite filter_app, length_app. cbn. lia.
Qed.




Lemma boot_settled_rejected (err : jserror) (w : World) (p : PromiseId) :
  bootPromise (globals w) = Some p -> lookup p w = Pending ->
  let w' := boot_settled (inl err) w in
  webcontainerInstance (globals w') = webcontainerInstance (globals w)
  /\ bootPromise (globals w') = None
  /\ promises w' = settle p (Rejected err) (promises w)
  /\ boots_issued w' = boots_issued w.
Proof.
  intros Hp Hl. unfold boot_settled. rewrite Hp, Hl.
  generalize (message_or (lit "Failed to boot") err). intros message.
  generalize (cross_mark ++ lit " Error: " ++ message). intros line.
  set (w1 := setError (Some message) w).
  destruct (appendOutput_frame line w1) as (Hg & Hpr & Hc).
  cbn -[appendOutput]. rewrite Hg, Hpr. cbn. repeat split.
  unfold boots_issued. cbn -[appendOutput]. now rewrite Hc.
Qed.














End Boot.

(* ===================================================================== *)
(** ** Target-file resolution *)
(* ===================================================================== *)

Section Resolution.

Import Files App ResolveSpec.

Lemma split_nonempty (c : char) (s : jsstring) : split c s <> [].
Proof.
  destruct s as [|x s]; cbn; [discriminate|].
  destruct (N.eqb x c); [discriminate|]. destruct (split c s); discriminate.
Qed.

(** [find] gives the first element, in list order, that passes the test. *)
Lemma find_first (A : Type) (p : A -> bool) (l : list A) (x : A) :
  find p l = Some x ->
  exists before after,
    l = before ++ x :: after
    /\ p x = true
    /\ Forall (fun y => p y = false) before.
Proof.
  induction l as [|y l IH]; cbn; [discriminate|].
  destruct (p y) eqn:E.
  - intros [= ->]. exists [], l. auto.
  - intros H. destruct (IH H) as (before & after & -> & Hx & Hb).
    exists (y :: before), after. auto.
Qed.

(** [find] gives the first element that passes, and nothing when none
    does. *)
Lemma first_find (test : FileNode -> bool) (l : list FileNode)
    (r : option FileNode) :
  First test l r -> find test l = r.
Proof.
  destruct r as [f|]; cbn [First].
  - intros (before & after & -> & Hf & Hb).
    induction Hb as [|g before Hg _ IH]; cbn; [now rewrite Hf|].
    now rewrite Hg.
  - induction 1 as [|g l Hg _ IH]; cbn; [reflexivity|]. now rewrite Hg.
Qed.

(** Every search has a result: the theorem below speaks of every tree
    and every candidate path. *)
Lemma first_total (test : FileNode -> bool) (l : list FileNode) :
  exists r, First test l r.
Proof.
  induction l as [|g l [r IH]]; [exists None; constructor|].
  destruct (test g) eqn:Hg.
  - exists (Some g), [], l. repeat split; [exact Hg | constructor].
  - destruct r as [f|].
    + destruct IH as (before & after & -> & Hf & Hb).
      exists (Some f), (g :: before), after.
      repeat split; [exact Hf | now constructor].
    + exists None. now constructor.
Qed.

Lemma pop_last (A : Type) (d : A) (a : list A) :
  a <> [] -> pop a = Some (last a d).
Proof.
  intros H. rewrite (app_removelast_last d H) at 1.
  unfold pop. rewrite rev_app_distr. reflexivity.
Qed.

(** C7, as the code has it.  With [byPath] the first file, in the order
    of the flattened tree, that passes the one test of the first search
    (its path equals the candidate path, or ends with it, or contains
    the candidate path without its first [src/]): that file is chosen
    when it has a content that is not empty.  When it has none, or no
    file passes, and the last segment of the candidate path is not
    empty, the first file of that name is chosen instead, or none when
    no file has that name; and when that segment is empty, the result
    of the first search stands. *)
Theorem resolve_first_match (allFiles : list FileNode)
    (errorFile : jsstring) (byPath : option FileNode) :
  First (path_match errorFile) allFiles byPath ->
  let fileName := last (split slash errorFile) [] in
  (has_content byPath = true -> resolve allFiles errorFile = byPath)
  /\ (has_content byPath = false -> fileName = [] ->
      resolve allFiles errorFile = byPath)
  /\ (has_content byPath = false -> fileName <> [] ->
      forall byName,
        First (name_match fileName) allFiles byName ->
        resolve allFiles errorFile = byName).
Proof.
  intros Hfirst fileName. apply first_find in Hfirst.
  unfold resolve. rewrite Hfirst.
  rewrite (@pop_last jsstring [] _ (split_nonempty slash errorFile)).
  fold fileName.
  split; [|split].
  - now intros ->.
  - intros -> ->. reflexivity.
  - intros -> Hne byName HbyName. apply first_find in HbyName.
    destruct fileName; [congruence|]. exact HbyName.
Qed.

(** No file passes the first search, and the file of that name is
    chosen. *)
Lemma resolve_first_match_witness :
  resolve [button] (lit "src/components/Button.tsx") = Some button.
Proof.
  refine (proj2 (proj2 (@resolve_first_match [button]
            (lit "src/components/Button.tsx") None _)) eq_refl _
            (Some button) _).
  - repeat constructor.
  - discriminate.
  - exists [], []. repeat split. constructor.
Defined.

(** C7 as stated fails: [src/App.tsx] is in the tree and its path equals
    the candidate path, yet [lib/App.tsx], whose path neither equals the
    candidate path nor ends with it, comes first and is chosen. *)
Lemma exact_path_not_preferred :
  In Examples.src_app (flattenFiles Examples.two_apps)
  /\ JS.eqb (path Examples.src_app) (lit "src/App.tsx") = true
  /\ JS.eqb (path Examples.lib_app) (lit "src/App.tsx") = false
  /\ endsWith (path Examples.lib_app) (lit "src/App.tsx") = false
  /\ resolve (flattenFiles Examples.two_apps) (lit "src/App.tsx")
     = Some Examples.lib_app.
Proof. vm_compute. intuition. Qed.

End Resolution.

(* ===================================================================== *)
(** ** fixCodeError *)
(* ===================================================================== *)

Section FixCodeError.

Import Files App.

Lemma finally_frame (a : App) :
  lastErrorRef (finally a) = lastErrorRef a
  /\ fetches (finally a) = fetches a
  /\ fixingRef (finally a) = false.
Proof. repeat split. Qed.

Lemma settled_frame target r e (a : App) :
  lastErrorRef (snd (fixCodeError_settled target r e a)) = lastErrorRef a
  /\ fetches (snd (fixCodeError_settled target r e a)) = fetches a.
Proof.
  unfold fixCodeError_settled.
  destruct r as [err| |[fixedCode|]]; try (split; reflexivity).
  destruct (truthy fixedCode && content_differs fixedCode target);
    split; reflexivity.
Qed.

(** What a call that passes the guards leaves behind. *)
Lemma triggered_key errorFile errorText (a : App) :
  fst (fixCodeError errorFile errorText a) <> Dropped ->
  lastErrorRef (snd (fixCodeError errorFile errorText a))
  = errorKey errorFile errorText.
Proof.
  unfold fixCodeError.
  destruct (fixingRef a); [intros H; now elim H|].
  destruct (JS.eqb _ _); [intros H; now elim H|].
  intros _.
  destruct (resolve _ errorFile) as [target|]; [|reflexivity].
  destruct (has_content (Some target)); reflexivity.
Qed.

Lemma fetches_grow_by_one errorFile errorText (a : App) :
  length (fetches (snd (fixCodeError errorFile errorText a)))
  <= length (fetches a) + 1.
Proof.
  unfold fixCodeError.
  destruct (fixingRef a); [cbn; lia|].
  destruct (JS.eqb _ _); [cbn; lia|].
  destruct (resolve _ errorFile) as [target|]; [|cbn; lia].
  destruct (has_content (Some target)); cbn; [|lia].
  rewrite length_app. cbn. lia.
Qed.

Lemma same_key_dropped errorFile errorText (a : App) :
  lastErrorRef a = errorKey errorFile errorText ->
  fixCodeError errorFile errorText a = (Dropped, a).
Proof.
  intros H. unfold fixCodeError. destruct (fixingRef a); [reflexivity|].
  now rewrite H, JS_eqb_refl.
Qed.

(** C3.  Two candidates in a row with the same file and the same first
    50 characters of error text, whether or not the fixer has answered
    the first by the time the second arrives: together they send at most
    one request to the fixer, and when the first passed the guards the
    second is dropped without any change. *)
Theorem duplicate_candidate_dropped
    (errorFile text1 text2 : jsstring) (a : App)
    (answer : option (Response * Hook.WriteRun)) :
  slice_to 50 text1 = slice_to 50 text2 ->
  let first := fixCodeError errorFile text1 a in
  let between :=
    match fst first, answer with
    | Awaiting target, Some (r, e) =>
        snd (fixCodeError_settled target r e (snd first))
    | _, _ => snd first
    end in
  let second := fixCodeError errorFile text2 between in
  length (fetches (snd second)) <= length (fetches a) + 1
  /\ (fst first <> Dropped -> second = (Dropped, between)).
Proof.
  intros Hkey first between second.
  assert (Hk : errorKey errorFile text2 = errorKey errorFile text1)
    by (unfold errorKey; now rewrite Hkey).
  assert (Hbetween : lastErrorRef between = lastErrorRef (snd first)
                     /\ fetches between = fetches (snd first)).
  { subst between. destruct (fst first); auto.
    destruct answer as [[r e]|]; auto. apply settled_frame. }
  destruct Hbetween as [Hlast Hsent].
  assert (Hdrop : fst first <> Dropped -> second = (Dropped, between)).
  { intros Ht. subst second. apply same_key_dropped.
    rewrite Hlast, Hk. now apply triggered_key. }
  split; [|exact Hdrop].
  destruct (fst first) eqn:Hf.
  - (* the first was dropped: the second may be the one that is sent *)
    assert (Hsame : snd first = a).
    { subst first. unfold fixCodeError in *.
      destruct (fixingRef a); [reflexivity|].
      destruct (JS.eqb _ _); [reflexivity|].
      destruct (resolve _ errorFile) as [target|]; [|discriminate].
      destruct (has_content (Some target)); discriminate. }
    rewrite Hsame in Hsent. subst second. rewrite <- Hsent.
    apply fetches_grow_by_one.
  - rewrite Hdrop by discriminate. cbn [snd]. rewrite Hsent.
    apply fetches_grow_by_one.
  - rewrite Hdrop by discriminate. cbn [snd]. rewrite Hsent.
    apply fetches_grow_by_one.
Qed.

Lemma duplicate_candidate_dropped_witness :
  fixCodeError (lit "src/App.tsx") (lit "ReferenceError: y is not defined")
               Examples.fixing
  = (Dropped, Examples.fixing).
Proof.
  apply (proj2 (@duplicate_candidate_dropped (lit "src/App.tsx")
                  (lit "ReferenceError: y is not defined")
                  (lit "ReferenceError: y is not defined")
                  Examples.session None eq_refl)).
  vm_compute. discriminate.
Defined.

Lemma terminal_effect_frame (a : App) :
  files (terminal_effect a) = files a
  /\ filesRef (terminal_effect a) = filesRef a
  /\ world (terminal_effect a) = world a
  /\ fixLog (terminal_effect a) = fixLog a
  /\ fixCount (terminal_effect a) = fixCount a
  /\ fixAttempts (terminal_effect a) = fixAttempts a
  /\ fetches (terminal_effect a) = fetches a.
Proof.
  unfold terminal_effect.
  destruct (negb (idle_and_running _)); [repeat split|].
  destruct (negb (budget_left _)); [repeat split|].
  destruct (parseError _) as [errorInfo|]; [|repeat split].
  destruct (truthy (ei_file errorInfo)); repeat split.
Qed.

(** C5.  When the fixer answers with the very content of the target
    file, nothing is written to the sandbox (the world of the hook, with
    its engine calls, is as before), the file tree is as before, and the
    fix log and the count of fixes are as before. *)
Theorem unchanged_fix_is_noop
    (parse : jsstring -> option jsstring)
    (target : FileNode) (c : jsstring) (e : Hook.WriteRun) (a : App) :
  inflight a = Some target ->
  content target = Some c ->
  let a' := step parse (FixerSettles (Ok (Some c)) e) a in
  fst (fixCodeError_settled target (Ok (Some c)) e a) = false
  /\ world a' = world a
  /\ files a' = files a
  /\ filesRef a' = filesRef a
  /\ fixLog a' = fixLog a
  /\ fixCount a' = fixCount a.
Proof.
  intros Hin Hc a'.
  assert (Hsame : content_differs c target = false)
    by (unfold content_differs; now rewrite Hc, JS_eqb_refl).
  assert (Hs : fixCodeError_settled target (Ok (Some c)) e a
               = (false, finally (upd_inflight (fun _ => None) a))).
  { unfold fixCodeError_settled. now rewrite Hsame, andb_false_r. }
  split; [now rewrite Hs|].
  subst a'. unfold step. cbn [handle]. rewrite Hin, Hs. cbn [snd].
  destruct (deps_changed _ _).
  - destruct (terminal_effect_frame
                (finally (upd_inflight (fun _ => None) a)))
      as (H1 & H2 & H3 & H4 & H5 & _).
    now rewrite H1, H2, H3, H4, H5.
  - repeat split.
Qed.

Lemma unchanged_fix_is_noop_witness :
  let a' := step parseStackTrace
              (FixerSettles (Ok (content Examples.src_app)) Examples.writable)
              Examples.fixing in
  world a' = world Examples.fixing /\ files a' = files Examples.fixing.
Proof.
  destruct (@unchanged_fix_is_noop parseStackTrace Examples.src_app
              (lit "export default function App() {}") Examples.writable
              Examples.fixing eq_refl eq_refl)
    as (_ & Hw & Hf & _).
  split; [exact Hw | exact Hf].
Defined.

(** C2, at the input that shows the gap: the budget is tested when a
    timeout is set, not when it fires.  After fourteen attempts, two
    runtime errors arrive before the first of their timeouts fires; both
    pass the test.  The first timeout brings the counter to 15, the
    second brings it to 16 and sends a request to the fixer. *)
Theorem budget_exceeded_by_pending_timeouts :
  let before_last :=
    run parseStackTrace
        (Examples.one_by_one ++ firstn 3 Examples.burst) Examples.session in
  let final :=
    run parseStackTrace
        (Examples.one_by_one ++ Examples.burst) Examples.session in
  fixAttempts before_last = MAX_FIX_ATTEMPTS
  /\ fetches before_last = []
  /\ fixAttempts final = 16
  /\ length (fetches final) = 1.
Proof. vm_compute. auto. Qed.

End FixCodeError.

(* ===================================================================== *)
(** ** parseError *)
(* ===================================================================== *)

Section Searching.

Import Regex.

Variable r : regex.

Lemma search_here (s t : jsstring) :
  exec_at r s = Some t -> search r s = Some t.
Proof. intros H. destruct s; cbn [search]; now rewrite H. Qed.

Lemma search_next (x : char) (s : jsstring) :
  exec_at r (x :: s) = None -> search r (x :: s) = search r s.
Proof. intros H. cbn [search]. now rewrite H. Qed.

(** Positions at which no match starts are passed over. *)
Lemma search_skip (pre s : jsstring) :
  (forall k, k < length pre -> exec_at r (skipn k (pre ++ s)) = None) ->
  search r (pre ++ s) = search r s.
Proof.
  induction pre as [|x pre IH]; intros H; [reflexivity|].
  cbn [app]. rewrite search_next.
  - apply IH. intros k Hk. apply (H (S k)). cbn. lia.
  - apply (H 0). cbn. lia.
Qed.

(** A match that starts somewhere in the text is found, or an earlier
    one is. *)
Lemma search_finds (pre s t : jsstring) :
  exec_at r s = Some t -> exists t', search r (pre ++ s) = Some t'.
Proof.
  intros H. induction pre as [|x pre IH].
  - exists t. now apply search_here.
  - cbn [app search]. destruct (exec_at r (x :: pre ++ s)) as [u|].
    + now exists u.
    + exact IH.
Qed.

Lemma exec_at_consumes (matched rest : jsstring) :
  m r (matched ++ rest) (fun s => Some s) = Some rest ->
  exec_at r (matched ++ rest) = Some matched.
Proof.
  intros H. unfold exec_at. rewrite H. f_equal.
  rewrite length_app, Nat.add_sub. rewrite firstn_app, Nat.sub_diag.
  cbn. now rewrite firstn_all, app_nil_r.
Qed.

End Searching.

Section ParseError.

Import Regex App.

Lemma scan_some (ps : list regex) (text : jsstring) (c : ErrorInfo) :
  scan ps text = Some c ->
  (exists p, In p ps /\ test p text = true)
  /\ search source_file text = Some (ei_file c).
Proof.
  induction ps as [|p ps IH]; cbn [scan]; [discriminate|].
  destruct (test p text) eqn:Ht.
  - destruct (search source_file text) as [fileMatch|] eqn:Hs.
    + intros [= <-]. split; [|reflexivity]. exists p. split; [now left | exact Ht].
    + intros H. destruct (IH H) as [_ Hfile]. discriminate.
  - intros H. destruct (IH H) as [(q & Hq & Hqt) Hfile].
    split; [|exact Hfile]. exists q. split; [now right | exact Hqt].
Qed.

(** The example message matches the first pattern wherever it stands. *)
Lemma import_error_matches (pre post : jsstring) :
  test resolve_import (pre ++ Examples.import_error ++ post) = true.
Proof.
  unfold test.
  destruct (@search_finds resolve_import pre (Examples.import_error ++ post)
              Examples.import_error) as [t Ht].
  - apply exec_at_consumes. reflexivity.
  - now rewrite Ht.
Qed.

Lemma import_error_split (post : jsstring) :
  Examples.import_error ++ post =
  Examples.import_error_head ++ Examples.import_error_path ++ 39%N :: post.
Proof. reflexivity. Qed.

Lemma path_matched_in_message (post : jsstring) :
  exec_at source_file (Examples.import_error_path ++ 39%N :: post)
  = Some Examples.import_error_path.
Proof. apply exec_at_consumes. reflexivity. Qed.

Lemma no_path_in_head (post : jsstring) (k : nat) :
  k < length Examples.import_error_head ->
  exec_at source_file
    (skipn k (Examples.import_error_head
              ++ Examples.import_error_path ++ 39%N :: post)) = None.
Proof.
  intros Hk.
  do 39 (destruct k as [|k]; [reflexivity|]).
  cbn in Hk. lia.
Qed.

Lemma path_of_message (post : jsstring) :
  search source_file (Examples.import_error ++ post)
  = Some Examples.import_error_path.
Proof.
  rewrite import_error_split, search_skip.
  - apply search_here, path_matched_in_message.
  - intros k. apply no_path_in_head.
Qed.

(** C6, as the code has it.  A candidate is returned only when one of
    the patterns matches the recent text and a source-file path is found
    in it; its file is the first such path of the text.  When the recent
    text contains the example message, a candidate is returned, and its
    file is [src/App.tsx] provided no source-file path starts earlier in
    the text. *)
Theorem parseError_candidate (output : list jsstring) :
  (forall c,
      parseError output = Some c ->
      (exists p, In p patterns /\ test p (recent_text output) = true)
      /\ search source_file (recent_text output) = Some (ei_file c))
  /\ (forall pre post,
        recent_text output = pre ++ Examples.import_error ++ post ->
        exists c,
          parseError output = Some c
          /\ ((forall k, k < length pre ->
                 exec_at source_file (skipn k (recent_text output)) = None) ->
              ei_file c = lit "src/App.tsx")).
Proof.
  split.
  - intros c. apply scan_some.
  - intros pre post Htext. unfold parseError. rewrite Htext.
    assert (Hfound : exists t,
               search source_file (pre ++ Examples.import_error ++ post)
               = Some t).
    { rewrite import_error_split, app_assoc.
      eapply search_finds, path_matched_in_message. }
    destruct Hfound as [t Ht].
    exists (mkErrorInfo t (slice_last 500 (pre ++ Examples.import_error ++ post))).
    split.
    + cbn [patterns scan]. now rewrite import_error_matches, Ht.
    + intros Hnone. cbn [ei_file].
      rewrite search_skip, path_of_message in Ht by exact Hnone.
      now injection Ht as <-.
Qed.

Lemma parseError_candidate_witness :
  exists c,
    parseError Examples.ready_then_error = Some c
    /\ ei_file c = lit "src/App.tsx".
Proof.
  destruct (proj2 (parseError_candidate Examples.ready_then_error)
              (lit "ready in 300 ms" ++ [newline]) [] eq_refl)
    as (c & Hc & Hfile).
  exists c. split; [exact Hc|]. apply Hfile.
  intros k Hk. do 16 (destruct k as [|k]; [reflexivity|]).
  cbn in Hk. lia.
Defined.

(** C6 as stated fails: the example message is among the recent lines,
    and the file of the candidate is that of an earlier line. *)
Lemma earlier_path_wins :
  In Examples.import_error (slice_last 60 Examples.update_then_error)
  /\ option_map ei_file (parseError Examples.update_then_error)
     = Some (lit "src/main.tsx")
  /\ option_map ei_file (parseError Examples.update_then_error)
     <> Some (lit "src/App.tsx").
Proof. vm_compute. repeat split; [auto | discriminate]. Qed.

End ParseError.

(* ===================================================================== *)
(** ** The matcher and what a pattern matches *)
(* ===================================================================== *)

Section MatcherFacts.

Import Regex Semantics.

Lemma startsWith_split (s l : jsstring) :
  startsWith s l = true -> s = l ++ skipn (length l) s.
Proof.
  revert s. induction l as [|y l IH]; intros s H; [reflexivity|].
  destruct s as [|x s]; cbn in H; [discriminate|].
  apply andb_true_iff in H as [Hx H]. apply N.eqb_eq in Hx. subst y.
  cbn. f_equal. now apply IH.
Qed.

Lemma startsWith_app (l rest : jsstring) : startsWith (l ++ rest) l = true.
Proof.
  induction l as [|y l IH]; cbn; [now destruct rest|].
  now rewrite N.eqb_refl, IH.
Qed.

Lemma run_prefix (p : char -> bool) (s : jsstring) (n : nat) :
  n <= run p s ->
  forallb p (firstn n s) = true /\ length (firstn n s) = n.
Proof.
  revert n. induction s as [|x s IH]; intros n H; cbn in H.
  - assert (n = 0) by lia. subst. now split.
  - destruct n as [|n]; [now split|]. cbn.
    destruct (p x) eqn:E; [|lia].
    destruct (IH n) as [H1 H2]; [lia|]. rewrite H1, H2. now split.
Qed.

Lemma run_app (p : char -> bool) (t rest : jsstring) :
  forallb p t = true -> length t <= run p (t ++ rest).
Proof.
  induction t as [|x t IH]; cbn; [lia|].
  intros H. apply andb_true_iff in H as [Hx H]. rewrite Hx.
  specialize (IH H). lia.
Qed.

Lemma longest_first_some (A : Type) (lo k : nat) (f : nat -> option A) a :
  longest_first lo k f = Some a ->
  exists n, lo <= n <= k /\ f n = Some a.
Proof.
  induction k as [|k IH]; cbn [longest_first].
  - destruct (0 <? lo) eqn:E; [discriminate|]. apply Nat.ltb_ge in E.
    destruct (f 0) eqn:F; [|discriminate].
    intros [= <-]. exists 0. split; [lia | exact F].
  - destruct (S k <? lo) eqn:E; [discriminate|]. apply Nat.ltb_ge in E.
    destruct (f (S k)) eqn:F.
    + intros [= <-]. exists (S k). split; [lia | exact F].
    + intros H. destruct (IH H) as (n & Hn & Hf). exists n. split; [lia | exact Hf].
Qed.

Lemma longest_first_finds (A : Type) (lo k n : nat) (f : nat -> option A) a :
  lo <= n <= k -> f n = Some a ->
  exists b, longest_first lo k f = Some b.
Proof.
  intros Hn Hf. induction k as [|k IH]; cbn [longest_first].
  - assert (n = 0) by lia. subst.
    replace (0 <? lo) with false by (symmetry; apply Nat.ltb_ge; lia).
    rewrite Hf. now exists a.
  - replace (S k <? lo) with false by (symmetry; apply Nat.ltb_ge; lia).
    destruct (f (S k)) as [b|] eqn:F; [now exists b|].
    apply IH. destruct (Nat.eq_dec n (S k)); [subst; congruence | lia].
Qed.

Lemma shortest_first_some (A : Type) (n lo : nat) (f : nat -> option A) a :
  shortest_first lo n f = Some a ->
  exists i, lo <= i <= lo + n /\ f i = Some a.
Proof.
  revert lo. induction n as [|n IH]; intros lo; cbn [shortest_first].
  - destruct (f lo) eqn:F; [|discriminate].
    intros [= <-]. exists lo. split; [lia | exact F].
  - destruct (f lo) eqn:F.
    + intros [= <-]. exists lo. split; [lia | exact F].
    + intros H. destruct (IH _ H) as (i & Hi & Hf). exists i. split; [lia | exact Hf].
Qed.

Lemma shortest_first_finds (A : Type) (n lo i : nat) (f : nat -> option A) a :
  lo <= i <= lo + n -> f i = Some a ->
  exists b, shortest_first lo n f = Some b.
Proof.
  revert lo. induction n as [|n IH]; intros lo Hi Hf; cbn [shortest_first].
  - assert (i = lo) by lia. subst. rewrite Hf. now exists a.
  - destruct (f lo) as [b|] eqn:F; [now exists b|].
    apply IH; [|exact Hf]. destruct (Nat.eq_dec i lo); [subst; congruence | lia].
Qed.

Lemma firstn_nonempty (s : jsstring) (n : nat) :
  1 <= n -> length (firstn n s) = n -> firstn n s <> [].
Proof. intros Hn Hl E. rewrite E in Hl. cbn in Hl. lia. Qed.

(** Whatever the matcher accepts is a match of the pattern. *)
Lemma m_sound (r : regex) :
  forall s k out,
    m r s k = Some out ->
    exists text rest,
      s = text ++ rest /\ Matches r text rest /\ k rest = Some out.
Proof.
  induction r as [l|p|r1 IH1 r2 IH2|r1 IH1 r2 IH2|p|p|p|r IH|];
    intros s k out H; cbn [m] in H.
  - destruct (startsWith s l) eqn:E; [|discriminate].
    exists l, (skipn (length l) s). repeat split; try assumption.
    + now apply startsWith_split.
    + constructor.
  - destruct s as [|x s]; [discriminate|].
    destruct (p x) eqn:E; [|discriminate].
    exists [x], s. repeat split; try assumption. now constructor.
  - destruct (IH1 _ _ _ H) as (t1 & rest1 & -> & M1 & H2).
    destruct (IH2 _ _ _ H2) as (t2 & rest & -> & M2 & Hk).
    exists (t1 ++ t2), rest. rewrite app_assoc. repeat split; try assumption.
    now constructor.
  - destruct (m r1 s k) as [o|] eqn:E.
    + injection H as ->. destruct (IH1 _ _ _ E) as (t & rest & -> & M & Hk).
      exists t, rest. repeat split; try assumption. now apply MAltL.
    + destruct (IH2 _ _ _ H) as (t & rest & -> & M & Hk).
      exists t, rest. repeat split; try assumption. now apply MAltR.
  - apply longest_first_some in H as (n & Hn & Hk).
    destruct (@run_prefix p s n) as [Hp Hl]; [lia|].
    exists (firstn n s), (skipn n s). rewrite firstn_skipn.
    repeat split; try assumption.
    constructor; [apply firstn_nonempty; [lia | exact Hl] | exact Hp].
  - apply longest_first_some in H as (n & Hn & Hk).
    destruct (@run_prefix p s n) as [Hp Hl]; [lia|].
    exists (firstn n s), (skipn n s). rewrite firstn_skipn.
    repeat split; try assumption. now constructor.
  - destruct (run p s) as [|n0] eqn:Hrun; [discriminate|].
    apply shortest_first_some in H as (n & Hn & Hk).
    destruct (@run_prefix p s n) as [Hp Hl]; [lia|].
    exists (firstn n s), (skipn n s). rewrite firstn_skipn.
    repeat split; try assumption.
    constructor; [apply firstn_nonempty; [lia | exact Hl] | exact Hp].
  - destruct (m r s k) as [o|] eqn:E.
    + injection H as ->. destruct (IH _ _ _ E) as (t & rest & -> & M & Hk).
      exists t, rest. repeat split; try assumption. now apply MOptSome.
    + exists [], s. repeat split; try assumption. apply MOptNone.
  - destruct s; [|discriminate]. exists [], []. repeat split; try assumption.
    constructor.
Qed.

(** A match that the continuation accepts is not missed. *)
Lemma m_complete (r : regex) (text rest : jsstring) :
  Matches r text rest ->
  forall k, (exists out, k rest = Some out) ->
            exists out, m r (text ++ rest) k = Some out.
Proof.
  induction 1 as [l rest|p x rest Hx|r1 r2 t1 t2 rest M1 IH1 M2 IH2
                 |r1 r2 t rest M IH|r1 r2 t rest M IH
                 |p t rest Hne Hp|p t rest Hp|p t rest Hne Hp
                 |r t rest M IH|r rest|];
    intros k [out Hk]; cbn [m].
  - rewrite startsWith_app, skipn_app, skipn_all, Nat.sub_diag. cbn.
    now exists out.
  - cbn. rewrite Hx. now exists out.
  - rewrite <- app_assoc. apply IH1. apply IH2. now exists out.
  - destruct (IH k) as [o Ho]; [now exists out|]. rewrite Ho. now exists o.
  - destruct (m r1 (t ++ rest) k) as [o|]; [now exists o|].
    apply IH. now exists out.
  - apply (@longest_first_finds _ 1 _ (length t) _ out).
    + split; [destruct t; [congruence | cbn; lia] | now apply run_app].
    + now rewrite skipn_app, skipn_all, Nat.sub_diag.
  - apply (@longest_first_finds _ 0 _ (length t) _ out).
    + split; [lia | now apply run_app].
    + now rewrite skipn_app, skipn_all, Nat.sub_diag.
  - pose proof (run_app p t rest Hp) as Hrun.
    destruct (run p (t ++ rest)) as [|n] eqn:E.
    + destruct t; [congruence | cbn in Hrun; lia].
    + apply (@shortest_first_finds _ n 1 (length t) _ out).
      * split; [destruct t; [congruence | cbn; lia] | lia].
      * now rewrite skipn_app, skipn_all, Nat.sub_diag.
  - destruct (IH k) as [o Ho]; [now exists out|]. rewrite Ho. now exists o.
  - cbn [app]. destruct (m r rest k) as [o|]; eauto.
  - cbn [app]. eauto.
Qed.

Lemma exec_at_sound (r : regex) (s t : jsstring) :
  exec_at r s = Some t -> exists rest, s = t ++ rest /\ Matches r t rest.
Proof.
  unfold exec_at. destruct (m r s (fun rest => Some rest)) as [rest|] eqn:E;
    [|discriminate].
  intros [= <-]. destruct (m_sound _ _ _ E) as (t & rest' & -> & M & [= ->]).
  exists rest. rewrite length_app, Nat.add_sub, firstn_app, Nat.sub_diag.
  cbn. rewrite firstn_all, app_nil_r. now split.
Qed.

Lemma exec_at_complete (r : regex) (t rest : jsstring) :
  Matches r t rest -> exists t', exec_at r (t ++ rest) = Some t'.
Proof.
  intros M. unfold exec_at.
  destruct (@m_complete r t rest M (fun x => Some x)) as [out Ho];
    [now exists rest|].
  rewrite Ho. eauto.
Qed.

Lemma search_sound (r : regex) (s t : jsstring) :
  search r s = Some t ->
  exists before after, s = before ++ t ++ after /\ Matches r t after.
Proof.
  induction s as [|x s IH]; cbn [search].
  - destruct (exec_at r []) as [u|] eqn:E; [|discriminate].
    intros [= ->]. destruct (exec_at_sound _ _ E) as (rest & Hs & M).
    exists [], rest. now split.
  - destruct (exec_at r (x :: s)) as [u|] eqn:E.
    + intros [= ->]. destruct (exec_at_sound _ _ E) as (rest & Hs & M).
      exists [], rest. now split.
    + intros H. destruct (IH H) as (before & after & -> & M).
      exists (x :: before), after. now split.
Qed.

Lemma test_occurs (r : regex) (s : jsstring) :
  test r s = true <-> Occurs r s.
Proof.
  unfold test, Occurs. split.
  - destruct (search r s) as [t|] eqn:E; [|discriminate]. intros _.
    destruct (search_sound _ _ E) as (before & after & -> & M).
    now exists before, t, after.
  - intros (before & t & after & -> & M).
    destruct (exec_at_complete M) as [t' Ht'].
    destruct (@search_finds r before (t ++ after) t' Ht') as [u Hu].
    now rewrite Hu.
Qed.

End MatcherFacts.

(* ===================================================================== *)
(** ** What parseError returns *)
(* ===================================================================== *)

Section Candidates.

Import Regex Semantics App.

Lemma source_file_shape (t rest : jsstring) :
  Matches source_file t rest -> SourcePath t.
Proof.
  unfold source_file. intros M.
  inversion M as [| |? ? t1 u1 ? M1 M2| | | | | | | |]; subst.
  inversion M1; subst.
  inversion M2 as [| |? ? stem u2 ? M3 M4| | | | | | | |]; subst.
  inversion M3 as [| | | | |? ? ? Hne Hp| | | | |]; subst.
  inversion M4 as [| |? ? t3 ext ? M5 M6| | | | | | | |]; subst.
  inversion M5; subst.
  exists stem, ext. repeat split; try assumption.
  inversion M6 as [| | | | | | | |? ? ? M7|? ?|]; subst.
  - inversion M7; subst. now right.
  - now left.
Qed.

(** The first match: no occurrence of the pattern starts before it. *)
Lemma search_leftmost (r : regex) (s t : jsstring) :
  search r s = Some t ->
  exists before after,
    s = before ++ t ++ after
    /\ Matches r t after
    /\ forall b' t' a',
         s = b' ++ t' ++ a' -> Matches r t' a' -> length before <= length b'.
Proof.
  induction s as [|x s IH]; cbn [search].
  - destruct (exec_at r []) as [u|] eqn:E; [|discriminate].
    intros [= ->]. destruct (exec_at_sound _ _ E) as (rest & Hs & M).
    exists [], rest. repeat split; try assumption. intros; cbn; lia.
  - destruct (exec_at r (x :: s)) as [u|] eqn:E.
    + intros [= ->]. destruct (exec_at_sound _ _ E) as (rest & Hs & M).
      exists [], rest. repeat split; try assumption. intros; cbn; lia.
    + intros H. destruct (IH H) as (before & after & -> & M & Hleft).
      exists (x :: before), after. repeat split; try assumption.
      intros b' t' a' Hs M'. destruct b' as [|y b'].
      * exfalso. destruct (exec_at_complete M') as [u Hu].
        cbn [app] in Hs. rewrite <- Hs in Hu. congruence.
      * cbn in Hs. injection Hs as -> Hs. cbn.
        specialize (Hleft _ _ _ Hs M'). lia.
Qed.

Lemma scan_error (ps : list regex) (text : jsstring) (c : ErrorInfo) :
  scan ps text = Some c -> ei_error c = slice_last 500 text.
Proof.
  induction ps as [|p ps IH]; cbn [scan]; [discriminate|].
  destruct (test p text); [|exact IH].
  destruct (search source_file text); [|exact IH].
  now intros [= <-].
Qed.

(** The candidate of [parseError]: its file has the shape of a source
    path and is the leftmost such path of the recent text; its error is
    the last 500 code units of that text. *)
Theorem candidate_shape (output : list jsstring) (c : ErrorInfo) :
  parseError output = Some c ->
  SourcePath (ei_file c)
  /\ (exists before after,
        recent_text output = before ++ ei_file c ++ after
        /\ forall b' t' a',
             recent_text output = b' ++ t' ++ a' ->
             Matches source_file t' a' -> length before <= length b')
  /\ ei_error c = slice_last 500 (recent_text output)
  /\ length (ei_error c) <= 500.
Proof.
  unfold parseError. intros H.
  pose proof (scan_error _ _ H) as He.
  destruct (scan_some _ _ H) as [_ Hs].
  destruct (search_leftmost _ _ Hs) as (before & after & Ht & M & Hleft).
  split; [eapply source_file_shape, M|].
  split; [|split; [exact He | rewrite He, slice_last_length; lia]].
  exists before, after. split; [exact Ht|].
  intros b' t' a' Hs' M'. eapply Hleft; eassumption.
Qed.

Lemma candidate_shape_witness :
  SourcePath (lit "src/App.tsx").
Proof.
  destruct (@candidate_shape Examples.ready_then_error
              (mkErrorInfo (lit "src/App.tsx")
                 (slice_last 500 (recent_text Examples.ready_then_error))))
    as [H _].
  - vm_compute. reflexivity.
  - exact H.
Defined.

(** A candidate is returned exactly when some pattern occurs in the
    recent text and a source path occurs in it. *)
Theorem candidate_iff (output : list jsstring) :
  (exists c, parseError output = Some c)
  <-> ((exists p, In p patterns /\ Occurs p (recent_text output))
       /\ Occurs source_file (recent_text output)).
Proof.
  unfold parseError. split.
  - intros [c H]. destruct (scan_some _ _ H) as [(p & Hp & Ht) Hs]. split.
    + exists p. split; [exact Hp | now apply test_occurs].
    + apply test_occurs. unfold test. now rewrite Hs.
  - intros [(p & Hp & Ho) Hfile].
    apply test_occurs in Ho. apply test_occurs in Hfile.
    unfold test in Hfile.
    destruct (search source_file (recent_text output)) as [t|] eqn:Hs;
      [|discriminate].
    clear Hfile. revert p Hp Ho.
    induction patterns as [|q ps IH]; intros p Hp Ho; [contradiction|].
    cbn [scan]. rewrite Hs. destruct (test q (recent_text output)) eqn:Hq.
    + eauto.
    + destruct Hp as [->|Hp]; [congruence|]. eapply IH; eassumption.
Qed.

Lemma slice_last_app_long (A : Type) (n : nat) (old recent : list A) :
  n <= length recent -> slice_last n (old ++ recent) = slice_last n recent.
Proof.
  intros H. unfold slice_last. rewrite length_app, skipn_app.
  replace (length old + length recent - n - length old)
    with (length recent - n) by lia.
  rewrite skipn_all2 by lia. reflexivity.
Qed.

(** Lines that have scrolled out of the last 60 have no influence. *)
Theorem parseError_sees_last_60 (old recent : list jsstring) :
  60 <= length recent ->
  parseError (old ++ recent) = parseError recent.
Proof.
  intros H. unfold parseError, recent_text.
  now rewrite slice_last_app_long.
Qed.

Lemma parseError_sees_last_60_witness :
  parseError (Samples.scrolled_out ++ Samples.sixty_lines)
  = parseError Samples.sixty_lines.
Proof.
  apply parseError_sees_last_60. vm_compute. repeat constructor.
Defined.

End Candidates.

(* ===================================================================== *)
(** ** flattenFiles and updateFileInTree *)
(* ===================================================================== *)

Section Trees.

Import Files FixEffect.

Lemma traverse_node_eq nm p t c ch :
  traverse_node (mkNode nm p t c ch) =
  (if is_file t then [mkNode nm p t c ch] else []) ++
  match ch with
  | Some nodes => flat_map traverse_node nodes
  | None => []
  end.
Proof.
  reflexivity.
Qed.

Lemma update_node_eq target fixedCode nm p t c ch :
  update_node target fixedCode (mkNode nm p t c ch) =
  if JS.eqb p target then mkNode nm p t (Some fixedCode) ch
  else match ch with
       | Some nodes =>
           mkNode nm p t c (Some (map (update_node target fixedCode) nodes))
       | None => mkNode nm p t c ch
       end.
Proof.
  cbn [update_node]. destruct (JS.eqb p target); [reflexivity|].
  destruct ch as [nodes|]; reflexivity.
Qed.

Lemma traverse_only_files (n : FileNode) :
  forall f, In f (traverse_node n) -> type f = file.
Proof.
  induction n as [nm p t c|nm p t c nodes IH] using FileNode_induction;
    intros f; rewrite traverse_node_eq; intros H;
    apply in_app_or in H as [H|H].
  - destruct t; [|contradiction]. destruct H as [<-|[]]. reflexivity.
  - contradiction.
  - destruct t; [|contradiction]. destruct H as [<-|[]]. reflexivity.
  - apply in_flat_map in H as (x & Hx & Hf).
    rewrite Forall_forall in IH. now apply (IH x Hx).
Qed.

(** [flattenFiles] returns nodes of type ['file'] only. *)
Theorem flattenFiles_only_files (files : list FileNode) (f : FileNode) :
  In f (flattenFiles files) -> type f = file.
Proof.
  unfold flattenFiles. intros H.
  apply in_flat_map in H as (x & _ & Hf). eapply traverse_only_files, Hf.
Qed.

Lemma flattenFiles_only_files_witness : type Examples.src_app = file.
Proof.
  apply (@flattenFiles_only_files Examples.two_apps).
  vm_compute. auto.
Defined.

Lemma same_but_content_refl target fixedCode (l : list FileNode) :
  Forall2 (same_but_content target fixedCode) l l.
Proof.
  induction l as [|x l IH]; constructor; [|exact IH].
  unfold same_but_content. auto.
Qed.

Lemma Forall2_flat_map (A B : Type) (R : B -> B -> Prop)
    (f g : A -> list B) (l : list A) :
  Forall (fun x => Forall2 R (f x) (g x)) l ->
  Forall2 R (flat_map f l) (flat_map g l).
Proof.
  induction 1 as [|x l Hx _ IH]; cbn; [constructor|].
  now apply Forall2_app.
Qed.

Lemma flat_map_map (A B C : Type) (f : B -> list C) (g : A -> B)
    (l : list A) :
  flat_map f (map g l) = flat_map (fun x => f (g x)) l.
Proof. induction l as [|x l IH]; cbn; [reflexivity | now rewrite IH]. Qed.

Lemma update_node_files target fixedCode (n : FileNode) :
  Forall2 (same_but_content target fixedCode)
          (traverse_node n) (traverse_node (update_node target fixedCode n)).
Proof.
  induction n as [nm p t c|nm p t c nodes IH] using FileNode_induction;
    rewrite update_node_eq; destruct (JS.eqb p target) eqn:E.
  - apply JS_eqb_eq in E. rewrite !traverse_node_eq. apply Forall2_app.
    + destruct t; cbn; constructor; [|constructor].
      unfold same_but_content. cbn. repeat split; auto.
    + constructor.
  - apply same_but_content_refl.
  - apply JS_eqb_eq in E. rewrite !traverse_node_eq. apply Forall2_app.
    + destruct t; cbn; constructor; [|constructor].
      unfold same_but_content. cbn. repeat split; auto.
    + apply same_but_content_refl.
  - rewrite !traverse_node_eq. apply Forall2_app.
    + destruct t; cbn; constructor; [|constructor].
      unfold same_but_content. cbn. repeat split; auto.
    + rewrite flat_map_map. now apply Forall2_flat_map.
Qed.

Lemma update_tree_files (target fixedCode : jsstring)
    (nodes : list FileNode) :
  Forall2 (same_but_content target fixedCode)
          (flattenFiles nodes)
          (flattenFiles (updateFileInTree target fixedCode nodes)).
Proof.
  unfold flattenFiles, updateFileInTree.
  rewrite flat_map_map.
  apply Forall2_flat_map, Forall_forall. intros n _.
  apply update_node_files.
Qed.

End Trees.

(* ===================================================================== *)
(** ** More on the output buffer *)
(* ===================================================================== *)

Section BufferMore.

Import Hook Invariants Frames.

Lemma same_but_buffer_refl (w : World) : same_but_buffer w w.
Proof. repeat split. Qed.

Lemma same_but_buffer_trans (w1 w2 w3 : World) :
  same_but_buffer w1 w2 -> same_but_buffer w2 w3 -> same_but_buffer w1 w3.
Proof.
  unfold same_but_buffer. intros H1 H2.
  decompose [and] H1. decompose [and] H2. repeat split; congruence.
Qed.

Lemma appendOutput_quiet (line : jsstring) (w : World) :
  same_but_buffer w (appendOutput line w).
Proof. unfold appendOutput. destruct (dropped line); repeat split. Qed.

Lemma fold_quiet (X : Type) (f : X -> World -> World) (xs : list X) :
  (forall x w, same_but_buffer w (f x w)) ->
  forall w, same_but_buffer w (fold_left (fun w' x => f x w') xs w).
Proof.
  intros Hf. induction xs as [|x xs IH]; intros w; cbn.
  - apply same_but_buffer_refl.
  - eapply same_but_buffer_trans; [apply Hf | apply IH].
Qed.

Lemma pipe_chunk_quiet (data : jsstring) (w : World) :
  same_but_buffer w (pipe_chunk data w).
Proof. unfold pipe_chunk. apply fold_quiet. intros; apply appendOutput_quiet. Qed.

Lemma pipe_output_quiet (chunks : list jsstring) (w : World) :
  same_but_buffer w (pipe_output chunks w).
Proof. unfold pipe_output. apply fold_quiet. intros; apply pipe_chunk_quiet. Qed.

Lemma buffer_appends (offered : list jsstring) (w : World) :
  terminalOutput (state (exec_all (map OpAppend offered) w)) =
  match kept offered with
  | [] => terminalOutput (state w)
  | _ :: _ => slice_last 101 (terminalOutput (state w) ++ kept offered)
  end.
Proof.
  induction offered as [|line offered IH] using rev_ind; [reflexivity|].
  unfold exec_all in *. rewrite map_app, fold_left_app.
  cbn [map fold_left exec]. rewrite buffer_appendOutput, IH.
  unfold kept. rewrite filter_app. cbn [filter].
  destruct (dropped line); cbn [negb]; [now rewrite app_nil_r|].
  destruct (filter _ offered) as [|k ks] eqn:E; cbn [app].
  - now rewrite slice_last_snoc.
  - rewrite app_comm_cons, app_assoc, slice_last_snoc. f_equal.
    apply slice_last_slice_last. lia.
Qed.

(** After a series of appends to any buffer, the buffer is the end of
    what it held followed by the accepted lines, in their order: at most
    101 lines of it, so that only the oldest lines are lost. *)
Theorem buffer_is_tail_of_accepted (offered : list jsstring) (w : World) :
  let buffer := terminalOutput (state (exec_all (map OpAppend offered) w)) in
  (exists evicted,
      terminalOutput (state w) ++ kept offered = evicted ++ buffer)
  /\ (kept offered = [] \/ length buffer <= 101).
Proof.
  cbn zeta. rewrite buffer_appends. destruct (kept offered) as [|k ks].
  - split; [exists []; now rewrite app_nil_r | now left].
  - split; [apply slice_last_suffix|].
    right. rewrite slice_last_length. lia.
Qed.

Lemma split_at_separator (c : char) (a b : jsstring) :
  split c (a ++ c :: b) = split c a ++ split c b.
Proof.
  induction a as [|x a IH]; cbn [app split].
  - now rewrite N.eqb_refl.
  - destruct (N.eqb x c); [now rewrite IH|].
    rewrite IH. pose proof (split_nonempty c a) as Hne.
    destruct (split c a) as [|seg segs]; [congruence | reflexivity].
Qed.

(** Two chunks written one after the other leave the world as the one
    chunk does that joins them with a newline: where an output stream is
    cut makes no difference, as long as it is cut between lines. *)
Theorem pipe_chunk_joined (a b : jsstring) (w : World) :
  pipe_chunk (a ++ newline :: b) w = pipe_chunk b (pipe_chunk a w).
Proof.
  unfold pipe_chunk. now rewrite split_at_separator, filter_app, fold_left_app.
Qed.

End BufferMore.

(* ===================================================================== *)
(** ** More on startDevServer, updateFile and boot *)
(* ===================================================================== *)

Section LifecycleMore.

Import Hook Frames.

Lemma await_boot_ready (answer : jserror + Instance) (w : World) (i : Instance) :
  webcontainerInstance (globals w) = Some i ->
  await_boot answer w = (inr i, w).
Proof. intros H. unfold await_boot, boot. now rewrite H. Qed.

Lemma updateFile_effect (path content : jsstring) (e : WriteRun)
    (w : World) (i : Instance) :
  webcontainerInstance (globals w) = Some i ->
  calls (updateFile path content e w) = calls w ++ [CWriteFile i path content]
  /\ same_but_buffer (issue (CWriteFile i path content) w)
                     (updateFile path content e w).
Proof.
  intros Hi. unfold updateFile, try_catch, bind.
  rewrite (await_boot_ready _ _ Hi). unfold await_writeFile, act.
  destruct (write_answer e) as [err|].
  - set (w1 := issue _ w). set (line := _ ++ _).
    pose proof (appendOutput_quiet line w1) as H. split; [|exact H].
    destruct H as (_ & _ & Hc & _). now rewrite Hc.
  - set (w1 := issue _ w). set (line := _ ++ _).
    pose proof (appendOutput_quiet line w1) as H. split; [|exact H].
    destruct H as (_ & _ & Hc & _). now rewrite Hc.
Qed.

(** [updateFile] with an instance at hand: one write is issued, with the
    path and the content given; whether the write succeeds or throws,
    nothing but the output buffer changes besides. *)
Theorem updateFile_one_write (path content : jsstring) (e : WriteRun)
    (w : World) (i : Instance) :
  webcontainerInstance (globals w) = Some i ->
  let w' := updateFile path content e w in
  calls w' = calls w ++ [CWriteFile i path content]
  /\ same_but_buffer (issue (CWriteFile i path content) w) w'.
Proof. apply updateFile_effect. Qed.

Lemma updateFile_one_write_witness :
  calls (updateFile (lit "src/App.tsx") (lit "fixed") Examples.writable
                    Examples.running_world)
  = calls Examples.running_world
    ++ [CWriteFile 0 (lit "src/App.tsx") (lit "fixed")].
Proof.
  apply (@updateFile_one_write (lit "src/App.tsx") (lit "fixed")
           Examples.writable Examples.running_world 0).
  reflexivity.
Defined.

(** What the buffer writers leave alone, as equations. *)
Lemma globals_appendOutput (line : jsstring) (w : World) :
  globals (appendOutput line w) = globals (w).
Proof. apply (appendOutput_quiet line w). Qed.
Lemma promises_appendOutput (line : jsstring) (w : World) :
  promises (appendOutput line w) = promises (w).
Proof. apply (appendOutput_quiet line w). Qed.
Lemma calls_appendOutput (line : jsstring) (w : World) :
  calls (appendOutput line w) = calls (w).
Proof. apply (appendOutput_quiet line w). Qed.
Lemma isBooting_appendOutput (line : jsstring) (w : World) :
  isBooting (state (appendOutput line w)) = isBooting (state (w)).
Proof. apply (appendOutput_quiet line w). Qed.
Lemma isInstalling_appendOutput (line : jsstring) (w : World) :
  isInstalling (state (appendOutput line w)) = isInstalling (state (w)).
Proof. apply (appendOutput_quiet line w). Qed.
Lemma isRunning_appendOutput (line : jsstring) (w : World) :
  isRunning (state (appendOutput line w)) = isRunning (state (w)).
Proof. apply (appendOutput_quiet line w). Qed.
Lemma previewUrl_appendOutput (line : jsstring) (w : World) :
  previewUrl (state (appendOutput line w)) = previewUrl (state (w)).
Proof. apply (appendOutput_quiet line w). Qed.
Lemma error_appendOutput (line : jsstring) (w : World) :
  error (state (appendOutput line w)) = error (state (w)).
Proof. apply (appendOutput_quiet line w). Qed.
Lemma isPreWarmed_appendOutput (line : jsstring) (w : World) :
  isPreWarmed (state (appendOutput line w)) = isPreWarmed (state (w)).
Proof. apply (appendOutput_quiet line w). Qed.
Lemma isPreWarming_appendOutput (line : jsstring) (w : World) :
  isPreWarming (state (appendOutput line w)) = isPreWarming (state (w)).
Proof. apply (appendOutput_quiet line w). Qed.
Lemma processRef_appendOutput (line : jsstring) (w : World) :
  processRef (state (appendOutput line w)) = processRef (state (w)).
Proof. apply (appendOutput_quiet line w). Qed.
Lemma globals_pipe_output (chunks : list jsstring) (w : World) :
  globals (pipe_output chunks w) = globals (w).
Proof. apply (pipe_output_quiet chunks w). Qed.
Lemma promises_pipe_output (chunks : list jsstring) (w : World) :
  promises (pipe_output chunks w) = promises (w).
Proof. apply (pipe_output_quiet chunks w). Qed.
Lemma calls_pipe_output (chunks : list jsstring) (w : World) :
  calls (pipe_output chunks w) = calls (w).
Proof. apply (pipe_output_quiet chunks w). Qed.
Lemma isBooting_pipe_output (chunks : list jsstring) (w : World) :
  isBooting (state (pipe_output chunks w)) = isBooting (state (w)).
Proof. apply (pipe_output_quiet chunks w). Qed.
Lemma isInstalling_pipe_output (chunks : list jsstring) (w : World) :
  isInstalling (state (pipe_output chunks w)) = isInstalling (state (w)).
Proof. apply (pipe_output_quiet chunks w). Qed.
Lemma isRunning_pipe_output (chunks : list jsstring) (w : World) :
  isRunning (state (pipe_output chunks w)) = isRunning (state (w)).
Proof. apply (pipe_output_quiet chunks w). Qed.
Lemma previewUrl_pipe_output (chunks : list jsstring) (w : World) :
  previewUrl (state (pipe_output chunks w)) = previewUrl (state (w)).
Proof. apply (pipe_output_quiet chunks w). Qed.
Lemma error_pipe_output (chunks : list jsstring) (w : World) :
  error (state (pipe_output chunks w)) = error (state (w)).
Proof. apply (pipe_output_quiet chunks w). Qed.
Lemma isPreWarmed_pipe_output (chunks : list jsstring) (w : World) :
  isPreWarmed (state (pipe_output chunks w)) = isPreWarmed (state (w)).
Proof. apply (pipe_output_quiet chunks w). Qed.
Lemma isPreWarming_pipe_output (chunks : list jsstring) (w : World) :
  isPreWarming (state (pipe_output chunks w)) = isPreWarming (state (w)).
Proof. apply (pipe_output_quiet chunks w). Qed.
Lemma processRef_pipe_output (chunks : list jsstring) (w : World) :
  processRef (state (pipe_output chunks w)) = processRef (state (w)).
Proof. apply (pipe_output_quiet chunks w). Qed.

Create Rewrite HintDb quiet.
#[local] Hint Rewrite globals_appendOutput
  promises_appendOutput
  calls_appendOutput
  isBooting_appendOutput
  isInstalling_appendOutput
  isRunning_appendOutput
  previewUrl_appendOutput
  error_appendOutput
  isPreWarmed_appendOutput
  isPreWarming_appendOutput
  processRef_appendOutput
  globals_pipe_output
  promises_pipe_output
  calls_pipe_output
  isBooting_pipe_output
  isInstalling_pipe_output
  isRunning_pipe_output
  previewUrl_pipe_output
  error_pipe_output
  isPreWarmed_pipe_output
  isPreWarming_pipe_output
  processRef_pipe_output : quiet.

Ltac settle_fields :=
  repeat (autorewrite with quiet; cbn -[appendOutput pipe_output]).

(** [startDevServer], when the install process cannot be spawned: the
    previous process has been killed, nothing else is spawned, the error
    is that of the spawn, and [isInstalling] is false again. *)
Theorem startDevServer_spawn_fails (e : DevServerRun) (w : World)
    (i : Instance) (err : jserror) :
  webcontainerInstance (globals w) = Some i ->
  install_spawn e = inl err ->
  let w' := startDevServer e w in
  calls w' = calls w ++ kill_calls w ++ [CSpawn i npm install_args]
  /\ error (state w') = Some (message_or (lit "Failed to start") err)
  /\ isInstalling (state w') = false
  /\ previewUrl (state w') = None
  /\ processRef (state w') = processRef (state w).
Proof.
  intros Hi Hs. unfold startDevServer, try_catch, bind.
  rewrite (await_boot_ready _ _ Hi).
  unfold kill_current, kill_calls, act, await_spawn. rewrite Hs.
  destruct (processRef (state w)) as [p|] eqn:Hp; settle_fields;
    rewrite ?Hp, <- ?app_assoc; auto.
Qed.

Lemma startDevServer_spawn_fails_witness :
  error (state (startDevServer
                  (mkRun (inr 0) (inl Examples.boot_error) [] 0%Z (inr 2))
                  Examples.running_world))
  = Some (lit "no memory").
Proof.
  apply (@startDevServer_spawn_fails
           (mkRun (inr 0) (inl Examples.boot_error) [] 0%Z (inr 2))
           Examples.running_world 0 Examples.boot_error);
    reflexivity.
Defined.

Lemma startDevServer_spawns (e : DevServerRun) (w : World)
    (i : Instance) (installProcess devProcess : Process) :
  webcontainerInstance (globals w) = Some i ->
  install_spawn e = inr installProcess ->
  dev_spawn e = inr devProcess ->
  let w' := startDevServer e w in
  calls w' = calls w ++ kill_calls w
             ++ [CSpawn i npm install_args; CSpawn i npm dev_args]
  /\ processRef (state w') = Some devProcess
  /\ isInstalling (state w') = true
  /\ previewUrl (state w') = None
  /\ error (state w') = error (state w)
  /\ isRunning (state w') = isRunning (state w)
  /\ globals w' = globals w.
Proof.
  intros Hi Hs Hd. unfold startDevServer, try_catch, bind.
  rewrite (await_boot_ready _ _ Hi).
  unfold kill_current, kill_calls, act, await_spawn, ret. rewrite Hs, Hd.
  destruct (processRef (state w)) as [p|] eqn:Hp; settle_fields;
    rewrite ?Hp, <- ?app_assoc; auto 10.
Qed.

(** [startDevServer], when both processes are spawned: the previous
    process is killed before the install is spawned, the dev server is
    spawned after it and becomes the active process; [isInstalling] is
    still true and [previewUrl] null when it returns, and the error is
    left as it was. *)
Theorem startDevServer_order (e : DevServerRun) (w : World)
    (i : Instance) (installProcess devProcess : Process) :
  webcontainerInstance (globals w) = Some i ->
  install_spawn e = inr installProcess ->
  dev_spawn e = inr devProcess ->
  let w' := startDevServer e w in
  calls w' = calls w ++ kill_calls w
             ++ [CSpawn i npm install_args; CSpawn i npm dev_args]
  /\ processRef (state w') = Some devProcess
  /\ isInstalling (state w') = true
  /\ previewUrl (state w') = None
  /\ error (state w') = error (state w)
  /\ isRunning (state w') = isRunning (state w)
  /\ globals w' = globals w.
Proof. apply startDevServer_spawns. Qed.

Lemma startDevServer_order_witness :
  processRef (state (startDevServer Examples.failed_install
                       Examples.running_world)) = Some 2.
Proof.
  apply (@startDevServer_order Examples.failed_install
           Examples.running_world 0 1 2); reflexivity.
Defined.

(** [startDevServer] on a page that has not booted, when the engine
    fails to boot: one boot is issued and nothing else, no process is
    killed or spawned, the error is set, and a later call may try again
    because [bootPromise] is empty. *)
Theorem startDevServer_boot_fails (e : DevServerRun) (w : World)
    (err : jserror) :
  webcontainerInstance (globals w) = None ->
  bootPromise (globals w) = None ->
  boot_answer e = inl err ->
  let w' := startDevServer e w in
  calls w' = calls w ++ [CBoot]
  /\ error (state w') = Some (message_or (lit "Failed to start") err)
  /\ isInstalling (state w') = false
  /\ isBooting (state w') = false
  /\ processRef (state w') = processRef (state w)
  /\ webcontainerInstance (globals w') = None
  /\ bootPromise (globals w') = None.
Proof.
  intros Hi Hp Ha. unfold startDevServer, try_catch, bind, await_boot.
  destruct (boot_fresh w Hi Hp) as (Hr & Hi' & Hp' & Hpr & _).
  destruct (boot w) as [r w1] eqn:Hb. cbn [fst snd] in *. subst r.
  assert (Hl : lookup (length (promises w)) w1 = Pending).
  { unfold lookup. rewrite Hpr. apply nth_last. }
  rewrite Hl, Ha.
  destruct (boot_settled_rejected err w1 Hp' Hl) as (Hi2 & Hp2 & _ & _).
  assert (Hcalls : calls w1 = calls w ++ [CBoot]).
  { unfold boot in Hb. rewrite Hi, Hp in Hb. injection Hb as <-.
    settle_fields. reflexivity. }
  assert (Hproc : processRef (state w1) = processRef (state w)).
  { unfold boot in Hb. rewrite Hi, Hp in Hb. injection Hb as <-.
    settle_fields. reflexivity. }
  unfold boot_settled in *. rewrite Hp', Hl in *.
  settle_fields. settle_fields. cbn in Hi2, Hp2.
  rewrite Hcalls, Hproc, Hi'. auto 10.
Qed.

Lemma startDevServer_boot_fails_witness :
  calls (startDevServer
           (mkRun (inl Examples.boot_error) (inr 1) [] 0%Z (inr 2)) initial)
  = calls initial ++ [CBoot].
Proof.
  apply (@startDevServer_boot_fails
           (mkRun (inl Examples.boot_error) (inr 1) [] 0%Z (inr 2))
           initial Examples.boot_error); reflexivity.
Defined.

End LifecycleMore.

(* ===================================================================== *)
(** ** The fix loop as a whole *)
(* ===================================================================== *)

Section Loop.

Import Files App LoopInvariants FixEffect.

Variable parse : jsstring -> option jsstring.

(** The three ways a call of [fixCodeError] can go. *)
Lemma fixCodeError_cases (errorFile errorText : jsstring) (a : App) :
  fixCodeError errorFile errorText a = (Dropped, a)
  \/ (exists a',
        fixCodeError errorFile errorText a = (Finished false, a')
        /\ fixingRef a = false
        /\ fixingRef a' = false /\ isFixing a' = false
        /\ inflight a' = inflight a
        /\ fixAttempts a' = S (fixAttempts a)
        /\ fetches a' = fetches a
        /\ terminalTimer a' = terminalTimer a
        /\ runtimeTimers a' = runtimeTimers a
        /\ world a' = world a)
  \/ (exists target a',
        fixCodeError errorFile errorText a = (Awaiting target, a')
        /\ fixingRef a = false
        /\ fixingRef a' = true /\ isFixing a' = true
        /\ inflight a' = Some target
        /\ fixAttempts a' = S (fixAttempts a)
        /\ fetches a' = fetches a
                        ++ [mkRequest errorText (path target) (content target)]
        /\ terminalTimer a' = terminalTimer a
        /\ runtimeTimers a' = runtimeTimers a
        /\ world a' = world a
        /\ has_content (Some target) = true
        /\ resolve (flattenFiles (filesRef a)) errorFile = Some target).
Proof.
  unfold fixCodeError. destruct (fixingRef a) eqn:Hf; [now left|].
  destruct (JS.eqb _ _); [now left|]. right. cbn [filesRef upd_fixAttempts
    upd_currentAction upd_isFixing upd_fixingRef upd_lastErrorRef].
  destruct (resolve (flattenFiles (filesRef a)) errorFile) as [target|] eqn:Hr.
  - destruct (has_content (Some target)) eqn:Hc.
    + right. eexists _, _. split; [reflexivity|]. cbn. auto 15.
    + left. eexists. split; [reflexivity|]. cbn. auto 15.
  - left. eexists. split; [reflexivity|]. cbn. auto 15.
Qed.

Lemma settled_facts target r e (a : App) :
  let a' := snd (fixCodeError_settled target r e a) in
  fixingRef a' = false /\ isFixing a' = false /\ inflight a' = None
  /\ fixAttempts a' = fixAttempts a
  /\ fetches a' = fetches a
  /\ terminalTimer a' = terminalTimer a
  /\ runtimeTimers a' = runtimeTimers a.
Proof.
  unfold fixCodeError_settled.
  destruct r as [err| |[fixedCode|]]; try (cbn; tauto).
  destruct (truthy fixedCode && content_differs fixedCode target); cbn; tauto.
Qed.

Lemma terminal_effect_rest (a : App) :
  fixingRef (terminal_effect a) = fixingRef a
  /\ isFixing (terminal_effect a) = isFixing a
  /\ inflight (terminal_effect a) = inflight a
  /\ runtimeTimers (terminal_effect a) = runtimeTimers a
  /\ (terminalTimer (terminal_effect a) <> None ->
      fixAttempts a < MAX_FIX_ATTEMPTS).
Proof.
  unfold terminal_effect.
  destruct (negb (idle_and_running _)); [cbn; intuition congruence|].
  destruct (negb (budget_left _)) eqn:Hb; [cbn; intuition congruence|].
  assert (Hlt : fixAttempts a < MAX_FIX_ATTEMPTS).
  { unfold budget_left in Hb. cbn [fixAttempts upd_terminalTimer] in Hb.
    rewrite negb_involutive in Hb. now apply Nat.leb_gt in Hb. }
  destruct (parseError _) as [errorInfo|]; [|cbn; tauto].
  destruct (truthy (ei_file errorInfo)); cbn; tauto.
Qed.

Lemma handleRuntimeError_facts (d : MessageData) (a : App) :
  let a' := handleRuntimeError parse d a in
  fixingRef a' = fixingRef a /\ isFixing a' = isFixing a
  /\ inflight a' = inflight a
  /\ fixAttempts a' = fixAttempts a
  /\ fetches a' = fetches a
  /\ terminalTimer a' = terminalTimer a.
Proof.
  unfold handleRuntimeError.
  destruct (negb (JS.eqb _ _)); [tauto|].
  destruct (negb (idle_and_running a)); [tauto|].
  destruct (negb (budget_left a)); [tauto|].
  destruct (parse (md_stack d)) as [filePath|]; [|cbn; tauto].
  destruct (truthy filePath); cbn; tauto.
Qed.









Lemma fixCodeError_consistent errorFile errorText (a a0 : App) :
  fixingRef a0 = fixingRef a -> isFixing a0 = isFixing a ->
  inflight a0 = inflight a ->
  consistent a -> consistent (snd (fixCodeError errorFile errorText a0)).
Proof.
  intros H1 H2 H3 [Ha Hb].
  destruct (fixCodeError_cases errorFile errorText a0)
    as [E|[(a' & E & Hf & Hf' & Hi' & Hin & _)
          |(target & a' & E & Hf & Hf' & Hi' & Hin & _)]];
    rewrite E; cbn [snd]; unfold consistent.
  - now rewrite H1, H2, H3.
  - rewrite Hf', Hi', Hin, H3. split; [reflexivity|].
    rewrite <- Hb, <- H1, Hf. split; intros; discriminate.
  - rewrite Hf', Hi', Hin. split; [reflexivity|].
    split; [discriminate | reflexivity].
Qed.

Lemma handle_consistent (ev : event) (a : App) :
  consistent a -> consistent (handle parse ev a).
Proof.
  intros Hc. destruct ev as [data|url|d| | |r e]; cbn [handle].
  - exact Hc.
  - exact Hc.
  - destruct (handleRuntimeError_facts d a) as (H1 & H2 & H3 & _).
    unfold consistent in *. now rewrite H1, H2, H3.
  - destruct (terminalTimer a) as [t|]; [|exact Hc].
    now apply fixCodeError_consistent with (a := a).
  - destruct (runtimeTimers a) as [|t ts]; [exact Hc|].
    now apply fixCodeError_consistent with (a := a).
  - destruct (inflight a) as [target|]; [|exact Hc].
    destruct (settled_facts target r e a) as (H1 & H2 & H3 & _).
    unfold consistent. cbv zeta in *. rewrite H1, H2, H3.
    split; [reflexivity|]. split; [discriminate | congruence].
Qed.

Lemma step_consistent (ev : event) (a : App) :
  consistent a -> consistent (step parse ev a).
Proof.
  intros Hc. apply (handle_consistent ev) in Hc. unfold step.
  destruct (deps_changed _ _); [|exact Hc].
  destruct (terminal_effect_rest (handle parse ev a)) as (Hf & Hi & Hin & _).
  unfold consistent in *. now rewrite Hf, Hi, Hin.
Qed.

Lemma run_consistent (evs : list event) (a : App) :
  consistent a -> consistent (run parse evs a).
Proof.
  revert a. induction evs as [|ev evs IH]; intros a Hc; [exact Hc|].
  cbn [run fold_left]. apply IH, step_consistent, Hc.
Qed.

Lemma busy_drops errorFile errorText (a0 : App) :
  fixingRef a0 = true ->
  fixCodeError errorFile errorText a0 = (Dropped, a0).
Proof. intros H. unfold fixCodeError. now rewrite H. Qed.

(** While a fix is in flight, nothing but the answer of the fixer sends
    a request, counts an attempt or replaces the fix awaited: timeouts
    that fire meanwhile are used up without effect.  The answer, whatever
    it is, ends the flight. *)
Theorem one_fix_in_flight (evs : list event) (a : App)
    (target : FileNode) (ev : event) :
  consistent a ->
  inflight (run parse evs a) = Some target ->
  let busy := run parse evs a in
  (is_settle ev = false ->
   fetches (step parse ev busy) = fetches busy
   /\ fixAttempts (step parse ev busy) = fixAttempts busy
   /\ inflight (step parse ev busy) = Some target)
  /\ (is_settle ev = true ->
      inflight (step parse ev busy) = None
      /\ fixingRef (step parse ev busy) = false
      /\ fetches (step parse ev busy) = fetches busy).
Proof.
  intros Hc Hin busy. apply (run_consistent evs) in Hc. fold busy in Hc, Hin.
  assert (Hbusy : fixingRef busy = true)
    by (apply Hc; rewrite Hin; discriminate).
  assert (Heffect : forall x,
             fetches (if deps_changed busy x then terminal_effect x else x)
             = fetches x
             /\ fixAttempts (if deps_changed busy x then terminal_effect x else x)
                = fixAttempts x
             /\ inflight (if deps_changed busy x then terminal_effect x else x)
                = inflight x
             /\ fixingRef (if deps_changed busy x then terminal_effect x else x)
                = fixingRef x).
  { intros x. destruct (deps_changed busy x); [|tauto].
    destruct (terminal_effect_frame x) as (_ & _ & _ & _ & _ & Hat & Hfe).
    destruct (terminal_effect_rest x) as (Hf & _ & Hi & _). tauto. }
  unfold step.
  destruct (Heffect (handle parse ev busy)) as (E1 & E2 & E3 & E4).
  rewrite E1, E2, E3, E4. clear Heffect E1 E2 E3 E4.
  split; intros Hev; destruct ev as [data|url|d| | |r e];
    try discriminate; cbn [handle].
  - now rewrite <- Hin.
  - now rewrite <- Hin.
  - destruct (handleRuntimeError_facts d busy) as (_ & _ & H3 & H4 & H5 & _).
    now rewrite H3, H4, H5.
  - destruct (terminalTimer busy) as [t|]; [|tauto].
    unfold run_timer. rewrite busy_drops by exact Hbusy. cbn. tauto.
  - destruct (runtimeTimers busy) as [|t ts]; [tauto|].
    unfold run_timer. rewrite busy_drops by exact Hbusy. cbn. tauto.
  - rewrite Hin.
    destruct (settled_facts target r e busy) as (H1 & _ & H3 & _ & H5 & _).
    tauto.
Qed.


Lemma handle_terminal_only (ev : event) (a : App) :
  is_message ev = false -> terminal_only a ->
  terminal_only (handle parse ev a).
Proof.
  intros Hev Hinv. pose proof Hinv as (Hr & Hle & Hlt).
  destruct ev as [data|url|d| | |r e]; try discriminate; cbn [handle].
  - exact Hinv.
  - exact Hinv.
  - destruct (terminalTimer a) as [t|] eqn:Ht; [|exact Hinv].
    assert (Hlt' : fixAttempts a < MAX_FIX_ATTEMPTS)
      by (apply Hlt; discriminate).
    unfold run_timer.
    destruct (fixCodeError_cases (ei_file t) (ei_error t)
                (upd_terminalTimer (fun _ => None) a))
      as [E|[(a' & E & _ & _ & _ & _ & Hat & _ & Htt & Hrt & _)
            |(target & a' & E & _ & _ & _ & _ & Hat & _ & Htt & Hrt & _)]];
      rewrite E; cbn [snd]; unfold terminal_only.
    + cbn. repeat split; [exact Hr | exact Hle | congruence].
    + rewrite Hat, Htt, Hrt. cbn. repeat split; [exact Hr | lia | congruence].
    + rewrite Hat, Htt, Hrt. cbn. repeat split; [exact Hr | lia | congruence].
  - rewrite Hr. exact Hinv.
  - destruct (inflight a) as [target|]; [|exact Hinv].
    destruct (settled_facts target r e a) as (_ & _ & _ & H4 & _ & H6 & H7).
    unfold terminal_only. cbv zeta in *. rewrite H4, H6, H7. exact Hinv.
Qed.

Lemma step_terminal_only (ev : event) (a : App) :
  is_message ev = false -> terminal_only a ->
  terminal_only (step parse ev a).
Proof.
  intros Hev H. apply (handle_terminal_only ev) in H; [|exact Hev].
  unfold step. destruct (deps_changed _ _); [|exact H].
  destruct H as (Hr & Hle & _).
  destruct (terminal_effect_frame (handle parse ev a))
    as (_ & _ & _ & _ & _ & Hat & _).
  destruct (terminal_effect_rest (handle parse ev a))
    as (_ & _ & _ & Hrt & Hlt).
  unfold terminal_only. rewrite Hat, Hrt.
  split; [exact Hr | split; [exact Hle | exact Hlt]].
Qed.

(** With the terminal as the only trigger (no message from the preview
    arrives and no timeout of the message handler is pending), the
    counter never exceeds [MAX_FIX_ATTEMPTS], and a timeout is pending
    only while the budget is not used up. *)
Theorem terminal_trigger_keeps_budget (evs : list event) (a : App) :
  terminal_only a ->
  forallb (fun ev => negb (is_message ev)) evs = true ->
  terminal_only (run parse evs a).
Proof.
  revert a. induction evs as [|ev evs IH]; intros a Ha Hevs; [exact Ha|].
  cbn [forallb] in Hevs. apply andb_true_iff in Hevs as [Hev Hevs].
  apply negb_true_iff in Hev.
  cbn [run fold_left]. apply IH; [|exact Hevs].
  now apply step_terminal_only.
Qed.


Lemma settled_fix_effect (target : FileNode) (c fixedCode : jsstring)
    (e : Hook.WriteRun) (a : App) (i : Hook.Instance) :
  inflight a = Some target ->
  content target = Some c ->
  fixedCode <> [] -> fixedCode <> c ->
  Hook.webcontainerInstance (Hook.globals (world a)) = Some i ->
  let a' := step parse (FixerSettles (Ok (Some fixedCode)) e) a in
  Hook.calls (world a')
  = Hook.calls (world a) ++ [Hook.CWriteFile i (path target) fixedCode]
  /\ Forall2 (same_but_content (path target) fixedCode)
             (flattenFiles (filesRef a)) (flattenFiles (files a'))
  /\ filesRef a' = files a'
  /\ fixCount a' = S (fixCount a)
  /\ fixLog a' = fixLog a ++ [LogFixed (path target)]
  /\ fixingRef a' = false /\ inflight a' = None.
Proof.
  intros Hin Hc Hne Hdiff Hi a'.
  assert (Htest : truthy fixedCode && content_differs fixedCode target = true).
  { unfold content_differs. rewrite Hc.
    destruct fixedCode; [congruence|]. cbn [truthy andb].
    apply negb_true_iff. destruct (JS.eqb _ c) eqn:E; [|reflexivity].
    apply JS_eqb_eq in E. congruence. }
  set (h := handle parse (FixerSettles (Ok (Some fixedCode)) e) a).
  assert (Hh : Hook.calls (world h)
               = Hook.calls (world a)
                 ++ [Hook.CWriteFile i (path target) fixedCode]
             /\ files h = updateFileInTree (path target) fixedCode (filesRef a)
             /\ filesRef h = files h
             /\ fixCount h = S (fixCount a)
             /\ fixLog h = fixLog a ++ [LogFixed (path target)]
             /\ fixingRef h = false /\ inflight h = None).
  { subst h. cbn [handle]. rewrite Hin. unfold fixCodeError_settled.
    rewrite Htest. cbn.
    destruct (updateFile_effect (path target) fixedCode e (world a) Hi)
      as [Hcalls _].
    rewrite Hcalls. auto 10. }
  destruct Hh as (H1 & H2 & H3 & H4 & H5 & H6 & H7).
  assert (Hstep : Hook.calls (world a') = Hook.calls (world h)
                  /\ files a' = files h /\ filesRef a' = filesRef h
                  /\ fixCount a' = fixCount h /\ fixLog a' = fixLog h
                  /\ fixingRef a' = fixingRef h /\ inflight a' = inflight h).
  { subst a'. unfold step. fold h. destruct (deps_changed a h); [|tauto].
    destruct (terminal_effect_frame h) as (F1 & F2 & F3 & F4 & F5 & _).
    destruct (terminal_effect_rest h) as (G1 & _ & G3 & _).
    rewrite F1, F2, F3, F4, F5, G1, G3. tauto. }
  destruct Hstep as (S1 & S2 & S3 & S4 & S5 & S6 & S7).
  rewrite S1, S2, S3, S4, S5, S6, S7, H1, H2 at 1.
  repeat split; try assumption.
  - apply update_tree_files.
  - congruence.
Qed.

End Loop.

Section LoopWitnesses.

Import Files App LoopInvariants.

Lemma session_consistent : consistent Examples.session.
Proof. split; [reflexivity|]. split; [discriminate|]. intros H. now elim H. Qed.

Lemma one_fix_in_flight_witness :
  let busy := run parseStackTrace
                  (Examples.one_by_one ++ Examples.burst) Examples.session in
  fetches (step parseStackTrace RuntimeTimeout busy) = fetches busy.
Proof.
  refine (proj1 (proj1 (@one_fix_in_flight parseStackTrace
            (Examples.one_by_one ++ Examples.burst) Examples.session
            Examples.src_app RuntimeTimeout _ _) eq_refl)).
  - split; [reflexivity|]. split; [discriminate|]. intros H. now elim H.
  - vm_compute. reflexivity.
Defined.

Lemma terminal_trigger_keeps_budget_witness :
  fixAttempts (run parseStackTrace Samples.terminal_run Examples.session)
  <= MAX_FIX_ATTEMPTS.
Proof.
  refine (proj1 (proj2 (@terminal_trigger_keeps_budget parseStackTrace
            Samples.terminal_run Examples.session _ _))).
  - split; [reflexivity|]. split; [vm_compute; lia | intros H; now elim H].
  - reflexivity.
Defined.

End LoopWitnesses.

(* ===================================================================== *)
(** ** toWebContainerFS *)
(* ===================================================================== *)

Section Placing.

Import Files FS FSSpec.

Lemma tree_eta (t : Tree) : mkTree (own t) (proto t) = t.
Proof. now destruct t. Qed.

Lemma assoc_set_eq key v l : assoc key (assoc_set key v l) = Some v.
Proof.
  induction l as [|[k v'] l IH]; cbn.
  - now rewrite JS_eqb_refl.
  - destruct (JS.eqb k key) eqn:E; cbn; now rewrite E.
Qed.

Lemma assoc_set_other key key' v l :
  key <> key' -> assoc key' (assoc_set key v l) = assoc key' l.
Proof.
  intros Hne. induction l as [|[k v'] l IH]; cbn.
  - destruct (JS.eqb key key') eqn:E; [|reflexivity].
    apply JS_eqb_eq in E. contradiction.
  - destruct (JS.eqb k key) eqn:E; cbn.
    + apply JS_eqb_eq in E. subst k.
      destruct (JS.eqb key key') eqn:E'; [|reflexivity].
      apply JS_eqb_eq in E'. contradiction.
    + now rewrite IH.
Qed.

Lemma assoc_set_same key v l :
  assoc key l = Some v -> assoc_set key v l = l.
Proof.
  induction l as [|[k v'] l IH]; cbn; [discriminate|].
  destruct (JS.eqb k key).
  - now intros [= ->].
  - intros H. now rewrite IH.
Qed.

Lemma proto_free_directory o p :
  proto_free_node (Directory o p) = true <->
  p = None /\ forallb (fun kv => proto_free_node (snd kv)) o = true.
Proof.
  cbn [proto_free_node]. destruct p as [c|].
  - split; [discriminate | intros [H _]; discriminate].
  - split.
    + intros H. split; [reflexivity|].
      induction o as [|[k v] o IH]; [reflexivity|].
      cbn. apply andb_true_iff in H as [Hv H]. now rewrite Hv, IH.
    + intros [_ H]. induction o as [|[k v] o IH]; [reflexivity|].
      cbn in H. apply andb_true_iff in H as [Hv H]. now rewrite Hv, IH.
Qed.

Lemma proto_free_assoc key o v :
  forallb (fun kv => proto_free_node (snd kv)) o = true ->
  assoc key o = Some v -> proto_free_node v = true.
Proof.
  induction o as [|[k v'] o IH]; cbn; [discriminate|].
  intros H. apply andb_true_iff in H as [Hv H].
  destruct (JS.eqb k key); [now intros [= <-] | now apply IH].
Qed.

Lemma proto_free_assoc_set key o v :
  forallb (fun kv => proto_free_node (snd kv)) o = true ->
  proto_free_node v = true ->
  forallb (fun kv => proto_free_node (snd kv)) (assoc_set key v o) = true.
Proof.
  intros H Hv. induction o as [|[k v'] o IH]; cbn.
  - now rewrite Hv.
  - cbn in H. apply andb_true_iff in H as [Hv' H].
    destruct (JS.eqb k key); cbn.
    + now rewrite Hv, H.
    + now rewrite Hv', IH.
Qed.

Lemma proto_free_sub (t : Tree) key o p :
  proto_free t -> assoc key (own t) = Some (Directory o p) ->
  proto_free (mkTree o p).
Proof.
  unfold proto_free, directory_of. intros H Ha.
  apply proto_free_directory in H as [_ H].
  exact (proto_free_assoc _ _ H Ha).
Qed.

Lemma proto_free_set_own (t : Tree) key v :
  proto_free t -> proto_free_node v = true -> proto_free (set_own key v t).
Proof.
  unfold proto_free, directory_of, set_own. cbn [own proto]. intros H Hv.
  apply proto_free_directory in H as [Hp H].
  apply proto_free_directory. split; [exact Hp|].
  now apply proto_free_assoc_set.
Qed.

Lemma proto_free_empty : proto_free empty.
Proof. reflexivity. Qed.

Lemma proto_free_none (t : Tree) : proto_free t -> proto t = None.
Proof.
  unfold proto_free, directory_of. intros H.
  now apply proto_free_directory in H as [Hp _].
Qed.

(** In a tree without replaced prototypes, a plain key is found among
    the own keys or not at all. *)
Lemma get_plain (t : Tree) (key : jsstring) :
  proto_free t -> is_inherited key = false ->
  get t key = match assoc key (own t) with
              | Some n => Own n
              | None => Undefined
              end.
Proof.
  intros Ht Hk. unfold get. rewrite Hk, (proto_free_none Ht).
  reflexivity.
Qed.

Lemma plain_not_proto (key : jsstring) :
  is_inherited key = false -> JS.eqb key (lit "__proto__") = false.
Proof.
  intros H. destruct (JS.eqb key (lit "__proto__")) eqn:E; [|reflexivity].
  apply JS_eqb_eq in E. subst key. discriminate.
Qed.

Lemma plain_cons part rest :
  plain (part :: rest) -> is_inherited part = false /\ plain rest.
Proof.
  unfold plain. cbn. intros H. apply andb_true_iff in H as [H1 H2].
  apply negb_true_iff in H1. now split.
Qed.


Lemma key_eq_dec (a b : jsstring) : {a = b} + {a <> b}.
Proof. apply list_eq_dec, N.eq_dec. Qed.

Lemma lookup_empty (r : list jsstring) : lookup_path r empty = None.
Proof. destruct r as [|k [|k' r]]; reflexivity. Qed.

Lemma lookup_set_own_other key k v r (t : Tree) :
  key <> k -> lookup_path (k :: r) (set_own key v t) = lookup_path (k :: r) t.
Proof.
  intros Hne. destruct r as [|k' r]; cbn [lookup_path set_own own];
    now rewrite assoc_set_other.
Qed.

Lemma lookup_set_own_here key v (t : Tree) :
  lookup_path [key] (set_own key v t) = Some v.
Proof. cbn. apply assoc_set_eq. Qed.

Lemma lookup_set_own_below key d r (t : Tree) :
  r <> [] ->
  lookup_path (key :: r) (set_own key (directory_of d) t) = lookup_path r d.
Proof.
  intros Hr. destruct r as [|k' r]; [congruence|]. destruct d as [o p].
  cbn [lookup_path set_own own directory_of proto]. now rewrite assoc_set_eq.
Qed.

Lemma lookup_set_own_file key c r (t : Tree) :
  r <> [] ->
  lookup_path (key :: r) (set_own key (File c) t) = None.
Proof.
  intros Hr. destruct r as [|k' r]; [congruence|].
  cbn [lookup_path set_own own]. now rewrite assoc_set_eq.
Qed.

(** One step of the walk through a directory, or through a place where
    there is nothing yet: the walk goes on in [d], the directory found
    or an empty one, and what was below the part is what is in [d]. *)
Lemma place_step part rest leaf (t : Tree) :
  rest <> [] -> proto_free t -> plain (part :: rest) ->
  passable (part :: rest) t = true ->
  exists d,
    proto_free d
    /\ passable rest d = true
    /\ place (part :: rest) leaf t
       = set_own part (directory_of (place rest leaf d)) t
    /\ (forall r, r <> [] -> lookup_path (part :: r) t = lookup_path r d)
    /\ (lookup_path [part] t = None
        \/ lookup_path [part] t = Some (directory_of d)).
Proof.
  intros Hrest Ht Hplain Hpass.
  destruct (plain_cons Hplain) as [Hpart _].
  destruct rest as [|part' rest]; [congruence|].
  cbn [place passable] in *. rewrite (get_plain _ Ht Hpart).
  destruct (assoc part (own t)) as [[c|target|o p]|] eqn:Ha;
    try discriminate.
  - exists (mkTree o p). repeat split.
    + eapply proto_free_sub; eassumption.
    + exact Hpass.
    + intros r Hr. destruct r as [|k r]; [congruence|].
      cbn [lookup_path]. now rewrite Ha.
    + right. cbn. exact Ha.
  - exists empty. repeat split.
    + destruct rest; reflexivity.
    + intros r Hr. rewrite lookup_empty.
      destruct r as [|k r]; [congruence|]. cbn [lookup_path]. now rewrite Ha.
    + left. cbn. exact Ha.
Qed.

Lemma place_proto_free q leaf :
  forall t, plain q -> proto_free t -> proto_free (place q leaf t).
Proof.
  induction q as [|part rest IH]; intros t Hplain Ht; [exact Ht|].
  destruct (plain_cons Hplain) as [Hpart Hrest].
  destruct rest as [|part' rest].
  - cbn [place]. unfold put_leaf. destruct leaf as [|c].
    + rewrite (get_plain _ Ht Hpart).
      destruct (assoc part (own t)); [exact Ht|].
      now apply proto_free_set_own.
    + rewrite (plain_not_proto _ Hpart). now apply proto_free_set_own.
  - cbn [place]. rewrite (get_plain _ Ht Hpart).
    destruct (assoc part (own t)) as [[c|target|o p]|] eqn:Ha.
    + now apply IH.
    + now apply IH.
    + apply proto_free_set_own; [exact Ht|]. apply IH; [exact Hrest|].
      eapply proto_free_sub; eassumption.
    + apply proto_free_set_own; [exact Ht|]. apply IH; [exact Hrest|].
      apply proto_free_empty.
Qed.

(** A file is found where it has been placed. *)
Lemma place_found q c :
  forall t, q <> [] -> plain q -> proto_free t -> passable q t = true ->
            lookup_path q (place q (LFile c) t) = Some (File (Text c)).
Proof.
  induction q as [|part rest IH]; intros t Hq Hplain Ht Hpass; [congruence|].
  destruct (plain_cons Hplain) as [Hpart Hrest].
  destruct rest as [|part' rest].
  - cbn [place]. unfold put_leaf. rewrite (plain_not_proto _ Hpart).
    apply lookup_set_own_here.
  - destruct (@place_step part (part' :: rest) (LFile c) t)
      as (d & Hd & Hpd & -> & _); try assumption; try discriminate.
    rewrite lookup_set_own_below by discriminate.
    apply IH; try assumption. discriminate.
Qed.

(** A file already there stays, unless another file is put in its place
    or on the way to it. *)
Lemma place_keeps q leaf :
  forall t r c,
    plain q -> proto_free t -> passable q t = true ->
    lookup_path r t = Some (File c) ->
    leaf = LDirectory \/ (r <> q /\ ~ proper_prefix q r) ->
    lookup_path r (place q leaf t) = Some (File c).
Proof.
  induction q as [|part rest IH]; intros t r c Hplain Ht Hpass Hr Hleaf;
    [exact Hr|].
  destruct (plain_cons Hplain) as [Hpart Hrest].
  destruct r as [|k r]; [discriminate|].
  destruct rest as [|part' rest].
  - cbn [place]. unfold put_leaf. destruct leaf as [|c'].
    + rewrite (get_plain _ Ht Hpart).
      destruct (assoc part (own t)) eqn:Ha; [exact Hr|].
      destruct (key_eq_dec part k) as [<-|Hne].
      * destruct r; cbn in Hr; rewrite Ha in Hr; discriminate.
      * now rewrite lookup_set_own_other.
    + rewrite (plain_not_proto _ Hpart).
      destruct Hleaf as [|[Hne Hpp]]; [discriminate|].
      destruct (key_eq_dec part k) as [<-|Hk].
      * exfalso. destruct r as [|k' r]; [congruence|].
        apply Hpp. exists (k' :: r). split; [discriminate | reflexivity].
      * now rewrite lookup_set_own_other.
  - destruct (@place_step part (part' :: rest) leaf t)
      as (d & Hd & Hpd & -> & Hbelow & Hhere); try assumption;
      try discriminate.
    destruct (key_eq_dec part k) as [<-|Hk];
      [|now rewrite lookup_set_own_other].
    destruct r as [|k' r].
    + destruct Hhere as [H|H]; rewrite H in Hr; discriminate.
    + rewrite lookup_set_own_below by discriminate.
      rewrite Hbelow in Hr by discriminate.
      apply IH; try assumption.
      destruct Hleaf as [->|[Hne Hpp]]; [now left | right]. split.
      * congruence.
      * intros (more & Hmore & E). apply Hpp. exists more.
        split; [exact Hmore|]. cbn. now rewrite E.
Qed.

(** An entry of the result that is not a directory is the file just
    placed, or was there before. *)
Lemma place_origin q leaf :
  forall t r x,
    plain q -> proto_free t -> passable q t = true ->
    lookup_path r (place q leaf t) = Some x ->
    (forall o p, x <> Directory o p) ->
    (r = q /\ exists s, leaf = LFile s /\ x = File (Text s))
    \/ lookup_path r t = Some x.
Proof.
  induction q as [|part rest IH]; intros t r x Hplain Ht Hpass Hr Hx;
    [now right|].
  destruct (plain_cons Hplain) as [Hpart Hrest].
  destruct r as [|k r]; [destruct (place _ _ _); discriminate|].
  destruct rest as [|part' rest].
  - cbn [place] in Hr. unfold put_leaf in Hr. destruct leaf as [|c'].
    + rewrite (get_plain _ Ht Hpart) in Hr.
      destruct (assoc part (own t)) eqn:Ha; [now right|].
      destruct (key_eq_dec part k) as [<-|Hne].
      * exfalso. destruct r as [|k' r].
        -- rewrite lookup_set_own_here in Hr. injection Hr as <-.
           now apply (Hx [] None).
        -- rewrite lookup_set_own_below in Hr by discriminate.
           rewrite lookup_empty in Hr. discriminate.
      * right. now rewrite lookup_set_own_other in Hr.
    + rewrite (plain_not_proto _ Hpart) in Hr.
      destruct (key_eq_dec part k) as [<-|Hne].
      * destruct r as [|k' r].
        -- rewrite lookup_set_own_here in Hr. injection Hr as <-.
           left. split; [reflexivity|]. now exists c'.
        -- rewrite lookup_set_own_file in Hr by discriminate. discriminate.
      * right. now rewrite lookup_set_own_other in Hr.
  - destruct (@place_step part (part' :: rest) leaf t)
      as (d & Hd & Hpd & E & Hbelow & Hhere); try assumption;
      try discriminate.
    rewrite E in Hr.
    destruct (key_eq_dec part k) as [<-|Hk];
      [|right; now rewrite lookup_set_own_other in Hr].
    destruct r as [|k' r].
    + rewrite lookup_set_own_here in Hr. injection Hr as <-.
      exfalso. now apply (Hx (own (place (part' :: rest) leaf d))
                             (proto (place (part' :: rest) leaf d))).
    + rewrite lookup_set_own_below in Hr by discriminate.
      destruct (IH d (k' :: r) x) as [[Hq Hs]|Hold]; try assumption.
      * left. split; [now rewrite Hq | exact Hs].
      * right. now rewrite Hbelow by discriminate.
Qed.

(** Where no file lies on the way, the walk is through directories. *)
Lemma passable_when_clear q :
  forall t,
    (forall r x, proper_prefix r q -> lookup_path r t = Some x ->
                 exists o p, x = Directory o p) ->
    passable q t = true.
Proof.
  induction q as [|part rest IH]; intros t H; [reflexivity|].
  destruct rest as [|part' rest]; [reflexivity|].
  cbn [passable].
  destruct (assoc part (own t)) as [[c|target|o p]|] eqn:Ha;
    try reflexivity.
  - destruct (H [part] (File c)) as (o & p & E); try discriminate.
    + exists (part' :: rest). split; [discriminate | reflexivity].
    + cbn. exact Ha.
  - destruct (H [part] (Symlink target)) as (o & p & E); try discriminate.
    + exists (part' :: rest). split; [discriminate | reflexivity].
    + cbn. exact Ha.
  - apply IH. intros r x (more & Hmore & E) Hr.
    destruct r as [|k r]; [cbn in Hr; destruct part'; discriminate|].
    apply (H (part :: k :: r) x).
    + exists more. split; [exact Hmore|]. cbn. now rewrite E.
    + cbn [lookup_path]. now rewrite Ha.
Qed.

End Placing.

Section Mounting.

Import Files FS FSSpec.

Lemma fold_left_flat_map (A B C : Type) (f : A -> C -> A) (g : B -> list C)
    (l : list B) (a : A) :
  fold_left f (flat_map g l) a
  = fold_left (fun a' x => fold_left f (g x) a') l a.
Proof.
  revert a. induction l as [|x l IH]; intros a; [reflexivity|].
  cbn. now rewrite fold_left_app, IH.
Qed.

Lemma fold_left_same (A B : Type) (f g : A -> B -> A) (l : list B) (a : A) :
  (forall a' x, f a' x = g a' x) -> fold_left f l a = fold_left g l a.
Proof.
  intros H. revert a. induction l as [|x l IH]; intros a; [reflexivity|].
  cbn. now rewrite H, IH.
Qed.

(** [toWebContainerFS] places the placements one after the other. *)
Lemma toWebContainerFS_places (files : list FileNode)
    (stripPrefix : option jsstring) :
  toWebContainerFS files stripPrefix
  = fold_left (fun t op => place (fst op) (snd op) t)
              (placements files stripPrefix) empty.
Proof.
  unfold toWebContainerFS, placements.
  rewrite (fold_left_flat_map _ (placement stripPrefix)).
  apply fold_left_same. intros t node. unfold processNode, placement.
  now destruct (truthy (stripped stripPrefix (path node))).
Qed.

Lemma placements_nonempty files stripPrefix p leaf :
  In (p, leaf) (placements files stripPrefix) -> p <> [].
Proof.
  unfold placements. intros H. apply in_flat_map in H as (node & _ & H).
  unfold placement in H.
  destruct (truthy (stripped stripPrefix (path node))); [|contradiction].
  destruct H as [[= <- _]|[]]. apply split_nonempty.
Qed.

Lemma faithful_step ops done q leaf (t : Tree) :
  well_formed ops -> incl (done ++ [(q, leaf)]) ops -> q <> [] ->
  faithful done t -> faithful (done ++ [(q, leaf)]) (place q leaf t).
Proof.
  intros (Hplain & Hway & Hsame) Hincl Hq (Ht & Hfiles & Hall).
  assert (Hin : In (q, leaf) ops) by (apply Hincl, in_or_app; right; now left).
  assert (Hdone : forall op, In op done -> In op ops)
    by (intros op H; apply Hincl, in_or_app; now left).
  assert (Hpl : plain q) by (eapply Hplain, Hin).
  assert (Hpass : passable q t = true).
  { apply passable_when_clear. intros r x Hpp Hr.
    specialize (Hall r x Hr). destruct x as [[c|b]|target|o p];
      try contradiction; [|now exists o, p].
    exfalso. exact (Hway r c q leaf (Hdone _ Hall) Hin Hpp). }
  split; [now apply place_proto_free|]. split.
  - intros p c Hp. apply in_app_or in Hp as [Hp|[[= -> ->]|[]]];
      [|now apply place_found].
    specialize (Hfiles p c Hp).
    destruct (list_eq_dec key_eq_dec p q) as [->|Hne].
    + destruct leaf as [|c']; [apply place_keeps; auto|].
      rewrite (Hsame q c c' (Hdone _ Hp) Hin). now apply place_found.
    + apply place_keeps; try assumption.
      destruct leaf as [|c']; [now left | right].
      split; [exact Hne|]. exact (Hway q c' p _ Hin (Hdone _ Hp)).
  - intros r x Hr. destruct x as [[c|b]|target|o p]; [| | |exact I].
    + destruct (@place_origin q leaf t r (File (Text c)))
        as [[-> (s & -> & [= ->])]|Hold]; try assumption; try discriminate.
      * apply in_or_app. right. now left.
      * apply in_or_app. left. exact (Hall _ _ Hold).
    + destruct (@place_origin q leaf t r (File (Bytes b)))
        as [[_ (s & _ & [=])]|Hold]; try assumption; try discriminate.
      exact (Hall _ _ Hold).
    + destruct (@place_origin q leaf t r (Symlink target))
        as [[_ (s & _ & [=])]|Hold]; try assumption; try discriminate.
      exact (Hall _ _ Hold).
Qed.

Lemma faithful_fold ops :
  well_formed ops -> (forall p leaf, In (p, leaf) ops -> p <> []) ->
  forall rest done t,
    ops = done ++ rest -> faithful done t ->
    faithful ops (fold_left (fun t' op => place (fst op) (snd op) t') rest t).
Proof.
  intros Hwf Hne. induction rest as [|[q leaf] rest IH]; intros done t E Ht.
  - rewrite app_nil_r in E. now subst.
  - cbn [fold_left fst snd]. apply (IH (done ++ [(q, leaf)])).
    + now rewrite <- app_assoc.
    + apply faithful_step with (ops := ops); try assumption.
      * rewrite E. intros op H. apply in_app_or in H as [H|[<-|[]]];
          apply in_or_app; [now left | right; now left].
      * apply (Hne q leaf). rewrite E. apply in_or_app. right. now left.
Qed.

Lemma faithful_empty : faithful [] empty.
Proof.
  split; [reflexivity|]. split; [intros p c []|].
  intros r x H. now rewrite lookup_empty in H.
Qed.

Lemma visit_eq nm p t c ch :
  visit (mkNode nm p t c ch) =
  mkNode nm p t c ch ::
  match ch with Some nodes => flat_map visit nodes | None => [] end.
Proof. reflexivity. Qed.

Lemma traverse_in_visit (n : FileNode) :
  forall f, In f (traverse_node n) -> In f (visit n).
Proof.
  induction n as [nm p t c|nm p t c nodes IH] using FileNode_induction;
    intros f; rewrite traverse_node_eq, visit_eq; intros H;
    apply in_app_or in H as [H|H].
  - destruct t; [|contradiction]. destruct H as [<-|[]]. now left.
  - contradiction.
  - destruct t; [|contradiction]. destruct H as [<-|[]]. now left.
  - right. apply in_flat_map in H as (x & Hx & Hf). apply in_flat_map.
    exists x. split; [exact Hx|]. rewrite Forall_forall in IH.
    now apply (IH x Hx).
Qed.

Lemma file_placement files stripPrefix (node : FileNode) :
  In node (flattenFiles files) ->
  truthy (stripped stripPrefix (path node)) = true ->
  In (split App.slash (stripped stripPrefix (path node)),
      LFile (match content node with Some c => c | None => [] end))
     (placements files stripPrefix).
Proof.
  intros Hin Htruthy. unfold flattenFiles in Hin.
  apply in_flat_map in Hin as (root & Hroot & Hin).
  assert (Hfile : type node = file) by (eapply traverse_only_files, Hin).
  apply traverse_in_visit in Hin.
  unfold placements. apply in_flat_map. exists node. split.
  - apply in_flat_map. now exists root.
  - unfold placement. rewrite Htruthy. left. unfold leaf_of. now rewrite Hfile.
Qed.

Lemma mounted_tree_faithful (files : list FileNode)
    (stripPrefix : option jsstring) :
  well_formed (placements files stripPrefix) ->
  faithful (placements files stripPrefix)
           (toWebContainerFS files stripPrefix).
Proof.
  intros Hwf. rewrite toWebContainerFS_places.
  apply faithful_fold with (done := []); try assumption.
  - intros p leaf. apply placements_nonempty.
  - reflexivity.
  - apply faithful_empty.
Qed.

(** For a project in which no part of a path is a name that objects
    inherit, no file lies on the way to another path and no two files
    share a path with different contents: every file of the project is
    in the tree, at its path without the prefix and with its content;
    the tree holds no other file; and no prototype has been replaced. *)
Theorem toWebContainerFS_faithful (files : list FileNode)
    (stripPrefix : option jsstring) :
  well_formed (placements files stripPrefix) ->
  let tree := toWebContainerFS files stripPrefix in
  (forall node,
      In node (flattenFiles files) ->
      truthy (stripped stripPrefix (path node)) = true ->
      lookup_path (split App.slash (stripped stripPrefix (path node))) tree
      = Some (File (Text (match content node with
                          | Some c => c
                          | None => []
                          end))))
  /\ (forall r c,
        lookup_path r tree = Some (File (Text c)) ->
        In (r, LFile c) (placements files stripPrefix))
  /\ proto_free tree.
Proof.
  intros Hwf tree.
  destruct (mounted_tree_faithful files stripPrefix Hwf) as (Ht & Hfiles & Hall).
  split; [|split; [|exact Ht]].
  - intros node Hin Htruthy. apply Hfiles. now apply file_placement.
  - intros r c Hr. exact (Hall r (File (Text c)) Hr).
Qed.

End Mounting.

Section MountingWitness.

Import Files FS FSSpec.

Lemma project_well_formed :
  well_formed (placements Examples.project None).
Proof.
  split; [|split].
  - intros p leaf H. vm_compute in H.
    destruct H as [[= <- <-]|[[= <- <-]|[]]]; reflexivity.
  - intros p c q leaf Hp Hq (rest & Hne & E).
    apply (f_equal (@length _)) in E. rewrite length_app in E.
    assert (length rest <> 0) by (destruct rest; [congruence | discriminate]).
    vm_compute in Hp, Hq.
    destruct Hp as [[=]|[[= <- <-]|[]]];
      destruct Hq as [[= <- <-]|[[= <- <-]|[]]]; cbn in E; lia.
  - intros p c c' H1 H2. vm_compute in H1, H2.
    destruct H1 as [[=]|[[= <- <-]|[]]];
      destruct H2 as [[=]|[[= <-]|[]]]; reflexivity.
Qed.

Lemma toWebContainerFS_faithful_witness :
  lookup_path [lit "src"; lit "App.tsx"]
              (toWebContainerFS Examples.project None)
  = Some (File (Text (lit "export default function App() {}"))).
Proof.
  apply (proj1 (@toWebContainerFS_faithful Examples.project None
                  project_well_formed) Examples.src_app).
  - vm_compute. auto.
  - reflexivity.
Defined.

End MountingWitness.

(* ===================================================================== *)
(** ** preWarm *)
(* ===================================================================== *)

Section PreWarming.

Import Hook Frames Sandbox.

Create Rewrite HintDb settled.
#[local] Hint Rewrite globals_appendOutput promises_appendOutput
  calls_appendOutput isBooting_appendOutput isInstalling_appendOutput
  isRunning_appendOutput previewUrl_appendOutput error_appendOutput
  isPreWarmed_appendOutput isPreWarming_appendOutput processRef_appendOutput
  globals_pipe_output promises_pipe_output calls_pipe_output
  isBooting_pipe_output isInstalling_pipe_output isRunning_pipe_output
  previewUrl_pipe_output error_pipe_output isPreWarmed_pipe_output
  isPreWarming_pipe_output processRef_pipe_output : settled.

Ltac settle_outcome :=
  repeat (autorewrite with settled; cbn -[appendOutput pipe_output Z.eqb]).

(** [preWarm] runs its body once: after a first call, whether the base
    install succeeded or failed, another call changes nothing. *)
Theorem preWarm_once (e1 e2 : PreWarmRun) (s : Sandbox) :
  preWarm e2 (preWarm e1 s) = preWarm e1 s.
Proof.
  unfold preWarm at 2 3.
  destruct (isPreWarmedFlag (globals (hook s))
            || match preWarmPromise (globals (hook s)) with
               | Some _ => true
               | None => false
               end) eqn:G.
  - unfold preWarm. now rewrite G.
  - destruct (preWarm_try e1 _ _ _) as [[w ms] ts].
    unfold preWarm. cbn. now rewrite orb_true_r.
Qed.

(** The first [preWarm] on a page with an instance, when the mount and
    the spawn succeed: the base files are mounted and one install is
    spawned; the flag is set exactly when the install exits with 0; and
    a failed install is not reported as an error of the session. *)
Theorem preWarm_outcome (e : PreWarmRun) (s : Sandbox) (i : Instance)
    (installProcess : Process) :
  isPreWarmedFlag (globals (hook s)) = false ->
  preWarmPromise (globals (hook s)) = None ->
  webcontainerInstance (globals (hook s)) = Some i ->
  pw_mount e = None ->
  pw_spawn e = inr installProcess ->
  let s' := preWarm e s in
  mounts s' = mounts s ++ [(i, BaseFiles)]
  /\ calls (hook s') = calls (hook s) ++ [CSpawn i npm install_args]
  /\ isPreWarmedFlag (globals (hook s')) = Z.eqb (pw_exit e) 0
  /\ isPreWarmed (state (hook s'))
     = (Z.eqb (pw_exit e) 0 || isPreWarmed (state (hook s)))
  /\ isPreWarming (state (hook s')) = false
  /\ error (state (hook s')) = error (state (hook s))
  /\ preWarmPromise (globals (hook s')) <> None.
Proof.
  intros Hflag Hprom Hi Hmount Hspawn. unfold preWarm.
  rewrite Hflag, Hprom. cbn [orb]. unfold preWarm_try.
  rewrite (@await_boot_ready (pw_boot e) (setIsPreWarming true (hook s)) i)
    by exact Hi.
  rewrite Hmount, Hspawn. unfold warn.
  destruct (Z.eqb (pw_exit e) 0); settle_outcome;
    rewrite ?Hi, ?Hflag; repeat split; discriminate.
Qed.

End PreWarming.

Section PreWarmingWitnesses.

Import Hook Sandbox PageSamples.

Lemma preWarm_outcome_witness :
  isPreWarmedFlag (globals (hook (preWarm failed_base_install
                                    (mkSandbox Examples.running_world []
                                               []))))
  = false.
Proof.
  refine (proj1 (proj2 (proj2 (@preWarm_outcome failed_base_install
            (mkSandbox Examples.running_world [] []) 0 1
            eq_refl eq_refl eq_refl eq_refl eq_refl)))).
Defined.

End PreWarmingWitnesses.

(* ===================================================================== *)
(** ** mountFiles *)
(* ===================================================================== *)

Section Injection.

Import Hook Frames Sandbox.

Lemma expand_plain (repl matched before after : jsstring) :
  ~ In 36%N repl -> expand repl matched before after = repl.
Proof.
  induction repl as [|x r IH]; intros H; [reflexivity|].
  cbn [expand]. destruct (N.eqb x 36) eqn:E.
  - apply N.eqb_eq in E. elim H. now left.
  - f_equal. apply IH. intros Hin. apply H. now right.
Qed.

Lemma startsWith_longer (s t p : jsstring) :
  length p <= length s -> startsWith (s ++ t) p = startsWith s p.
Proof.
  revert s. induction p as [|y p IH]; intros s H;
    [now destruct (s ++ t), s|].
  destruct s as [|x s]; cbn in H; [lia|].
  cbn. f_equal. apply IH. lia.
Qed.

Lemma find_split_here (s pat : jsstring) :
  startsWith s pat = true ->
  find_split s pat = Some ([], skipn (length pat) s).
Proof. intros H. destruct s; cbn [find_split]; now rewrite H. Qed.

Lemma find_split_first (q : jsstring) (c : char) (before after : jsstring) :
  includes (before ++ q) (q ++ [c]) = false ->
  find_split (before ++ (q ++ [c]) ++ after) (q ++ [c]) = Some (before, after).
Proof.
  induction before as [|x b IH]; intros H.
  - cbn [app]. rewrite find_split_here by apply startsWith_app.
    now rewrite skipn_app, skipn_all, Nat.sub_diag.
  - cbn [app includes] in H. apply orb_false_iff in H as [Hs Hrest].
    cbn [app find_split].
    replace (x :: b ++ (q ++ [c]) ++ after)
      with ((x :: b ++ q) ++ [c] ++ after)
      by (cbn; now rewrite <- !app_assoc).
    rewrite startsWith_longer
      by (cbn; rewrite !length_app; cbn; lia).
    rewrite Hs.
    replace (b ++ q ++ [c] ++ after) with (b ++ (q ++ [c]) ++ after)
      by now rewrite <- !app_assoc.
    now rewrite (IH Hrest).
Qed.

Lemma find_split_none (s pat : jsstring) :
  includes s pat = false -> find_split s pat = None.
Proof.
  induction s as [|x s IH]; cbn [includes find_split]; intros H;
    apply orb_false_iff in H as [Hs Hrest]; rewrite Hs; [reflexivity|].
  now rewrite (IH Hrest).
Qed.

Lemma get_set_own_other (key key' : jsstring) (v : FS.Node) (t : FS.Tree) :
  key <> key' -> FS.get (FS.set_own key v t) key' = FS.get t key'.
Proof.
  intros H. unfold FS.get, FS.set_own. cbn [FS.own FS.proto].
  now rewrite assoc_set_other.
Qed.

Lemma get_set_own_here (key : jsstring) (v : FS.Node) (t : FS.Tree) :
  FS.get (FS.set_own key v t) key = FS.Own v.
Proof.
  unfold FS.get, FS.set_own. cbn [FS.own FS.proto]. now rewrite assoc_set_eq.
Qed.

Lemma get_own_assoc (t : FS.Tree) (key : jsstring) (n : FS.Node) :
  FS.get t key = FS.Own n -> FS.assoc key (FS.own t) = Some n.
Proof.
  unfold FS.get. destruct (FS.assoc key (FS.own t)) as [m|]; [congruence|].
  destruct (FS.is_inherited key); [discriminate|].
  destruct (FS.proto t); [|discriminate].
  destruct (JS.eqb key (lit "file")); discriminate.
Qed.

Variable errorReporter : jsstring.

Lemma injected_text (before after : jsstring) :
  ~ In 36%N errorReporter ->
  includes (before ++ lit "</head") head_end = false ->
  replace_text (before ++ head_end ++ after) head_end (injection errorReporter)
  = before ++ lit "  " ++ errorReporter ++ [newline] ++ lit "  </head>"
    ++ after.
Proof.
  intros Hplain Hfirst. unfold replace_text.
  change head_end with (lit "</head" ++ [62%N]) at 1 2.
  rewrite (find_split_first _ _ _ _ Hfirst).
  rewrite expand_plain.
  - unfold injection. now rewrite <- !app_assoc.
  - unfold injection. rewrite !in_app_iff.
    intros [H|[H|[H|H]]]; try contradiction;
      cbn in H; repeat (destruct H as [H|H]; [discriminate|]); exact H.
Qed.

(** The mount that [mountFiles] issues, with an instance at hand. *)
Lemma mountFiles_mount (files : FS.Tree) (e : MountRun) (s : Sandbox)
    (i : Instance) :
  webcontainerInstance (globals (hook s)) = Some i ->
  let '(r, files', s') := mountFiles errorReporter files e s in
  files' = fst (inject errorReporter files)
  /\ mounts s' = mounts s ++ [(i, ProjectFiles files')]
  /\ calls (hook s') = calls (hook s)
  /\ r = match mount_answer e with Some err => inl err | None => inr tt end
  /\ error (state (hook s'))
     = match mount_answer e with
       | Some err => Some (message_or (lit "Mount failed") err)
       | None => error (state (hook s))
       end
  /\ processRef (state (hook s')) = processRef (state (hook s))
  /\ globals (hook s') = globals (hook s)
  /\ isInstalling (state (hook s')) = isInstalling (state (hook s))
  /\ isRunning (state (hook s')) = isRunning (state (hook s))
  /\ mountedAfter s' = mountedAfter s ++ [length (calls (hook s))].
Proof.
  intros Hi. unfold mountFiles.
  rewrite (@await_boot_ready (mount_boot e) (hook s) i Hi).
  destruct (inject errorReporter files) as [files' injected].
  set (w1 := match preWarmPromise (globals (hook s)) with
             | Some _ => if negb (isPreWarmedFlag (globals (hook s)))
                         then appendOutput _ (hook s) else hook s
             | None => hook s
             end).
  assert (H1 : same_but_buffer (hook s) w1).
  { subst w1. destruct (preWarmPromise _); [|apply same_but_buffer_refl].
    destruct (negb _); [apply appendOutput_quiet|apply same_but_buffer_refl]. }
  set (w2 := appendOutput (folder ++ lit " Mounting project files...") w1).
  assert (H2 : same_but_buffer (hook s) w2)
    by (eapply same_but_buffer_trans; [exact H1|apply appendOutput_quiet]).
  set (w3 := if injected then appendOutput _ w2 else w2).
  assert (H3 : same_but_buffer (hook s) w3).
  { subst w3. destruct injected; [|exact H2].
    eapply same_but_buffer_trans; [exact H2|apply appendOutput_quiet]. }
  clearbody w3. clear w1 w2 H1 H2.
  destruct (mount_answer e) as [err|].
  - cbn -[appendOutput]. unfold same_but_buffer in H3.
    destruct H3 as (G & Pm & C & Rest). rewrite C.
    intuition congruence.
  - assert (H4 : same_but_buffer (hook s)
                   (appendOutput (check_mark ++ lit " Files mounted") w3))
      by (eapply same_but_buffer_trans; [exact H3|apply appendOutput_quiet]).
    cbn -[appendOutput]. unfold same_but_buffer in H3, H4.
    destruct H3 as (_ & _ & C & _). rewrite C.
    intuition congruence.
Qed.

(** [mountFiles] puts the error reporter right before the first end of
    the head of [index.html], when the text of the reporter holds no
    dollar sign: the tree that is mounted has that text at [index.html]
    and is the caller's tree at every other key. *)
Theorem reporter_injected (files : FS.Tree) (before after : jsstring)
    (e : MountRun) (s : Sandbox) (i : Instance) :
  webcontainerInstance (globals (hook s)) = Some i ->
  FS.get files (lit "index.html")
  = FS.Own (FS.File (FS.Text (before ++ head_end ++ after))) ->
  includes (before ++ lit "</head") head_end = false ->
  ~ In 36%N errorReporter ->
  exists mounted,
    mounts (snd (mountFiles errorReporter files e s))
    = mounts s ++ [(i, ProjectFiles mounted)]
    /\ FS.get mounted (lit "index.html")
       = FS.Own (FS.File (FS.Text
           (before ++ lit "  " ++ errorReporter ++ [newline]
            ++ lit "  </head>" ++ after)))
    /\ (forall key, key <> lit "index.html" ->
                    FS.get mounted key = FS.get files key).
Proof.
  intros Hi Hget Hfirst Hplain.
  pose proof (mountFiles_mount files e s Hi) as H.
  destruct (mountFiles errorReporter files e s) as [[r files'] s'].
  destruct H as (Hf & Hm & _). exists files'. split; [exact Hm|].
  subst files'. unfold inject. rewrite Hget. cbn [fst].
  rewrite (@injected_text before after Hplain Hfirst). split.
  - apply get_set_own_here.
  - intros key Hkey. apply get_set_own_other. congruence.
Qed.

(** [mountFiles] mounts the caller's tree as it is when the tree has no
    file at [index.html], or one without an end of the head. *)
Theorem mounted_as_is (files : FS.Tree) (e : MountRun) (s : Sandbox)
    (i : Instance) :
  webcontainerInstance (globals (hook s)) = Some i ->
  (forall html,
      FS.get files (lit "index.html") = FS.Own (FS.File (FS.Text html)) ->
      includes html head_end = false) ->
  mounts (snd (mountFiles errorReporter files e s))
  = mounts s ++ [(i, ProjectFiles files)].
Proof.
  intros Hi Hhtml.
  pose proof (mountFiles_mount files e s Hi) as H.
  destruct (mountFiles errorReporter files e s) as [[r files'] s'].
  destruct H as (Hf & Hm & _). cbn [snd]. rewrite Hm. do 3 f_equal.
  subst files'. unfold inject.
  destruct (FS.get files (lit "index.html")) as [|[c|t|o p]|] eqn:Hget;
    try reflexivity.
  cbn [fst]. apply get_own_assoc in Hget as Ha.
  unfold FS.set_own. destruct c as [html|b].
  - unfold replace_text.
    rewrite (find_split_none _ _ (Hhtml html eq_refl)).
    now rewrite (assoc_set_same _ _ Ha), tree_eta.
  - now rewrite (assoc_set_same _ _ Ha), tree_eta.
Qed.

End Injection.

Section InjectionWitnesses.

Import Hook Sandbox PageSamples.

Lemma reporter_injected_witness :
  exists mounted,
    mounts (snd (mountFiles reporter html_tree mount_ok booted))
    = mounts booted ++ [(0, ProjectFiles mounted)]
    /\ FS.get mounted (lit "index.html")
       = FS.Own (FS.File (FS.Text
           (html_before ++ lit "  " ++ reporter ++ [newline]
            ++ lit "  </head>" ++ html_after)))
    /\ (forall key, key <> lit "index.html" ->
                    FS.get mounted key = FS.get html_tree key).
Proof.
  apply (@reporter_injected reporter html_tree html_before html_after
           mount_ok booted 0); try reflexivity.
  vm_compute. intuition discriminate.
Defined.

Lemma mounted_as_is_witness :
  mounts (snd (mountFiles reporter script_tree mount_ok booted))
  = mounts booted ++ [(0, ProjectFiles script_tree)].
Proof.
  apply (@mounted_as_is reporter script_tree mount_ok booted 0).
  - reflexivity.
  - intros html H. vm_compute in H. discriminate.
Defined.

End InjectionWitnesses.

(* ===================================================================== *)
(** ** The handlers of the page: proofs *)
(* ===================================================================== *)

Section PageHandlers.

Import Files App Page Frames.

Lemma terminal_effect_key (a : App) :
  lastErrorRef (terminal_effect a) = lastErrorRef a.
Proof.
  unfold terminal_effect.
  destruct (negb (idle_and_running _)); [reflexivity|].
  destruct (negb (budget_left _)); [reflexivity|].
  destruct (parseError _) as [errorInfo|]; [|reflexivity].
  destruct (truthy (ei_file errorInfo)); reflexivity.
Qed.

(** What a render after a handler leaves as the handler made it. *)
Lemma rendered_frame (p q : Page) :
  let r := rendered p q in
  mounts r = mounts q /\ selectedFile r = selectedFile q
  /\ zipName r = zipName q /\ isExtracting r = isExtracting q
  /\ files (app r) = files (app q) /\ filesRef (app r) = filesRef (app q)
  /\ world (app r) = world (app q) /\ fixLog (app r) = fixLog (app q)
  /\ fixCount (app r) = fixCount (app q)
  /\ fixAttempts (app r) = fixAttempts (app q)
  /\ fetches (app r) = fetches (app q)
  /\ fixingRef (app r) = fixingRef (app q)
  /\ isFixing (app r) = isFixing (app q)
  /\ inflight (app r) = inflight (app q)
  /\ runtimeTimers (app r) = runtimeTimers (app q)
  /\ lastErrorRef (app r) = lastErrorRef (app q).
Proof.
  unfold rendered. destruct (deps_changed _ _); [|cbn; tauto].
  destruct (terminal_effect_frame (app q)) as (F1 & F2 & F3 & F4 & F5 & F6 & F7).
  destruct (terminal_effect_rest (app q)) as (G1 & G2 & G3 & G4 & _).
  pose proof (terminal_effect_key (app q)) as K.
  cbn. tauto.
Qed.

Lemma reset_frame (w : Hook.World) :
  Hook.globals (Hook.reset w) = Hook.globals w
  /\ Hook.calls (Hook.reset w) = Hook.calls w ++ kill_calls w
  /\ Hook.terminalOutput (Hook.state (Hook.reset w)) = []
  /\ Hook.previewUrl (Hook.state (Hook.reset w)) = None
  /\ Hook.isRunning (Hook.state (Hook.reset w)) = false
  /\ Hook.error (Hook.state (Hook.reset w)) = None.
Proof.
  unfold Hook.reset, kill_calls.
  destruct (Hook.processRef (Hook.state w)); cbn;
    rewrite ?app_nil_r; tauto.
Qed.

(** [handleStartPreview] when the mount is refused: the handler ends
    there.  No process is killed or spawned, the error of the hook is
    the message of the refusal, and the budget of the fix loop has been
    reset all the same. *)
Theorem preview_stops_when_mount_fails (errorReporter : jsstring)
    (e : PreviewRun) (p : Page)
    (i : Hook.Instance) (err : Hook.jserror) :
  files (app p) <> [] ->
  Hook.webcontainerInstance (Hook.globals (world (app p))) = Some i ->
  Sandbox.mount_answer (preview_mount e) = Some err ->
  let p' := handleStartPreview errorReporter e p in
  Hook.calls (world (app p')) = Hook.calls (world (app p))
  /\ Hook.error (Hook.state (world (app p')))
     = Some (Hook.message_or (lit "Mount failed") err)
  /\ Hook.processRef (Hook.state (world (app p')))
     = Hook.processRef (Hook.state (world (app p)))
  /\ Hook.isInstalling (Hook.state (world (app p')))
     = Hook.isInstalling (Hook.state (world (app p)))
  /\ mounts p'
     = mounts p
       ++ [(i, Sandbox.ProjectFiles
                 (fst (Sandbox.inject errorReporter
                         (FS.toWebContainerFS (files (app p))
                            (FS.findRootPrefix (files (app p)))))))]
  /\ fixAttempts (app p') = 0 /\ lastErrorRef (app p') = [].
Proof.
  intros Hfiles Hi Herr p'. subst p'. unfold handleStartPreview.
  set (tree := FS.toWebContainerFS _ _).
  destruct (files (app p)) as [|f fs] eqn:Hf; [congruence|].
  set (q := upd_app (upd_fixLog (fun _ => [])) _).
  assert (Hq : Hook.webcontainerInstance
                 (Hook.globals (Sandbox.hook (sandbox_of q))) = Some i)
    by exact Hi.
  pose proof (mountFiles_mount errorReporter tree (preview_mount e)
                (sandbox_of q) Hq) as H.
  destruct (Sandbox.mountFiles errorReporter tree (preview_mount e)
              (sandbox_of q)) as [[r files'] s'].
  destruct H as (Hfs & Hm & Hc & Hr & He & Hp & _ & Hin & _).
  rewrite Herr in Hr, He. subst r files'.
  destruct (rendered_frame p (with_sandbox s' q))
    as (R1 & _ & _ & _ & _ & _ & R7 & _ & _ & R10 & _ & _ & _ & _ & _ & R16).
  rewrite R1, R7, R10, R16. cbn [with_sandbox app mounts world set_world].
  cbn. rewrite Hm, Hc, He, Hp, Hin. repeat split; reflexivity.
Qed.

Lemma rendered_mountedAfter (p q : Page) :
  mountedAfter (rendered p q) = mountedAfter q.
Proof. unfold rendered. now destruct (deps_changed _ _). Qed.

(** [handleStartPreview] when the mount succeeds and both processes are
    spawned: the tree of the project, with the error reporter in it, is
    mounted when no engine call has been issued yet besides those made
    before the handler; the previous process is killed, the install is
    spawned and the dev server after it, all three after the mount.
    The budget of the fix loop and its log start afresh; the count of
    fixes is kept. *)
Theorem preview_mounts_then_starts (errorReporter : jsstring)
    (e : PreviewRun) (p : Page)
    (i : Hook.Instance) (installProcess devProcess : Hook.Process) :
  files (app p) <> [] ->
  Hook.webcontainerInstance (Hook.globals (world (app p))) = Some i ->
  Sandbox.mount_answer (preview_mount e) = None ->
  Hook.install_spawn (preview_dev e) = inr installProcess ->
  Hook.dev_spawn (preview_dev e) = inr devProcess ->
  let p' := handleStartPreview errorReporter e p in
  mounts p'
  = mounts p
    ++ [(i, Sandbox.ProjectFiles
              (fst (Sandbox.inject errorReporter
                      (FS.toWebContainerFS (files (app p))
                         (FS.findRootPrefix (files (app p)))))))]
  /\ mountedAfter p'
     = mountedAfter p ++ [length (Hook.calls (world (app p)))]
  /\ Hook.calls (world (app p'))
     = Hook.calls (world (app p)) ++ kill_calls (world (app p))
       ++ [Hook.CSpawn i Hook.npm Hook.install_args;
           Hook.CSpawn i Hook.npm Hook.dev_args]
  /\ Hook.processRef (Hook.state (world (app p'))) = Some devProcess
  /\ Hook.error (Hook.state (world (app p')))
     = Hook.error (Hook.state (world (app p)))
  /\ fixAttempts (app p') = 0 /\ lastErrorRef (app p') = []
  /\ fixLog (app p') = [] /\ fixCount (app p') = fixCount (app p)
  /\ files (app p') = files (app p).
Proof.
  intros Hfiles Hi Hok Hs Hd p'. subst p'. unfold handleStartPreview.
  set (tree := FS.toWebContainerFS _ _).
  destruct (files (app p)) as [|f fs] eqn:Hf; [congruence|].
  set (q := upd_app (upd_fixLog (fun _ => [])) _).
  assert (Hq : Hook.webcontainerInstance
                 (Hook.globals (Sandbox.hook (sandbox_of q))) = Some i)
    by exact Hi.
  pose proof (mountFiles_mount errorReporter tree (preview_mount e)
                (sandbox_of q) Hq) as H.
  destruct (Sandbox.mountFiles errorReporter tree (preview_mount e)
              (sandbox_of q)) as [[r files'] s'].
  destruct H as (Hfs & Hm & Hc & Hr & He & Hp & Hg & _ & _ & Ht).
  rewrite Hok in Hr, He. subst r files'. cbn in Ht.
  set (q' := upd_app _ (with_sandbox s' q)).
  destruct (rendered_frame p q')
    as (R1 & _ & _ & _ & R5 & _ & R7 & R8 & R9 & R10 & _ & _ & _ & _ & _ & R16).
  rewrite R1, R5, R7, R8, R9, R10, R16, rendered_mountedAfter. subst q'.
  cbn [with_sandbox upd_app app mounts mountedAfter world set_world].
  assert (Hi' : Hook.webcontainerInstance (Hook.globals (Sandbox.hook s'))
                = Some i) by (rewrite Hg; exact Hi).
  destruct (startDevServer_spawns (preview_dev e) (Sandbox.hook s') Hi' Hs Hd)
    as (D1 & D2 & _ & _ & D5 & _).
  cbn. rewrite D1, D2, D5, Hm, Hc, He, Ht. unfold kill_calls. rewrite Hp.
  cbn. rewrite Hf. repeat split; reflexivity.
Qed.

(** [handleReset] while a fix is awaited leaves the fix in flight and
    the runtime timeouts pending.  When the fixer then answers with new
    code, the code is written to the sandbox of the page that has been
    reset, and the fix is counted and logged on it, while no file is
    shown. *)
Theorem reset_keeps_fix_in_flight (parse : jsstring -> option jsstring)
    (target : FileNode) (c fixedCode : jsstring)
    (e : Hook.WriteRun) (p : Page) (i : Hook.Instance) :
  inflight (app p) = Some target ->
  content target = Some c ->
  fixedCode <> [] -> fixedCode <> c ->
  Hook.webcontainerInstance (Hook.globals (world (app p))) = Some i ->
  let cleared := handleReset p in
  let p' := page_step parse (FixerSettles (Ok (Some fixedCode)) e) cleared in
  inflight (app cleared) = Some target
  /\ runtimeTimers (app cleared) = runtimeTimers (app p)
  /\ files (app cleared) = [] /\ fixCount (app cleared) = 0
  /\ Hook.calls (world (app p'))
     = Hook.calls (world (app p)) ++ kill_calls (world (app p))
       ++ [Hook.CWriteFile i (path target) fixedCode]
  /\ fixCount (app p') = 1
  /\ fixLog (app p') = [LogFixed (path target)]
  /\ flattenFiles (files (app p')) = [].
Proof.
  intros Hin Hc Hne Hdiff Hi. cbv zeta.
  set (q := upd_app clear_loop
              (setZipName [] (setSelectedFile None
                 (upd_app (setFiles []) p)))).
  pose proof (rendered_frame p q) as R.
  change (rendered p q) with (handleReset p) in R. cbv zeta in R.
  destruct R
    as (_ & _ & _ & _ & R5 & R6 & R7 & R8 & R9 & _ & _ & _ & _ & R14 & R15 & _).
  cbn in R5, R6, R7, R8, R9, R14, R15.
  destruct (reset_frame (world (app p))) as (G & C & _).
  assert (Hi' : Hook.webcontainerInstance
                  (Hook.globals (world (app (handleReset p)))) = Some i)
    by (rewrite R7, G; exact Hi).
  assert (Hin' : inflight (app (handleReset p)) = Some target) by congruence.
  destruct (settled_fix_effect parse e (app (handleReset p))
              Hin' Hc Hne Hdiff Hi')
    as (S1 & S2 & _ & S4 & S5 & _).
  change (app (page_step parse (FixerSettles (Ok (Some fixedCode)) e)
                 (handleReset p)))
    with (step parse (FixerSettles (Ok (Some fixedCode)) e)
            (app (handleReset p))).
  rewrite S1, S4, S5, R7, R8, R9, C, <- app_assoc.
  rewrite R6 in S2. cbn in S2. inversion S2.
  repeat split; congruence.
Qed.

(** [handleFileUpload] when the archive is read: the tree shown is the
    one extracted; the file selected is the first file named [App.tsx]
    or [App.jsx], the first file of the tree when there is none, and the
    file selected before when the tree has no file at all. *)
Theorem upload_selects_main_file (fileName : jsstring)
    (extracted : list FileNode) (p : Page) :
  let p' := handleFileUpload fileName (inr extracted) p in
  files (app p') = extracted
  /\ (flattenFiles extracted = [] -> selectedFile p' = selectedFile p)
  /\ (forall l1 f l2,
        flattenFiles extracted = l1 ++ f :: l2 ->
        is_main f = true ->
        (forall g, In g l1 -> is_main g = false) ->
        selectedFile p' = Some f)
  /\ (forall first rest,
        flattenFiles extracted = first :: rest ->
        (forall g, In g (first :: rest) -> is_main g = false) ->
        selectedFile p' = Some first).
Proof.
  intros p'. subst p'. unfold handleFileUpload.
  set (q0 := upd_app clear_loop _).
  set (q := match flattenFiles extracted with [] => _ | _ :: _ => _ end).
  destruct (rendered_frame p (setIsExtracting false q))
    as (_ & R2 & _ & _ & R5 & _).
  rewrite R2, R5. cbn [setIsExtracting selectedFile app].
  assert (Hfiles : files (app q) = extracted)
    by (subst q; destruct (flattenFiles extracted); reflexivity).
  split; [exact Hfiles|]. split; [|split].
  - intros E. subst q. now rewrite E.
  - intros l1 f l2 E Hf Hl1. subst q. rewrite E.
    assert (Hfind : find is_main (l1 ++ f :: l2) = Some f).
    { clear E. induction l1 as [|g l1 IH]; simpl.
      - now rewrite Hf.
      - rewrite (Hl1 g) by now left. apply IH.
        intros g' Hg'. apply Hl1. now right. }
    destruct (l1 ++ f :: l2) as [|x l] eqn:El; [now destruct l1|].
    cbn [setSelectedFile selectedFile]. now rewrite Hfind.
  - intros first rest E Hnone. subst q. rewrite E.
    assert (Hfind : find is_main (first :: rest) = None).
    { clear E. induction (first :: rest) as [|g l IH]; [reflexivity|].
      simpl. rewrite (Hnone g) by now left. apply IH.
      intros g' Hg'. apply Hnone. now right. }
    cbn [setSelectedFile selectedFile]. now rewrite Hfind.
Qed.

(** [handleFileUpload] when the archive cannot be read: the sandbox and
    the fix loop have been reset and the page bears the name of the new
    archive, yet the tree and the file selected are those of the
    project before. *)
Theorem failed_upload_keeps_tree (fileName : jsstring) (err : Hook.jserror)
    (p : Page) :
  let p' := handleFileUpload fileName (inl err) p in
  files (app p') = files (app p)
  /\ selectedFile p' = selectedFile p
  /\ zipName p' = fileName
  /\ isExtracting p' = false
  /\ fixCount (app p') = 0 /\ fixLog (app p') = []
  /\ Hook.previewUrl (Hook.state (world (app p'))) = None
  /\ Hook.terminalOutput (Hook.state (world (app p'))) = []
  /\ Hook.calls (world (app p'))
     = Hook.calls (world (app p)) ++ kill_calls (world (app p)).
Proof.
  intros p'. subst p'. unfold handleFileUpload.
  set (q := setIsExtracting false _).
  destruct (rendered_frame p q)
    as (_ & R2 & R3 & R4 & R5 & _ & R7 & R8 & R9 & _).
  rewrite R2, R3, R4, R5, R7, R8, R9. subst q. cbn -[Hook.reset].
  destruct (reset_frame (world (app p))) as (_ & C & T & U & _).
  rewrite C, T, U. repeat split; reflexivity.
Qed.

End PageHandlers.

Section PageWitnesses.

Import Files App Page PageSamples.

Lemma preview_stops_when_mount_fails_witness :
  Hook.calls (world (app (handleStartPreview reporter refused_preview served)))
  = Hook.calls (world (app served)).
Proof.
  refine (proj1 (@preview_stops_when_mount_fails reporter refused_preview
                   served 0 disk_full _ eq_refl eq_refl)).
  discriminate.
Defined.

Lemma preview_mounts_then_starts_witness :
  mountedAfter (handleStartPreview reporter started_preview served)
  = mountedAfter served ++ [length (Hook.calls (world (app served)))]
  /\ Hook.calls
       (world (app (handleStartPreview reporter started_preview served)))
     = Hook.calls (world (app served))
       ++ Frames.kill_calls (world (app served))
       ++ [Hook.CSpawn 0 Hook.npm Hook.install_args;
           Hook.CSpawn 0 Hook.npm Hook.dev_args].
Proof.
  assert (Hfiles : files (app served) <> []) by discriminate.
  split.
  - exact (proj1 (proj2 (@preview_mounts_then_starts reporter
             started_preview served 0 1 2 Hfiles
             eq_refl eq_refl eq_refl eq_refl))).
  - exact (proj1 (proj2 (proj2 (@preview_mounts_then_starts reporter
             started_preview served 0 1 2 Hfiles
             eq_refl eq_refl eq_refl eq_refl)))).
Defined.

Lemma reset_keeps_fix_in_flight_witness :
  fixCount (app (page_step parseStackTrace
                   (FixerSettles (Ok (Some (lit "export default 2")))
                                 Examples.writable)
                   (handleReset being_fixed)))
  = 1.
Proof.
  refine (proj1 (proj2 (proj2 (proj2 (proj2 (proj2
            (@reset_keeps_fix_in_flight parseStackTrace Examples.src_app
               (lit "export default function App() {}")
               (lit "export default 2") Examples.writable being_fixed 0
               eq_refl eq_refl _ _ eq_refl))))))); discriminate.
Defined.

Lemma upload_selects_main_file_witness :
  selectedFile (handleFileUpload (lit "app.zip") (inr archive) served)
  = Some main_jsx.
Proof.
  refine (proj1 (proj2 (proj2 (upload_selects_main_file (lit "app.zip")
            archive served))) [readme] main_jsx [] eq_refl eq_refl _).
  intros g [<-|[]]. reflexivity.
Defined.

End PageWitnesses.

(* ===================================================================== *)
(** ** extractZip: paths *)
(* ===================================================================== *)

Section ZipStrings.

Import Zip.

Lemma join_snoc (sep : jsstring) (ps : list jsstring) (l : jsstring) :
  ps <> [] -> join sep (ps ++ [l]) = join sep ps ++ sep ++ l.
Proof.
  induction ps as [|p ps IH]; intros H; [congruence|].
  destruct ps as [|q ps]; [reflexivity|].
  change (join sep ((p :: q :: ps) ++ [l]))
    with (p ++ sep ++ join sep ((q :: ps) ++ [l])).
  rewrite IH by discriminate.
  change (join sep (p :: q :: ps)) with (p ++ sep ++ join sep (q :: ps)).
  now rewrite <- !app_assoc.
Qed.

Lemma join_split (c : char) (s : jsstring) : join [c] (split c s) = s.
Proof.
  induction s as [|x s IH]; [reflexivity|].
  cbn [split]. destruct (N.eqb x c) eqn:E.
  - apply N.eqb_eq in E. subst x.
    pose proof (split_nonempty c s) as Hne.
    destruct (split c s) as [|seg segs]; [congruence|].
    change (join [c] ([] :: seg :: segs)) with ([] ++ [c] ++ join [c] (seg :: segs)).
    now rewrite IH.
  - pose proof (split_nonempty c s) as Hne.
    destruct (split c s) as [|seg segs]; [congruence|].
    destruct segs as [|seg' segs].
    + cbn in IH. subst seg. reflexivity.
    + change (join [c] ((x :: seg) :: seg' :: segs))
        with (x :: (seg ++ [c] ++ join [c] (seg' :: segs))).
      change (join [c] (seg :: seg' :: segs))
        with (seg ++ [c] ++ join [c] (seg' :: segs)) in IH.
      now rewrite IH.
Qed.

(** The first part of a path that does not begin with the separator. *)
Lemma split_head (c x : char) (s : jsstring) :
  x <> c -> exists seg segs, split c (x :: s) = (x :: seg) :: segs.
Proof.
  intros H. cbn [split]. destruct (N.eqb x c) eqn:E;
    [apply N.eqb_eq in E; congruence|].
  pose proof (split_nonempty c s) as Hne.
  destruct (split c s) as [|seg segs]; [congruence|]. now exists seg, segs.
Qed.

Lemma parts_snoc (parts : list jsstring) :
  parts <> [] -> parts = removelast parts ++ [last parts []].
Proof. apply app_removelast_last. Qed.

(** The path of a node with a parent is longer than that of the parent. *)
Lemma parent_shorter (s : jsstring) :
  truthy (parentPath (split App.slash s)) = true ->
  s = parentPath (split App.slash s) ++ lit "/"
      ++ last (split App.slash s) [].
Proof.
  intros H. unfold parentPath in *.
  pose proof (split_nonempty App.slash s) as Hne.
  pose proof (join_split App.slash s) as Hj.
  rewrite (parts_snoc Hne) in Hj at 1.
  destruct (removelast (split App.slash s)) as [|p ps] eqn:E;
    [discriminate|].
  rewrite join_snoc in Hj by discriminate. symmetry. exact Hj.
Qed.

Lemma includes_app (s t p : jsstring) :
  includes s p = true -> includes (s ++ t) p = true.
Proof.
  induction s as [|x s IH]; cbn [includes app].
  - rewrite orb_false_r. intros H. destruct p; [|discriminate].
    now destruct t.
  - intros H. apply orb_true_iff in H as [H|H].
    + apply startsWith_split in H.
      assert (Hs : startsWith ((x :: s) ++ t) p = true).
      { rewrite H, <- app_assoc. apply startsWith_app. }
      cbn [app] in Hs. now rewrite Hs.
    + rewrite (IH H). apply orb_true_r.
Qed.

Lemma startsWith_prefix (s t p : jsstring) :
  startsWith s p = true -> startsWith (s ++ t) p = true.
Proof.
  intros H. apply startsWith_split in H. rewrite H, <- app_assoc.
  apply startsWith_app.
Qed.

Lemma hidden_prefix (s t : jsstring) :
  hidden (s ++ t) = false -> hidden s = false.
Proof.
  unfold hidden. intros H. apply orb_false_iff in H as [H1 H2].
  apply orb_false_iff. split.
  - destruct (startsWith s _) eqn:E; [|reflexivity].
    now rewrite (@startsWith_prefix _ t _ E) in H1.
  - destruct (includes s _) eqn:E; [|reflexivity].
    now rewrite (@includes_app _ t _ E) in H2.
Qed.

Lemma skipn_last (A : Type) (d : A) (l : list A) :
  l <> [] -> skipn (length l - 1) l = [last l d].
Proof.
  induction l as [|x l IH]; intros H; [congruence|].
  destruct l as [|y l]; [reflexivity|].
  cbn [length]. replace (S (S (length l)) - 1) with (S (length (y :: l) - 1))
    by (cbn [length]; lia).
  cbn [skipn]. rewrite IH by discriminate. reflexivity.
Qed.

(** A key is its clean path, with a slash after it or not. *)
Lemma cleanPath_cases (path : jsstring) :
  path = cleanPath path \/ path = cleanPath path ++ lit "/".
Proof.
  unfold cleanPath. destruct (endsWith path (lit "/")) eqn:E; [|now left].
  right. unfold endsWith in E. apply andb_true_iff in E as [Hlen E].
  apply JS_eqb_eq in E.
  assert (Hne : path <> []) by (destruct path; [discriminate | congruence]).
  change (length (lit "/")) with 1 in E.
  pose proof (@skipn_last char 0%N path Hne) as Hl.
  assert (Hlast : [last path 0%N] = lit "/") by (rewrite <- Hl; exact E).
  rewrite (app_removelast_last 0%N Hne) at 1. f_equal. exact Hlast.
Qed.

End ZipStrings.

(* ===================================================================== *)
(** ** extractZip: the trees of a store *)
(* ===================================================================== *)

Section Assembling.

Import Files FS Zip ZipSpec.

Lemma visit_self (n : FileNode) : In n (visit n).
Proof. destruct n. rewrite visit_eq. now left. Qed.

Lemma visit_child (n kid : FileNode) (kids : list FileNode) :
  children n = Some kids -> In kid kids -> In kid (visit n).
Proof.
  destruct n as [nm p t c ch]. cbn [children]. intros -> H.
  rewrite visit_eq. right. apply in_flat_map. exists kid.
  split; [exact H | apply visit_self].
Qed.

Lemma visit_trans (r : FileNode) :
  forall a b, In a (visit r) -> In b (visit a) -> In b (visit r).
Proof.
  induction r as [nm p t c|nm p t c nodes IH] using FileNode_induction;
    intros a b Ha Hb; rewrite visit_eq in Ha; destruct Ha as [<-|Ha];
    try exact Hb; try contradiction.
  rewrite visit_eq. right.
  apply in_flat_map in Ha as (kid & Hkid & Ha).
  apply in_flat_map. exists kid. split; [exact Hkid|].
  rewrite Forall_forall in IH. exact (IH kid Hkid a b Ha Hb).
Qed.

Lemma visit_file (r : FileNode) :
  forall f, In f (visit r) -> type f = file -> In f (traverse_node r).
Proof.
  induction r as [nm p t c|nm p t c nodes IH] using FileNode_induction;
    intros f Hf Ht; rewrite visit_eq in Hf; rewrite traverse_node_eq;
    destruct Hf as [<-|Hf]; try contradiction.
  - cbn in Ht. subst t. now left.
  - cbn in Ht. subst t. now left.
  - apply in_or_app. right.
    apply in_flat_map in Hf as (kid & Hkid & Hf).
    apply in_flat_map. exists kid. split; [exact Hkid|].
    rewrite Forall_forall in IH. exact (IH kid Hkid f Hf Ht).
Qed.

Lemma assemble_skipn (m : nat) :
  forall n cs, skipn m (assemble n cs) = assemble (n + m) (skipn m cs).
Proof.
  induction m as [|m IH]; intros n cs.
  - now rewrite Nat.add_0_r.
  - destruct cs as [|c cs]; [reflexivity|].
    cbn [assemble skipn]. rewrite IH. f_equal. lia.
Qed.

(** The node that stands for a cell: the node as it was created, with
    the nodes that stand for the cells pushed on it. *)
Lemma assemble_nth (cs : list Cell) :
  forall n k c,
    nth_error cs k = Some c ->
    nth_error (assemble n cs) k
    = Some (place c,
            with_children (node c)
              (map snd (filter (fun pn => is_under (n + k) (fst pn))
                               (skipn (S k) (assemble n cs))))).
Proof.
  induction cs as [|c0 cs IH]; intros n k c H; [now destruct k|].
  destruct k as [|k].
  - injection H as <-. cbn [assemble nth_error skipn].
    now rewrite Nat.add_0_r.
  - cbn [nth_error] in H. cbn [assemble nth_error].
    rewrite (IH (S n) k c H).
    replace (n + S k) with (S n + k) by lia. reflexivity.
Qed.

Lemma with_children_fields (n : FileNode) (kids : list FileNode) :
  name (with_children n kids) = name n
  /\ path (with_children n kids) = path n
  /\ type (with_children n kids) = type n
  /\ content (with_children n kids) = content n.
Proof. unfold with_children. destruct (children n); cbn; tauto. Qed.

(** A node that can be reached in the store is a node of the tree. *)
Lemma reach_in_tree (st : Store) :
  well_formed st ->
  forall k, reach (cells st) k ->
  forall p nd, nth_error (assemble 0 (cells st)) k = Some (p, nd) ->
               In nd (flat_map visit (fileTree st)).
Proof.
  intros (_ & _ & Hwf) k Hreach.
  induction Hreach as [id c Hc Hplace|id c q Hc Hplace Hq IH]; intros p nd Hnd.
  - rewrite (assemble_nth _ 0 _ Hc) in Hnd. injection Hnd as <- <-.
    apply in_flat_map. eexists. split; [|apply visit_self].
    unfold fileTree.
    apply (in_map snd _ (place c, _)). apply filter_In. split.
    + apply nth_error_In with (n := id). now rewrite (assemble_nth _ 0 _ Hc).
    + now rewrite Hplace.
  - destruct (Hwf id c q Hc Hplace) as (Hlt & cq & Hcq & Hdir).
    pose proof (assemble_nth _ 0 _ Hcq) as Hbq. cbn [Nat.add] in Hbq.
    specialize (IH _ _ Hbq).
    apply in_flat_map in IH as (r & Hr & Hin).
    apply in_flat_map. exists r. split; [exact Hr|].
    apply (visit_trans r _ nd Hin).
    apply visit_child with (kids := [] ++ map snd
             (filter (fun pn => is_under q (fst pn))
                     (skipn (S q) (assemble 0 (cells st))))).
    + unfold with_children. now rewrite Hdir.
    + cbn [app]. apply (in_map snd _ (p, nd)). apply filter_In. split.
      * apply nth_error_In with (n := id - S q).
        rewrite nth_error_skipn. now replace (S q + (id - S q)) with id by lia.
      * rewrite (assemble_nth _ 0 _ Hc) in Hnd. injection Hnd as <- _.
        rewrite Hplace. cbn. apply Nat.eqb_refl.
Qed.

(** Every node of the trees assembled is the node of a cell, with the
    nodes pushed on it. *)
Lemma assembled_from_cells (cs : list Cell) :
  Forall (fun c => children (node c) = None \/ children (node c) = Some []) cs ->
  forall n f,
    In f (flat_map visit (map snd (assemble n cs))) ->
    exists c kids, In c cs /\ f = with_children (node c) kids.
Proof.
  induction 1 as [|c cs Hc Hcs IH]; intros n f Hf; [contradiction|].
  cbn [assemble map flat_map] in Hf. apply in_app_or in Hf as [Hf|Hf].
  - cbn [snd] in Hf. set (kids := map snd _) in Hf.
    assert (Hkids : incl kids (map snd (assemble (S n) cs)))
      by (intros x Hx; apply in_map_iff in Hx as (pn & <- & Hpn);
          apply in_map; now apply filter_In in Hpn as [Hpn _]).
    assert (Hsub : f = with_children (node c) kids
                   \/ In f (flat_map visit kids)).
    { unfold with_children in *. destruct Hc as [Hc|Hc]; rewrite Hc in *.
      - destruct (node c) as [nm p t ct ch]. cbn in Hc. subst ch.
        rewrite visit_eq in Hf. destruct Hf as [<-|[]]. now left.
      - cbn [app] in *. rewrite visit_eq in Hf. destruct Hf as [<-|Hf];
          [now left | now right]. }
    destruct Hsub as [->|Hsub].
    + exists c, kids. split; [now left | reflexivity].
    + apply in_flat_map in Hsub as (kid & Hkid & Hsub).
      destruct (IH (S n) f) as (c' & kids' & Hc' & Hfields).
      { apply in_flat_map. exists kid. split; [now apply Hkids | exact Hsub]. }
      exists c', kids'. split; [now right | exact Hfields].
  - destruct (IH (S n) f Hf) as (c' & kids' & Hc' & Hfields).
    exists c', kids'. split; [now right | exact Hfields].
Qed.

(** A file of the tree is the node of a cell of the store. *)
Lemma tree_from_cells (st : Store) (f : FileNode) :
  well_formed st ->
  In f (flattenFiles (fileTree st)) ->
  exists c kids, In c (cells st) /\ type (node c) = file
                 /\ f = with_children (node c) kids.
Proof.
  intros (Hfresh & _) Hf.
  assert (Hfile : type f = file).
  { unfold flattenFiles in Hf. apply in_flat_map in Hf as (r & _ & Hf).
    exact (traverse_only_files r f Hf). }
  assert (Hin : In f (flat_map visit (map snd (assemble 0 (cells st))))).
  { unfold flattenFiles in Hf. apply in_flat_map in Hf as (r & Hr & Hf).
    apply in_flat_map. exists r. split; [|now apply traverse_in_visit].
    unfold fileTree in Hr. apply in_map_iff in Hr as (pn & <- & Hpn).
    apply in_map. now apply filter_In in Hpn as [Hpn _]. }
  destruct (assembled_from_cells Hfresh 0 f Hin) as (c & kids & Hc & ->).
  exists c, kids. repeat split; try assumption.
  destruct (with_children_fields (node c) kids) as (_ & _ & Ht & _).
  congruence.
Qed.

End Assembling.

(* ===================================================================== *)
(** ** extractZip: the store *)
(* ===================================================================== *)

Section Stores.

Import Files FS Zip ZipSpec.

Lemma nth_error_old (A : Type) (l more : list A) (k : nat) (x : A) :
  nth_error l k = Some x -> nth_error (l ++ more) k = Some x.
Proof.
  intros H. rewrite nth_error_app1; [exact H|].
  apply nth_error_Some. congruence.
Qed.

Lemma nth_error_snoc (A : Type) (l : list A) (x y : A) (k : nat) :
  nth_error (l ++ [x]) k = Some y ->
  nth_error l k = Some y \/ (k = length l /\ y = x).
Proof.
  intros H. destruct (Nat.lt_ge_cases k (length l)) as [Hlt|Hge].
  - left. now rewrite nth_error_app1 in H.
  - right. rewrite nth_error_app2 in H by exact Hge.
    destruct (k - length l) as [|m] eqn:E.
    + cbn in H. injection H as <-. split; [lia | reflexivity].
    + cbn in H. now destruct m.
Qed.

Lemma nth_error_new (A : Type) (l : list A) (x : A) :
  nth_error (l ++ [x]) (length l) = Some x.
Proof. rewrite nth_error_app2, Nat.sub_diag by lia. reflexivity. Qed.

Lemma reach_more (cs more : list Cell) (id : nat) :
  reach cs id -> reach (cs ++ more) id.
Proof.
  induction 1 as [id c Hc Hp|id c q Hc Hp _ IH].
  - apply reach_root with (c := c); [now apply nth_error_old | exact Hp].
  - apply reach_under with (c := c) (parent := q);
      [now apply nth_error_old | exact Hp | exact IH].
Qed.

Lemma is_directory_more (cs more : list Cell) (id : nat) :
  is_directory cs id -> is_directory (cs ++ more) id.
Proof.
  intros (c & Hc & Hd). exists c. split; [now apply nth_error_old | exact Hd].
Qed.

Lemma is_directory_lt (cs : list Cell) (id : nat) :
  is_directory cs id -> id < length cs.
Proof. intros (c & Hc & _). apply nth_error_Some. congruence. Qed.

Lemma has_get (key : jsstring) (m : list (jsstring * nat)) :
  has key m = true -> exists k id, get key m = Some id /\ In (k, id) m.
Proof.
  unfold has, get. induction m as [|[k id] m IH]; cbn; [discriminate|].
  destruct (JS.eqb k key).
  - intros _. exists k, id. split; [reflexivity | now left].
  - cbn. intros H. destruct (IH H) as (k' & id' & Hg & Hin).
    exists k', id'. split; [exact Hg | now right].
Qed.

Lemma has_cons (key k : jsstring) (id : nat) (m : list (jsstring * nat)) :
  has key ((k, id) :: m) = JS.eqb k key || has key m.
Proof. reflexivity. Qed.

Lemma get_cons_other (key k : jsstring) (id : nat) (m : list (jsstring * nat)) :
  k <> key -> get key ((k, id) :: m) = get key m
              /\ has key ((k, id) :: m) = has key m.
Proof.
  intros H. unfold get, has. cbn.
  destruct (JS.eqb k key) eqn:E; [apply JS_eqb_eq in E; congruence|].
  split; reflexivity.
Qed.

(** Where a node goes that is pushed under a key that [pathMap] has. *)
Lemma pushed_under_has (key : jsstring) (st : Store) :
  well_formed st -> has key (pathMap st) = true ->
  exists parent,
    pushed_under key (pathMap st) = Under parent
    /\ is_directory (cells st) parent
    /\ (linked st -> reach (cells st) parent).
Proof.
  intros (_ & Hmap & _) H. destruct (has_get _ _ H) as (k & id & Hg & Hin).
  exists id. unfold pushed_under. rewrite Hg. split; [reflexivity|].
  split; [exact (Hmap k id Hin)|]. intros Hl. exact (Hl k id Hin).
Qed.

(** A cell is added at the end of a store, at a place that is the root,
    a directory of the store, or nowhere. *)
Lemma well_formed_snoc (st : Store) (c : Cell) (m : list (jsstring * nat)) :
  well_formed st ->
  (children (node c) = None \/ children (node c) = Some []) ->
  (forall parent, place c = Under parent -> is_directory (cells st) parent) ->
  (forall key id, In (key, id) m ->
                  In (key, id) (pathMap st)
                  \/ (id = length (cells st) /\ children (node c) = Some [])) ->
  well_formed (mkStore (cells st ++ [c]) m).
Proof.
  intros (Hfresh & Hmap & Hup) Hc Hplace Hm. split; [|split]; cbn [cells pathMap].
  - apply Forall_app. split; [exact Hfresh|]. now constructor.
  - intros key id Hin. destruct (Hm key id Hin) as [Hold|[-> Hdir]].
    + apply is_directory_more. exact (Hmap key id Hold).
    + exists c. split; [apply nth_error_new | exact Hdir].
  - intros id c' parent Hc' Hp.
    apply nth_error_snoc in Hc' as [Hc'|[-> ->]].
    + destruct (Hup id c' parent Hc' Hp) as [Hlt Hd].
      split; [exact Hlt | now apply is_directory_more].
    + specialize (Hplace parent Hp). split.
      * now apply is_directory_lt.
      * now apply is_directory_more.
Qed.

Lemma linked_snoc (st : Store) (c : Cell) (m : list (jsstring * nat)) :
  linked st ->
  (forall key id, In (key, id) m ->
                  In (key, id) (pathMap st)
                  \/ (id = length (cells st)
                      /\ (place c = AtRoot
                          \/ exists parent, place c = Under parent
                                            /\ reach (cells st) parent))) ->
  linked (mkStore (cells st ++ [c]) m).
Proof.
  intros Hl Hm key id Hin. cbn [cells pathMap] in *.
  destruct (Hm key id Hin) as [Hold|[-> [Hroot|(parent & Hp & Hr)]]].
  - apply reach_more. exact (Hl key id Hold).
  - apply reach_root with (c := c); [apply nth_error_new | exact Hroot].
  - apply reach_under with (c := c) (parent := parent);
      [apply nth_error_new | exact Hp | now apply reach_more].
Qed.

(** What [add_directory] does to a store. *)
Lemma add_directory_effect (name path parent : jsstring) (st : Store) :
  well_formed st ->
  (truthy parent = true -> path <> parent) ->
  let st' := add_directory name path parent st in
  well_formed st'
  /\ (exists c, cells st' = cells st ++ [c] /\ node c = dirNode name path)
  /\ pathMap st' = (path, length (cells st)) :: pathMap st
  /\ (linked st ->
      truthy parent = false \/ has parent (pathMap st) = true ->
      linked st').
Proof.
  intros Hwf Hne st'. subst st'. unfold add_directory.
  set (m := (path, length (cells st)) :: pathMap st).
  set (place := if truthy parent && has parent m then _ else _).
  assert (Hplace : place = (if truthy parent
                            then if has parent (pathMap st)
                                 then pushed_under parent (pathMap st)
                                 else Nowhere
                            else AtRoot)).
  { subst place m. destruct (truthy parent) eqn:Ht; [|reflexivity].
    destruct (get_cons_other (length (cells st)) (pathMap st) (Hne eq_refl))
      as [Hg Hh].
    cbn [andb negb]. rewrite Hh. unfold pushed_under. rewrite Hg.
    reflexivity. }
  clearbody place. subst place.
  split; [|split; [|split]].
  - apply well_formed_snoc; try assumption; cbn [node Zip.place].
    + now right.
    + intros q Hq. destruct (truthy parent); [|discriminate].
      destruct (has parent (pathMap st)) eqn:Hh; [|discriminate].
      destruct (pushed_under_has _ Hwf Hh) as (q' & Hq' & Hd & _).
      congruence.
    + intros key id [[= <- <-]|Hin]; [right | left]; auto.
  - eexists. split; reflexivity.
  - reflexivity.
  - intros Hl Hparent. apply linked_snoc; [exact Hl|]. cbn [Zip.place].
    intros key id [[= <- <-]|Hin]; [right | now left].
    split; [reflexivity|].
    destruct (truthy parent); [|now left].
    destruct Hparent as [Hparent|Hparent]; [discriminate|].
    rewrite Hparent.
    destruct (pushed_under_has _ Hwf Hparent) as (q & Hq & _ & Hr).
    right. exists q. split; [exact Hq | now apply Hr].
Qed.

End Stores.

Section Parents.

Import Files FS Zip ZipSpec.

Lemma has_more (key k : jsstring) (id : nat) (m : list (jsstring * nat)) :
  has key m = true -> has key ((k, id) :: m) = true.
Proof. intros H. rewrite has_cons, H. apply orb_true_r. Qed.

Lemma has_new (k : jsstring) (id : nat) (m : list (jsstring * nat)) :
  has k ((k, id) :: m) = true.
Proof. now rewrite has_cons, JS_eqb_refl. Qed.

(** The loop that creates the missing parents adds directories only,
    [pathMap] has the path it ends with, and every directory of
    [pathMap] can still be reached if it could before. *)
Lemma make_parents_effect (parts : list jsstring) :
  forall currentPath st,
    well_formed st ->
    truthy currentPath = false \/ has currentPath (pathMap st) = true ->
    let st' := make_parents parts currentPath st in
    well_formed st'
    /\ (exists more, cells st' = cells st ++ more /\ Forall is_dir_cell more)
    /\ (forall key, has key (pathMap st) = true ->
                    has key (pathMap st') = true)
    /\ (truthy (last_parent parts currentPath) = false
        \/ has (last_parent parts currentPath) (pathMap st') = true)
    /\ (linked st -> linked st').
Proof.
  induction parts as [|part rest IH]; intros cur st Hwf Hcur.
  - cbn. split; [exact Hwf|]. split; [|auto].
    exists []. now rewrite app_nil_r.
  - destruct rest as [|r rest'].
    + cbn. split; [exact Hwf|]. split; [|auto].
      exists []. now rewrite app_nil_r.
    + cbn [make_parents last_parent].
      set (newPath := if truthy cur then cur ++ lit "/" ++ part else part).
      destruct (has newPath (pathMap st)) eqn:Hhas; cbn [negb]; cbv beta iota.
      * apply IH; auto.
      * assert (Hne : truthy cur = true -> newPath <> cur).
        { intros Ht E. subst newPath. rewrite Ht in E.
          apply (f_equal (@length _)) in E. rewrite !length_app in E.
          cbn in E. lia. }
        destruct (@add_directory_effect part newPath cur st Hwf Hne)
          as (Hwf1 & (c & Hcells & Hnode) & Hmap & Hl1).
        set (st1 := add_directory part newPath cur st) in *.
        assert (Hnew : truthy newPath = false
                       \/ has newPath (pathMap st1) = true)
          by (right; rewrite Hmap; apply has_new).
        destruct (IH newPath st1 Hwf1 Hnew)
          as (Hwf' & (more & Hmore & Hdirs) & Hkeys & Hlast & Hl').
        split; [exact Hwf'|].
        split; [|split; [|split; [exact Hlast|]]].
        -- exists (c :: more). split.
           ++ etransitivity; [exact Hmore|].
              rewrite Hcells, <- app_assoc. reflexivity.
           ++ constructor; [|exact Hdirs]. unfold is_dir_cell.
              now rewrite Hnode.
        -- intros key Hkey. apply Hkeys. rewrite Hmap. now apply has_more.
        -- intros Hl. apply Hl'. now apply Hl1.
Qed.

Lemma last_parent_join (parts : list jsstring) :
  forall currentPath,
    truthy currentPath = true ->
    last_parent parts currentPath
    = currentPath ++ match removelast parts with
                     | [] => []
                     | ps => lit "/" ++ join (lit "/") ps
                     end.
Proof.
  induction parts as [|part rest IH]; intros cur Ht.
  - cbn. now rewrite app_nil_r.
  - destruct rest as [|r rest'].
    + cbn. now rewrite app_nil_r.
    + change (last_parent (part :: r :: rest') cur)
        with (last_parent (r :: rest')
                (if truthy cur then cur ++ lit "/" ++ part else part)).
      rewrite Ht.
      rewrite IH by (destruct cur; [discriminate | reflexivity]).
      change (removelast (part :: r :: rest'))
        with (part :: removelast (r :: rest')).
      destruct (removelast (r :: rest')) as [|p ps].
      * cbn [join]. now rewrite <- !app_assoc, app_nil_r.
      * change (join (lit "/") (part :: p :: ps))
          with (part ++ lit "/" ++ join (lit "/") (p :: ps)).
        now rewrite <- !app_assoc.
Qed.

(** The loop ends with the parent path, when the first part of the path
    is not empty. *)
Lemma last_parent_is_parent (first : jsstring) (rest : list jsstring) :
  truthy first = true ->
  last_parent (first :: rest) [] = parentPath (first :: rest)
  \/ rest = [].
Proof.
  intros Ht. destruct rest as [|r rest']; [now right|]. left.
  change (last_parent (first :: r :: rest') [])
    with (last_parent (r :: rest') first).
  rewrite last_parent_join by exact Ht.
  unfold parentPath.
  change (removelast (first :: r :: rest'))
    with (first :: removelast (r :: rest')).
  destruct (removelast (r :: rest')) as [|p ps].
  - cbn [join]. now rewrite app_nil_r.
  - reflexivity.
Qed.

(** What [add_file] does to a store: directories are added, then the
    file, which can be reached when it has no parent, when [pathMap] has
    its parent, or when the loop ends with its parent. *)
Lemma add_file_effect (name path parent content : jsstring)
    (parts : list jsstring) (st : Store) :
  well_formed st ->
  let st' := add_file name path parent content parts st in
  well_formed st'
  /\ (forall key, has key (pathMap st) = true ->
                  has key (pathMap st') = true)
  /\ exists more c,
       cells st' = cells st ++ more ++ [c]
       /\ Forall is_dir_cell more
       /\ node c = fileNode name path content
       /\ (linked st ->
           linked st'
           /\ (truthy parent = false \/ has parent (pathMap st) = true
               \/ last_parent parts [] = parent ->
               reach (cells st') (length (cells st ++ more)))).
Proof.
  intros Hwf st'. subst st'. unfold add_file.
  set (created := mkNode name path file (Some content) None).
  destruct (truthy parent) eqn:Ht; cbn [andb negb].
  - destruct (has parent (pathMap st)) eqn:Hhas.
    + destruct (@pushed_under_has parent st Hwf Hhas) as (q & Hq & Hd & Hr).
      rewrite Hq. split; [|split].
      * apply well_formed_snoc; try assumption; cbn [node place]; auto.
        intros q' [= <-]. exact Hd.
      * auto.
      * exists [], (mkCell created (Under q)).
        cbn [app cells]. repeat split; [constructor| |].
        -- apply linked_snoc; [assumption | now left].
        -- intros _. rewrite app_nil_r.
           apply reach_under with (c := mkCell created (Under q)) (parent := q);
             [apply nth_error_new | reflexivity | apply reach_more; auto].
    + destruct (@make_parents_effect parts [] st Hwf (or_introl eq_refl))
        as (Hwf' & (more & Hmore & Hdirs) & Hkeys & Hlast & Hl').
      set (st1 := make_parents parts [] st) in *.
      set (place := if has parent (pathMap st1) then _ else _).
      assert (Hplace : forall q, place = Under q -> is_directory (cells st1) q).
      { intros q Hq. subst place.
        destruct (has parent (pathMap st1)) eqn:H1; [|discriminate].
        destruct (@pushed_under_has parent st1 Hwf' H1) as (q' & Hq' & Hd & _).
        congruence. }
      split; [|split].
      * apply well_formed_snoc; try assumption; cbn [node Zip.place]; auto.
      * exact Hkeys.
      * exists more, (mkCell created place). cbn [cells].
        split; [rewrite Hmore, <- app_assoc; reflexivity|].
        split; [exact Hdirs|]. split; [reflexivity|]. intros Hl. split.
        -- apply linked_snoc; [auto | now left].
        -- intros [H|[H|H]]; try discriminate.
           rewrite H, Ht in Hlast. destruct Hlast as [Hlast|Hlast];
             [discriminate|].
           destruct (@pushed_under_has parent st1 Hwf' Hlast)
             as (q & Hq & _ & Hr).
           rewrite <- Hmore.
           apply reach_under with (c := mkCell created place) (parent := q).
           ++ apply nth_error_new.
           ++ cbn [Zip.place]. subst place. now rewrite Hlast.
           ++ apply reach_more. auto.
  - split; [|split].
    + apply well_formed_snoc; try assumption; cbn [node place]; auto.
      intros q [=].
    + auto.
    + exists [], (mkCell created AtRoot).
      cbn [app cells]. repeat split; [constructor| |].
      * apply linked_snoc; [assumption | now left].
      * intros _. rewrite app_nil_r.
        apply reach_root with (c := mkCell created AtRoot);
          [apply nth_error_new | reflexivity].
Qed.

End Parents.

(* ===================================================================== *)
(** ** extractZip: the order of the entries *)
(* ===================================================================== *)

Section Sorting.

Import Zip ZipSpec.

Lemma precedes_total (a b : jsstring) :
  precedes a b = false -> precedes b a = true.
Proof.
  revert b. induction a as [|x a IH]; intros [|y b]; cbn; try congruence.
  destruct (N.ltb x y) eqn:E1; [discriminate|].
  destruct (N.ltb y x) eqn:E2; [reflexivity|]. apply IH.
Qed.

Lemma precedes_trans (a b c : jsstring) :
  precedes a b = true -> precedes b c = true -> precedes a c = true.
Proof.
  revert b c. induction a as [|x a IH]; intros [|y b] [|z c]; cbn;
    try congruence.
  destruct (N.ltb x y) eqn:Exy.
  - intros _. apply N.ltb_lt in Exy.
    destruct (N.ltb y z) eqn:Eyz.
    + intros _. apply N.ltb_lt in Eyz.
      assert (H : N.ltb x z = true) by (apply N.ltb_lt; lia). now rewrite H.
    + destruct (N.ltb z y) eqn:Ezy; [discriminate|].
      apply N.ltb_ge in Eyz, Ezy. intros _.
      assert (H : N.ltb x z = true) by (apply N.ltb_lt; lia). now rewrite H.
  - destruct (N.ltb y x) eqn:Eyx; [discriminate|].
    apply N.ltb_ge in Exy, Eyx. assert (x = y) by lia. subst y.
    destruct (N.ltb x z); [reflexivity|].
    destruct (N.ltb z x); [intros; discriminate|]. apply IH.
Qed.

Lemma precedes_longer (s r : jsstring) :
  r <> [] -> precedes (s ++ r) s = false.
Proof.
  intros H. induction s as [|x s IH]; cbn.
  - destruct r; [congruence | reflexivity].
  - now rewrite N.ltb_irrefl.
Qed.

Lemma insert_In (e x : ZipEntry) (l : list ZipEntry) :
  In x (insert e l) <-> x = e \/ In x l.
Proof.
  induction l as [|h t IH]; cbn.
  - intuition.
  - destruct (precedes _ _); cbn; rewrite ?IH; intuition.
Qed.

Lemma sorted_In (x : ZipEntry) (files : list ZipEntry) :
  In x (sorted files) <-> In x files.
Proof.
  unfold sorted. induction files as [|e es IH]; cbn; [tauto|].
  rewrite insert_In, IH. intuition.
Qed.

Lemma insert_sorted (e : ZipEntry) (l : list ZipEntry) :
  StronglySorted in_order l -> StronglySorted in_order (insert e l).
Proof.
  induction 1 as [|h t Ht IH Hall]; cbn.
  - constructor; constructor.
  - destruct (precedes (entry_name e) (entry_name h)) eqn:E.
    + constructor; [now constructor|]. constructor; [exact E|].
      apply Forall_forall. intros x Hx. rewrite Forall_forall in Hall.
      exact (precedes_trans _ _ _ E (Hall x Hx)).
    + constructor; [exact IH|]. apply Forall_forall. intros x Hx.
      apply insert_In in Hx as [->|Hx].
      * now apply precedes_total.
      * rewrite Forall_forall in Hall. now apply Hall.
Qed.

Lemma sorted_sorted (files : list ZipEntry) :
  StronglySorted in_order (sorted files).
Proof.
  unfold sorted. induction files as [|e es IH]; cbn; [constructor|].
  now apply insert_sorted.
Qed.

Lemma sorted_later (pre post : list ZipEntry) (d : ZipEntry) :
  StronglySorted in_order (pre ++ d :: post) -> Forall (in_order d) post.
Proof.
  induction pre as [|x pre IH]; cbn; intros H; inversion H; subst; auto.
Qed.

(** An entry whose key is the beginning of the key of another comes
    before it. *)
Lemma prefix_comes_first (files pre post : list ZipEntry) (d d' : ZipEntry)
    (r : jsstring) :
  sorted files = pre ++ d :: post ->
  In d' files -> r <> [] -> entry_name d = entry_name d' ++ r ->
  In d' pre.
Proof.
  intros Hs Hin Hr Hname.
  apply sorted_In in Hin. rewrite Hs in Hin.
  apply in_app_or in Hin as [Hin|[<-|Hin]]; [exact Hin| |].
  - apply (f_equal (@length _)) in Hname. rewrite length_app in Hname.
    destruct r; [congruence | cbn in Hname; lia].
  - pose proof (sorted_sorted files) as Hsorted. rewrite Hs in Hsorted.
    apply sorted_later in Hsorted. rewrite Forall_forall in Hsorted.
    specialize (Hsorted d' Hin). unfold in_order in Hsorted.
    rewrite Hname, precedes_longer in Hsorted by exact Hr. discriminate.
Qed.

(** The key of the directory that an entry lies in is the beginning of
    the key of the entry. *)
Lemma parent_entry_prefix (key key' : jsstring) :
  truthy (parentPath (split App.slash (cleanPath key))) = true ->
  cleanPath key' = parentPath (split App.slash (cleanPath key)) ->
  exists r, r <> [] /\ key = key' ++ r.
Proof.
  intros Ht Hparent. pose proof (parent_shorter _ Ht) as Hc.
  rewrite <- Hparent in Hc.
  set (nm := last (split App.slash (cleanPath key)) []) in *.
  assert (Hr : forall r, key = key' ++ r -> r <> []).
  { intros r E ->. rewrite app_nil_r in E. subst key'.
    apply (f_equal (@length _)) in Hc. rewrite !length_app in Hc.
    cbn in Hc. lia. }
  assert (H : exists r, key = key' ++ r).
  { clearbody nm. clear Hr Ht Hparent.
    destruct (cleanPath_cases key) as [E|E];
      destruct (cleanPath_cases key') as [E'|E'];
      remember (cleanPath key) as c eqn:Ec;
      remember (cleanPath key') as c' eqn:Ec'; clear Ec Ec';
      subst key key' c.
    - exists (lit "/" ++ nm). reflexivity.
    - exists nm. now rewrite <- app_assoc.
    - exists (lit "/" ++ nm ++ lit "/"). now rewrite <- !app_assoc.
    - exists (nm ++ lit "/"). now rewrite <- !app_assoc. }
  destruct H as [r E]. exists r. split; [now apply Hr | exact E].
Qed.

End Sorting.

(* ===================================================================== *)
(** ** extractZip: what the tree shows *)
(* ===================================================================== *)

Section Extracting.

Import Files FS Zip ZipSpec.

Lemma clean_longer_than_parent (s : jsstring) :
  truthy (parentPath (split App.slash s)) = true ->
  s <> parentPath (split App.slash s).
Proof.
  intros Ht E. pose proof (parent_shorter _ Ht) as H.
  rewrite <- E in H. apply (f_equal (@length _)) in H.
  rewrite !length_app in H. cbn in H. lia.
Qed.

Lemma shown_cases (e : ZipEntry) :
  shown e = true <->
  dir e = false /\ hidden (entry_name e) = false
  /\ truthy (cleanPath (entry_name e)) = true.
Proof.
  unfold shown. rewrite !andb_true_iff, !negb_true_iff. tauto.
Qed.

(** One entry more: the files of the store are still nodes of entries. *)
Lemma process_extracted (e : ZipEntry) (done : list ZipEntry)
    (st st' : Store) :
  extracted done st -> process e st = inr st' ->
  extracted (done ++ [e]) st'.
Proof.
  intros (Hwf & Hfiles) Hp.
  assert (Hold : forall c, In c (cells st) -> type (node c) = file ->
                 exists e0 content,
                   In e0 (done ++ [e]) /\ shown e0 = true
                   /\ text e0 = inr content /\ node c = node_of e0 content).
  { intros c Hc Ht. destruct (Hfiles c Hc Ht) as (e0 & ct & H0 & H).
    exists e0, ct. split; [apply in_or_app; now left | exact H]. }
  unfold process in Hp.
  destruct (hidden (entry_name e)) eqn:Hh;
    [injection Hp as <-; now split|].
  destruct (truthy (cleanPath (entry_name e))) eqn:Ht; cbn [negb] in Hp;
    [|injection Hp as <-; now split].
  set (clean := cleanPath (entry_name e)) in *.
  set (parts := split App.slash clean) in *.
  destruct (dir e) eqn:Hd.
  - injection Hp as <-.
    destruct (@add_directory_effect (last parts []) clean (parentPath parts)
                st Hwf (@clean_longer_than_parent clean))
      as (Hwf' & (c & Hcells & Hnode) & _).
    split; [exact Hwf'|]. intros c' Hc' Ht'. rewrite Hcells in Hc'.
    apply in_app_or in Hc' as [Hc'|[<-|[]]]; [now apply Hold|].
    rewrite Hnode in Ht'. discriminate.
  - destruct (text e) as [err|content] eqn:Htext; [discriminate|].
    injection Hp as <-.
    destruct (@add_file_effect (last parts []) clean (parentPath parts)
                content parts st Hwf)
      as (Hwf' & _ & more & c & Hcells & Hdirs & Hnode & _).
    split; [exact Hwf'|]. intros c' Hc' Ht'. rewrite Hcells in Hc'.
    apply in_app_or in Hc' as [Hc'|Hc']; [now apply Hold|].
    apply in_app_or in Hc' as [Hc'|[<-|[]]].
    + rewrite Forall_forall in Hdirs. specialize (Hdirs c' Hc').
      unfold is_dir_cell in Hdirs. congruence.
    + exists e, content. split; [apply in_or_app; right; now left|].
      split; [apply shown_cases; auto|]. split; [exact Htext | exact Hnode].
Qed.

(** The first part of a clean path whose key does not begin with a
    slash is not empty, so that the loop ends with the parent path. *)
Lemma loop_reaches_parent (key : jsstring) :
  truthy (cleanPath key) = true ->
  startsWith key (lit "/") = false ->
  truthy (parentPath (split App.slash (cleanPath key))) = false
  \/ last_parent (split App.slash (cleanPath key)) []
     = parentPath (split App.slash (cleanPath key)).
Proof.
  intros Ht Hs.
  destruct (cleanPath key) as [|x s] eqn:Ec; [discriminate|].
  assert (Hx : x <> App.slash).
  { assert (Hnil : forall t : jsstring, startsWith t [] = true)
      by (intros []; reflexivity).
    intros ->. destruct (cleanPath_cases key) as [E|E];
      rewrite Ec in E; rewrite E in Hs; cbn in Hs; rewrite Hnil in Hs;
      discriminate. }
  destruct (split_head s Hx) as (seg & segs & Hsplit). rewrite Hsplit.
  destruct (@last_parent_is_parent (x :: seg) segs eq_refl) as [H| ->].
  - now right.
  - now left.
Qed.

(** One entry more, when the parent of a directory entry came before
    it: what could be reached still can, and so can the new node. *)
Lemma process_complete (e : ZipEntry) (done : list ZipEntry)
    (st st' : Store) :
  extracted done st -> complete done st -> parent_before done e ->
  process e st = inr st' ->
  complete (done ++ [e]) st'.
Proof.
  intros (Hwf & _) (Hl & Hdirs & Hfiles) Hparent Hp.
  unfold process in Hp.
  destruct (hidden (entry_name e)) eqn:Hh.
  { injection Hp as <-. split; [exact Hl|]. split.
    - intros d Hd. apply in_app_or in Hd as [Hd|[<-|[]]];
        [now apply Hdirs | congruence].
    - intros e0 ct H0. apply in_app_or in H0 as [H0|[<-|[]]];
        [now apply Hfiles|].
      intros Hs. apply shown_cases in Hs. destruct Hs as (_ & Hs & _).
      congruence. }
  destruct (truthy (cleanPath (entry_name e))) eqn:Ht; cbn [negb] in Hp.
  2:{ injection Hp as <-. split; [exact Hl|]. split.
      - intros d Hd. apply in_app_or in Hd as [Hd|[<-|[]]];
          [now apply Hdirs | congruence].
      - intros e0 ct H0. apply in_app_or in H0 as [H0|[<-|[]]];
          [now apply Hfiles|].
        intros Hs. apply shown_cases in Hs. destruct Hs as (_ & _ & Hs).
        congruence. }
  set (clean := cleanPath (entry_name e)) in *.
  set (parts := split App.slash clean) in *.
  destruct (dir e) eqn:Hd.
  - injection Hp as <-.
    destruct (@add_directory_effect (last parts []) clean (parentPath parts)
                st Hwf (@clean_longer_than_parent clean))
      as (Hwf' & (c & Hcells & Hnode) & Hmap & Hl').
    assert (Hhas : truthy (parentPath parts) = false
                   \/ has (parentPath parts) (pathMap st) = true).
    { destruct (truthy (parentPath parts)) eqn:Hpt; [right | now left].
      destruct (Hparent Hd Hh Ht Hpt) as (d' & Hd' & Hdir' & Hclean').
      fold clean parts in Hclean'. rewrite <- Hclean'.
      destruct (@parent_entry_prefix (entry_name e) (entry_name d'))
        as (r & _ & Hr); [exact Hpt | exact Hclean' |].
      apply Hdirs; try assumption.
      - apply hidden_prefix with (t := r). now rewrite <- Hr.
      - now rewrite Hclean'. }
    split; [now apply Hl'|]. split.
    + intros d Hin. rewrite Hmap.
      apply in_app_or in Hin as [Hin|[<-|[]]].
      * intros H1 H2 H3. apply has_more. now apply Hdirs.
      * intros _ _ _. apply has_new.
    + intros e0 ct H0. apply in_app_or in H0 as [H0|[<-|[]]].
      * intros H1 H2 H3. destruct (Hfiles e0 ct H0 H1 H2 H3)
          as (id & c0 & Hid & Hn & Hr).
        exists id, c0. rewrite Hcells.
        split; [now apply nth_error_old|]. split; [exact Hn|].
        now apply reach_more.
      * intros Hs. apply shown_cases in Hs. destruct Hs as (Hs & _).
        congruence.
  - destruct (text e) as [err|content] eqn:Htext; [discriminate|].
    injection Hp as <-.
    destruct (@add_file_effect (last parts []) clean (parentPath parts)
                content parts st Hwf)
      as (_ & Hkeys & more & c & Hcells & _ & Hnode & Hlinked).
    destruct (Hlinked Hl) as (Hl' & Hreach).
    split; [exact Hl'|]. split.
    + intros d Hin. apply in_app_or in Hin as [Hin|[<-|[]]].
      * intros H1 H2 H3. apply Hkeys. now apply Hdirs.
      * congruence.
    + intros e0 ct H0. apply in_app_or in H0 as [H0|[<-|[]]].
      * intros H1 H2 H3. destruct (Hfiles e0 ct H0 H1 H2 H3)
          as (id & c0 & Hid & Hn & Hr).
        exists id, c0. rewrite Hcells.
        split; [now apply nth_error_old|]. split; [exact Hn|].
        now apply reach_more.
      * intros _ Hct Hslash. rewrite Htext in Hct. injection Hct as <-.
        exists (length (cells st ++ more)), c.
        split; [rewrite Hcells, app_assoc; apply nth_error_new|].
        split; [exact Hnode|]. apply Hreach.
        destruct (loop_reaches_parent _ Ht Hslash) as [H|H]; auto.
Qed.

Lemma process_all_failed (entries : list ZipEntry) (err : Hook.jserror) :
  fold_left (fun acc e => match acc with
                          | inl err => inl err
                          | inr st => process e st
                          end)
            entries (inl err) = inl err.
Proof. induction entries as [|e es IH]; [reflexivity | exact IH]. Qed.

Lemma process_all_cons (e : ZipEntry) (es : list ZipEntry) (st : Store) :
  process_all (e :: es) st
  = match process e st with
    | inl err => inl err
    | inr st1 => process_all es st1
    end.
Proof.
  unfold process_all. cbn [fold_left].
  destruct (process e st) as [err|st1]; [apply process_all_failed|].
  reflexivity.
Qed.

Lemma process_all_extracted (entries : list ZipEntry) :
  forall done st st',
    extracted done st -> process_all entries st = inr st' ->
    extracted (done ++ entries) st'.
Proof.
  induction entries as [|e es IH]; intros done st st' Hinv Hp.
  - injection Hp as <-. now rewrite app_nil_r.
  - rewrite process_all_cons in Hp.
    destruct (process e st) as [err|st1] eqn:He; [discriminate|].
    replace (done ++ e :: es) with ((done ++ [e]) ++ es)
      by now rewrite <- app_assoc.
    apply IH with (st := st1); [|exact Hp].
    now apply process_extracted with (st := st).
Qed.

Lemma process_all_complete (entries : list ZipEntry) :
  forall done st st',
    extracted done st -> complete done st ->
    (forall pre d post,
        entries = pre ++ d :: post -> parent_before (done ++ pre) d) ->
    process_all entries st = inr st' ->
    complete (done ++ entries) st'.
Proof.
  induction entries as [|e es IH]; intros done st st' Hinv Hc Hparents Hp.
  - injection Hp as <-. now rewrite app_nil_r.
  - rewrite process_all_cons in Hp.
    destruct (process e st) as [err|st1] eqn:He; [discriminate|].
    replace (done ++ e :: es) with ((done ++ [e]) ++ es)
      by now rewrite <- app_assoc.
    apply IH with (st := st1); [| | |exact Hp].
    + now apply process_extracted with (st := st).
    + apply process_complete with (st := st); try assumption.
      specialize (Hparents [] e es eq_refl). now rewrite app_nil_r in Hparents.
    + intros pre d post E. rewrite <- app_assoc.
      apply (Hparents (e :: pre) d post). now rewrite E.
Qed.

(** Reading fails exactly when the content of an entry that is shown
    cannot be read. *)
Lemma process_all_returns (entries : list ZipEntry) :
  forall st,
    (exists st', process_all entries st = inr st')
    <-> (forall e, In e entries -> shown e = true ->
                   exists content, text e = inr content).
Proof.
  induction entries as [|e es IH]; intros st.
  - split; [intros _ e [] | intros _; now exists st].
  - rewrite process_all_cons. split.
    + intros (st' & Hp) e0 [<-|Hin] Hs.
      * apply shown_cases in Hs. destruct Hs as (Hd & Hh & Ht).
        unfold process in Hp. rewrite Hh, Ht, Hd in Hp. cbn [negb] in Hp.
        destruct (text e) as [err|content]; [discriminate|].
        now exists content.
      * destruct (process e st) as [err|st1]; [discriminate|].
        apply (proj1 (IH st1)); [now exists st' | exact Hin | exact Hs].
    + intros Hall.
      assert (H1 : exists st1, process e st = inr st1).
      { unfold process.
        destruct (hidden (entry_name e)) eqn:Hh; [now exists st|].
        destruct (truthy (cleanPath (entry_name e))) eqn:Ht; cbn [negb];
          [|now exists st].
        destruct (dir e) eqn:Hd; [eexists; reflexivity|].
        destruct (Hall e (or_introl eq_refl)) as (content & Hc);
          [apply shown_cases; auto|].
        rewrite Hc. eexists; reflexivity. }
      destruct H1 as (st1 & ->). apply IH.
      intros e0 Hin. apply Hall. now right.
Qed.

Lemma empty_extracted : extracted [] empty /\ complete [] empty.
Proof.
  split; split.
  - split; [constructor|]. split.
    + intros key id [].
    + intros id c parent H. now destruct id.
  - intros c [].
  - intros key id [].
  - split; [intros d []|intros e ct []].
Qed.

Lemma file_with_children (e : ZipEntry) (content : jsstring)
    (kids : list FileNode) :
  with_children (node_of e content) kids = node_of e content.
Proof. reflexivity. Qed.

(** [extractZip] returns a tree exactly when the content of every file
    entry that is not skipped can be read. *)
Theorem extractZip_returns (files : list ZipEntry) :
  (exists tree, extractZip files = inr tree)
  <-> (forall e, In e files -> shown e = true ->
                 exists content, text e = inr content).
Proof.
  unfold extractZip. split.
  - intros (tree & H) e Hin Hs.
    destruct (process_all (sorted files) empty) as [err|st] eqn:Hp;
      [discriminate|].
    apply (proj1 (process_all_returns (sorted files) empty));
      [now exists st | now apply sorted_In | exact Hs].
  - intros Hall.
    destruct (proj2 (process_all_returns (sorted files) empty)) as (st & ->).
    + intros e Hin. apply Hall. now apply sorted_In.
    + now eexists.
Qed.

(** Every file of the tree that [extractZip] returns is the node of a
    file entry of the archive that is not skipped: its path is the key
    of the entry without the slash at its end, its name the last part
    of that path, its content the text of the entry. *)
Theorem extracted_files_are_entries (files : list ZipEntry)
    (tree : list FileNode) (f : FileNode) :
  extractZip files = inr tree ->
  In f (flattenFiles tree) ->
  exists e content,
    In e files /\ dir e = false /\ hidden (entry_name e) = false
    /\ text e = inr content
    /\ f = fileNode (last (split App.slash (cleanPath (entry_name e))) [])
                    (cleanPath (entry_name e)) content.
Proof.
  unfold extractZip. intros H Hf.
  destruct (process_all (sorted files) empty) as [err|st] eqn:Hp;
    [discriminate|]. injection H as <-.
  destruct (@process_all_extracted (sorted files) [] empty st
              (proj1 empty_extracted) Hp) as (Hwf & Hfiles).
  destruct (tree_from_cells f Hwf Hf) as (c & kids & Hc & Ht & ->).
  destruct (Hfiles c Hc Ht) as (e & content & He & Hs & Htext & Hnode).
  apply shown_cases in Hs. destruct Hs as (Hd & Hh & _).
  exists e, content. rewrite Hnode, file_with_children.
  cbn [app] in He. apply (proj1 (sorted_In _ _)) in He.
  repeat split; assumption.
Qed.

(** For an archive in which every directory entry has an entry for the
    directory it lies in, and whose contents can be read: the tree that
    [extractZip] returns has a file for every file entry that is not
    skipped and whose key does not begin with a slash. *)
Theorem extractZip_shows_all (files : list ZipEntry) :
  parents_listed files ->
  (forall e, In e files -> shown e = true ->
             exists content, text e = inr content) ->
  exists tree,
    extractZip files = inr tree
    /\ forall e content,
         In e files -> shown e = true -> text e = inr content ->
         startsWith (entry_name e) (lit "/") = false ->
         In (node_of e content) (flattenFiles tree).
Proof.
  intros Hparents Hall.
  destruct (proj2 (process_all_returns (sorted files) empty)) as (st & Hp).
  { intros e Hin. apply Hall. now apply sorted_In. }
  unfold extractZip. rewrite Hp. eexists. split; [reflexivity|].
  destruct empty_extracted as [He Hc].
  pose proof (@process_all_extracted (sorted files) [] empty st He Hp)
    as (Hwf & _).
  assert (Hcomplete : complete ([] ++ sorted files) st).
  { apply process_all_complete with (st := empty); try assumption.
    intros pre d post E Hd Hh Ht Hpt. cbn [app].
    assert (Hin : In d files)
      by (apply sorted_In; rewrite E; apply in_or_app; right; now left).
    destruct (Hparents d Hin Hd Hh Ht Hpt) as (d' & Hd' & Hdir' & Hclean').
    exists d'. split; [|split; assumption].
    destruct (@parent_entry_prefix (entry_name d) (entry_name d') Hpt Hclean')
      as (r & Hr & Hname).
    exact (prefix_comes_first files pre post d d' E Hd' Hr Hname). }
  destruct Hcomplete as (_ & _ & Hfiles).
  intros e content Hin Hs Htext Hslash.
  destruct (Hfiles e content) as (id & c & Hid & Hnode & Hreach);
    try assumption; [cbn [app]; now apply sorted_In|].
  pose proof (assemble_nth (cells st) 0 id Hid) as Hb.
  pose proof (@reach_in_tree st Hwf id Hreach _ _ Hb) as Hvisit.
  rewrite Hnode, file_with_children in Hvisit.
  apply in_flat_map in Hvisit as (r & Hr & Hvisit).
  apply in_flat_map. exists r. split; [exact Hr|].
  now apply visit_file.
Qed.

End Extracting.

Section ExtractingWitnesses.

Import Files Zip ZipSpec ZipSamples.

Lemma archive_parents_listed : parents_listed archive.
Proof.
  intros d Hin Hd Hh Ht parent Hp.
  destruct Hin as [<-|[<-|[<-|[<-|[<-|[]]]]]]; try discriminate.
  exists src. split; [vm_compute; tauto|]. split; reflexivity.
Qed.

Lemma archive_readable (e : ZipEntry) :
  In e archive -> shown e = true -> exists content, text e = inr content.
Proof.
  intros [<-|[<-|[<-|[<-|[<-|[]]]]]] Hs; try discriminate;
    eexists; reflexivity.
Qed.

Lemma extracted_files_are_entries_witness :
  exists e content,
    In e archive /\ dir e = false /\ hidden (entry_name e) = false
    /\ text e = inr content
    /\ button_node
       = fileNode (last (split App.slash (cleanPath (entry_name e))) [])
                  (cleanPath (entry_name e)) content.
Proof.
  apply (@extracted_files_are_entries archive archive_tree button_node).
  - reflexivity.
  - vm_compute. tauto.
Defined.

Lemma extractZip_shows_all_witness :
  exists tree,
    extractZip archive = inr tree
    /\ In (node_of button (lit "export const Button = 1"))
          (flattenFiles tree).
Proof.
  destruct (@extractZip_shows_all archive archive_parents_listed
              archive_readable) as (tree & Htree & Hall).
  exists tree. split; [exact Htree|].
  apply Hall; [vm_compute; tauto | reflexivity | reflexivity | reflexivity].
Defined.

End ExtractingWitnesses.

(* ===================================================================== *)
(** ** What a fix does to the tree: proofs *)
(* ===================================================================== *)

Section TreesMore.

Import Files FixEffect TreeSpec.

(** Files off the target path are left as they are. *)
Lemma updated_off_target target fixedCode (l : list FileNode) :
  (forall f, In f l -> path f <> target) ->
  Forall2 (updated target fixedCode) l l.
Proof.
  induction l as [|x l IH]; intros H; constructor.
  - unfold updated. repeat split.
    destruct (JS.eqb (path x) target) eqn:E; [|reflexivity].
    apply JS_eqb_eq in E. elim (H x (or_introl eq_refl) E).
  - apply IH. intros f Hf. apply H. now right.
Qed.

Lemma unshadowed_child target nm p t c nodes (x : FileNode) :
  unshadowed target [mkNode nm p t c (Some nodes)] ->
  In x nodes -> unshadowed target [x].
Proof.
  intros H Hx n m Hn. apply H. cbn [flat_map] in *. rewrite app_nil_r in *.
  rewrite visit_eq. right. apply in_flat_map. now exists x.
Qed.

Lemma unshadowed_member target (nodes : list FileNode) (x : FileNode) :
  unshadowed target nodes -> In x nodes -> unshadowed target [x].
Proof.
  intros H Hx n m Hn. apply H. cbn [flat_map] in Hn. rewrite app_nil_r in Hn.
  apply in_flat_map. now exists x.
Qed.

Lemma self_updated target fixedCode nm p t c ch ch' :
  updated target fixedCode (mkNode nm p t c ch)
    (mkNode nm p t (if JS.eqb p target then Some fixedCode else c) ch').
Proof. unfold updated. cbn. repeat split. Qed.

Lemma update_node_updated target fixedCode (n : FileNode) :
  unshadowed target [n] ->
  Forall2 (updated target fixedCode)
          (traverse_node n) (traverse_node (update_node target fixedCode n)).
Proof.
  induction n as [nm p t c|nm p t c nodes IH] using FileNode_induction;
    intros Hu; rewrite update_node_eq; destruct (JS.eqb p target) eqn:E.
  - rewrite !traverse_node_eq. apply Forall2_app; [|constructor].
    destruct t; cbn; constructor; [|constructor].
    pose proof (self_updated target fixedCode nm p file c None None) as H.
    now rewrite E in H.
  - apply updated_off_target. intros f Hf. rewrite traverse_node_eq in Hf.
    apply in_app_or in Hf as [Hf|[]]. destruct t; [|contradiction].
    destruct Hf as [<-|[]]. cbn. intros Hp. rewrite Hp, JS_eqb_refl in E.
    discriminate.
  - rewrite !traverse_node_eq. apply Forall2_app.
    + destruct t; cbn; constructor; [|constructor].
      pose proof (self_updated target fixedCode nm p file c
                    (Some nodes) (Some nodes)) as H.
      now rewrite E in H.
    + apply updated_off_target. intros f Hf.
      apply JS_eqb_eq in E.
      apply (Hu (mkNode nm p t c (Some nodes)) f).
      * cbn [flat_map]. rewrite app_nil_r. apply visit_self.
      * exact E.
      * unfold below. cbn [children].
        apply in_flat_map in Hf as (x & Hx & Hf).
        apply in_flat_map. exists x. split; [exact Hx|].
        now apply traverse_in_visit.
  - rewrite !traverse_node_eq. apply Forall2_app.
    + destruct t; cbn; constructor; [|constructor].
      pose proof (self_updated target fixedCode nm p file c
                    (Some nodes)
                    (Some (map (update_node target fixedCode) nodes))) as H.
      now rewrite E in H.
    + rewrite flat_map_map. apply Forall2_flat_map.
      rewrite Forall_forall in IH. apply Forall_forall. intros x Hx.
      apply (IH x Hx). exact (@unshadowed_child target nm p t c nodes x Hu Hx).
Qed.

Lemma update_tree_updated (target fixedCode : jsstring)
    (nodes : list FileNode) :
  unshadowed target nodes ->
  Forall2 (updated target fixedCode)
          (flattenFiles nodes)
          (flattenFiles (updateFileInTree target fixedCode nodes)).
Proof.
  intros Hu. unfold flattenFiles, updateFileInTree.
  rewrite flat_map_map.
  apply Forall2_flat_map, Forall_forall. intros n Hn.
  apply update_node_updated. exact (@unshadowed_member target nodes n Hu Hn).
Qed.

(** [updateFileInTree] keeps the files of the tree, in their order, with
    their names, paths and types, and changes no content but at the
    target path.  In a tree where no node at the target path lies below
    another node at that path, the content of every file at the target
    path becomes the new code, and every other file keeps its content. *)
Theorem updateFileInTree_only_content (target fixedCode : jsstring)
    (nodes : list FileNode) :
  Forall2 (same_but_content target fixedCode)
          (flattenFiles nodes)
          (flattenFiles (updateFileInTree target fixedCode nodes))
  /\ (unshadowed target nodes ->
      Forall2 (updated target fixedCode)
              (flattenFiles nodes)
              (flattenFiles (updateFileInTree target fixedCode nodes))).
Proof.
  split; [apply update_tree_files | apply update_tree_updated].
Qed.

End TreesMore.

Section TreesWitness.

Import Files FixEffect TreeSpec.

Lemma stale_project_unshadowed :
  unshadowed (lit "src/App.tsx") stale_project.
Proof.
  intros n m Hn Hp Hm. cbn in Hn.
  destruct Hn as [<-|[<-|[]]]; [discriminate | contradiction].
Qed.

Lemma updateFileInTree_only_content_witness :
  Forall2 (updated (lit "src/App.tsx") (lit "export default 2"))
          [stale_app]
          (flattenFiles (updateFileInTree (lit "src/App.tsx")
                           (lit "export default 2") stale_project)).
Proof.
  exact (proj2 (updateFileInTree_only_content (lit "src/App.tsx")
                  (lit "export default 2") stale_project)
               stale_project_unshadowed).
Defined.

End TreesWitness.

Section FixApplied.

Import Files App FixEffect TreeSpec.

Variable parse : jsstring -> option jsstring.

(** The tree after a fix that changes the file. *)
Lemma settled_fix_tree (target : FileNode) (c fixedCode : jsstring)
    (e : Hook.WriteRun) (a : App) :
  inflight a = Some target ->
  content target = Some c ->
  fixedCode <> [] -> fixedCode <> c ->
  files (step parse (FixerSettles (Ok (Some fixedCode)) e) a)
  = updateFileInTree (path target) fixedCode (filesRef a).
Proof.
  intros Hin Hc Hne Hdiff.
  assert (Htest : truthy fixedCode && content_differs fixedCode target = true).
  { unfold content_differs. rewrite Hc.
    destruct fixedCode; [congruence|]. cbn [truthy andb].
    apply negb_true_iff. destruct (JS.eqb _ c) eqn:E; [|reflexivity].
    apply JS_eqb_eq in E. congruence. }
  set (h := handle parse (FixerSettles (Ok (Some fixedCode)) e) a).
  assert (Hh : files h = updateFileInTree (path target) fixedCode (filesRef a)).
  { subst h. cbn [handle]. rewrite Hin. unfold fixCodeError_settled.
    rewrite Htest. reflexivity. }
  unfold step. fold h. destruct (deps_changed a h); [|exact Hh].
  destruct (terminal_effect_frame h) as (F1 & _). now rewrite F1.
Qed.

(** A fix that changes the file: the new code is written to the sandbox
    at the path of the target, the tree keeps its files and changes no
    content but at that path, the fix is counted and logged, and the
    busy flag is released.  In a tree where no node at that path lies
    below another node at that path, every file at that path has the
    new code as its content afterwards, and every other file has kept
    its content. *)
Theorem fix_applied (target : FileNode) (c fixedCode : jsstring)
    (e : Hook.WriteRun) (a : App) (i : Hook.Instance) :
  inflight a = Some target ->
  content target = Some c ->
  fixedCode <> [] -> fixedCode <> c ->
  Hook.webcontainerInstance (Hook.globals (world a)) = Some i ->
  let a' := step parse (FixerSettles (Ok (Some fixedCode)) e) a in
  Hook.calls (world a')
  = Hook.calls (world a) ++ [Hook.CWriteFile i (path target) fixedCode]
  /\ Forall2 (same_but_content (path target) fixedCode)
             (flattenFiles (filesRef a)) (flattenFiles (files a'))
  /\ (unshadowed (path target) (filesRef a) ->
      Forall2 (updated (path target) fixedCode)
              (flattenFiles (filesRef a)) (flattenFiles (files a')))
  /\ filesRef a' = files a'
  /\ fixCount a' = S (fixCount a)
  /\ fixLog a' = fixLog a ++ [LogFixed (path target)]
  /\ fixingRef a' = false /\ inflight a' = None.
Proof.
  intros Hin Hc Hne Hdiff Hi a'.
  destruct (@settled_fix_effect parse target c fixedCode e a i
              Hin Hc Hne Hdiff Hi) as (H1 & H2 & H3).
  split; [exact H1|]. split; [exact H2|]. split; [|exact H3].
  intros Hu. subst a'.
  rewrite (@settled_fix_tree target c fixedCode e a Hin Hc Hne Hdiff).
  now apply update_tree_updated.
Qed.

End FixApplied.

Section FixAppliedWitness.

Import Files App FixEffect TreeSpec.

Lemma project_unshadowed :
  unshadowed (lit "src/App.tsx") Examples.project.
Proof.
  intros n m Hn Hp Hm. cbn in Hn.
  destruct Hn as [<-|[<-|[]]]; [discriminate | contradiction].
Qed.

Lemma fix_applied_witness :
  Forall2 (updated (lit "src/App.tsx") (lit "export default 2"))
          [Examples.src_app]
          (flattenFiles
             (files (step parseStackTrace
                       (FixerSettles (Ok (Some (lit "export default 2")))
                                     Examples.writable)
                       Examples.fixing))).
Proof.
  refine (proj1 (proj2 (proj2 (@fix_applied parseStackTrace
            Examples.src_app (lit "export default function App() {}")
            (lit "export default 2") Examples.writable Examples.fixing 0
            eq_refl eq_refl _ _ eq_refl))) project_unshadowed);
    discriminate.
Defined.

End FixAppliedWitness.
